(** * The incremental Merkle tree engine of opinit-bots (merkle/merkle.go)

    A shallow embedding of [merkle.go]: the engine keeps, for the tree being
    built, only the last sibling of every level, writes every node to a
    key-value store, pads and finalizes the tree on demand and serves
    inclusion proofs from the stored nodes.

    Conventions of the embedding:
    - [uint64] and [uint8] are [Z] with the wrap-around written out
      ([u64], [u8]);
    - [[]byte] is [list byte]; Go's [nil] slice is [[]];
    - a Go function returning [(v, error)] returns a pair whose last
      component is [option error] ([None] is Go's [nil] error);
    - the receiver [m *Merkle] is passed in and returned (state passing);
    - the store [types.DB] is a Go interface: it is a type class here, and
      [MemDB] is the instance used to run the code. *)

From Stdlib Require Import ZArith Lia List Bool String.
From Stdlib Require Import Strings.Byte.
From stdpp Require Import gmap list sorting.

Local Open Scope Z_scope.

(** ** Bytes and machine integers *)

Abbreviation bytes := (list byte).

#[global] Instance byte_eq_dec : EqDecision byte.
Proof.
  intros x y. destruct (Byte.eqb x y) eqn:E.
  - left. now apply Byte.byte_dec_bl.
  - right. intros ->. rewrite (Byte.byte_dec_lb eq_refl) in E. discriminate.
Defined.

#[global] Instance byte_countable : Countable byte :=
  inj_countable Byte.to_N Byte.of_N Byte.of_to_N.

Definition u64 (x : Z) : Z := x mod 2 ^ 64.
Definition u8 (x : Z) : Z := x mod 2 ^ 8.

Definition is_u64 (x : Z) : Prop := 0 <= x < 2 ^ 64.
Definition is_u8 (x : Z) : Prop := 0 <= x < 2 ^ 8.

(** [math/bits.Len64]: the minimum number of bits required to represent
    [x]; 0 for [x = 0]. *)
Definition Len64 (x : Z) : Z :=
  match x with
  | Zpos p => Zpos (Pos.size p)
  | _ => 0
  end.

(** ** Errors *)

Inductive error : Type :=
  | ErrNonCommutative            (* "node generator function is not commutative" *)
  | ErrWorkingTreeNotInitialized (* "working tree is not initialized" *)
  | ErrInvalidIndex (treeIndex startLeafIndex : Z)
      (* "failed to initialize working tree index: %d, leaf: %d; invalid index" *)
  | ErrLeafNotInTree (leafIndex treeIndex : Z)
      (* "leaf (`%d`) is not found in tree (`%d`)" *)
  | ErrUnfinalizedTree           (* merkletypes.ErrUnfinalizedTree *)
  | ErrNotFound                  (* dbtypes.ErrNotFound *)
  | ErrOther (msg : string)      (* an error of a collaborator: store, codec, crypto/rand *)
  | Panic (msg : string)         (* a Go panic, not an error value *)
  | OutOfFuel.                   (* the loop bound of the model was reached *)

#[global] Instance error_eq_dec : EqDecision error.
Proof. solve_decision. Defined.

(** ** merkle/types: the records *)

Module TreeInfo.
Record t : Type := mk {
  Index : Z;                      (* uint64 *)
  StartLeafIndex : Z;             (* uint64 *)
  LeafCount : Z;                  (* uint64 *)
  LastSiblings : gmap Z bytes;    (* map[uint8][]byte *)
  Done : bool
}.

Definition wf (x : t) : Prop :=
  is_u64 (Index x) /\ is_u64 (StartLeafIndex x) /\ is_u64 (LeafCount x).
End TreeInfo.

Module FinalizedTreeInfo.
Record t : Type := mk {
  TreeIndex : Z;        (* uint64 *)
  TreeHeight : Z;       (* uint8 *)
  Root : bytes;
  StartLeafIndex : Z;   (* uint64 *)
  LeafCount : Z;        (* uint64 *)
  ExtraData : bytes
}.

Definition wf (x : t) : Prop :=
  is_u64 (TreeIndex x) /\ is_u8 (TreeHeight x) /\
  is_u64 (StartLeafIndex x) /\ is_u64 (LeafCount x).
End FinalizedTreeInfo.

(** [m[k]] on a Go map: the zero value ([nil]) when the key is absent. *)
Definition map_get (m : gmap Z bytes) (k : Z) : bytes := default [] (m !! k).

(** types.RawKV *)
Record RawKV : Type := { Key : bytes; Value : bytes }.

(** ** merkle/types: the key schema *)

(** Modelled from the spec: merkle/types (the key constructors) and
    db/types (the integer codecs) are not under src/; section 4.B gives the
    layout: every integer of a key is 8 bytes big-endian, a height is one
    byte, and the three prefixes are the strings below. *)
Fixpoint be_bytes (n : nat) (x : Z) : bytes :=
  match n with
  | O => []
  | S n' => be_bytes n' (x / 256) ++ [default Byte.x00 (Byte.of_N (Z.to_N (x mod 256)))]
  end.

Definition FromUint64Key (x : Z) : bytes := be_bytes 8 x.

(** Modelled from the spec: dbtypes.ToUint64Key is not under src/; it reads
    an 8-byte big-endian integer. *)
Definition ToUint64Key (b : bytes) : Z :=
  fold_left (fun acc c => acc * 256 + Z.of_N (Byte.to_N c)) b 0.

Definition WorkingTreeKey : bytes := list_byte_of_string "working_tree/".
Definition FinalizedTreeKey : bytes := list_byte_of_string "finalized_tree/".
Definition NodeKey : bytes := list_byte_of_string "node/".

Definition PrefixedWorkingTreeKey (version : Z) : bytes :=
  WorkingTreeKey ++ FromUint64Key version.
Definition PrefixedFinalizedTreeKey (startLeafIndex : Z) : bytes :=
  FinalizedTreeKey ++ FromUint64Key startLeafIndex.
Definition PrefixedNodeKey (treeIndex height localNodeIndex : Z) : bytes :=
  NodeKey ++ FromUint64Key treeIndex ++ be_bytes 1 height ++ FromUint64Key localNodeIndex.

(** [FinalizedTreeInfo.Key]: a finalized tree is stored under its start leaf
    index (the comment in [FinalizeWorkingTree] says so). *)
Definition FinalizedTreeInfo_Key (f : FinalizedTreeInfo.t) : bytes :=
  PrefixedFinalizedTreeKey (FinalizedTreeInfo.StartLeafIndex f).

(** Modelled from the spec: types.MustIntToUint8 is not under src/; by its
    name and use it converts an int that fits a uint8 and panics otherwise. *)
Definition MustIntToUint8 (v : Z) : Z * option error :=
  if (v <? 0) || (255 <? v) then (0, Some (Panic "integer overflow")) else (v, None).

(** ** The collaborators: codec and store *)

(** encoding/json on the two records.  [Unmarshal] writes into its target
    and returns an error: the value it leaves there is returned with the
    error. *)
Class Codec : Type := {
  MarshalTreeInfo : TreeInfo.t -> bytes * option error;
  UnmarshalTreeInfo : bytes -> TreeInfo.t * option error;
  MarshalFinalizedTreeInfo : FinalizedTreeInfo.t -> bytes * option error;
  UnmarshalFinalizedTreeInfo : bytes -> FinalizedTreeInfo.t * option error
}.

(** types.DB, the methods [merkle.go] calls.  [St] is the state of the store;
    a method that writes returns the new state.  The callback of
    [PrefixedIterate] runs against the store it iterates (in the source it
    closes over [m.db]), so it takes and returns the state too. *)
Class DB (St : Type) : Type := {
  Get : St -> bytes -> bytes * option error;
  Set_ : St -> bytes -> bytes -> St * option error;
  Delete : St -> bytes -> St * option error;
  PrefixedIterate :
    St -> bytes -> bytes ->
    (bytes -> bytes -> St -> St * (bool * option error)) -> St * option error;
  SeekPrevInclusiveKey : St -> bytes -> bytes -> bytes * bytes * option error;
  PrefixedKey : St -> bytes -> bytes
}.

(** ** merkle.go *)

(** NodeGeneratorFn: [func([]byte, []byte) [32]byte]. *)
Definition NodeGeneratorFn : Type := bytes -> bytes -> bytes.

Record Merkle (St : Type) : Type := mkMerkle {
  db : St;
  workingTree : option TreeInfo.t;   (* *merkletypes.TreeInfo, nil = None *)
  nodeGeneratorFn : NodeGeneratorFn
}.
Arguments mkMerkle {St}.
Arguments db {St}.
Arguments workingTree {St}.
Arguments nodeGeneratorFn {St}.

Definition with_db {St} (m : Merkle St) (d : St) : Merkle St :=
  mkMerkle d (workingTree m) (nodeGeneratorFn m).
Definition with_workingTree {St} (m : Merkle St) (t : TreeInfo.t) : Merkle St :=
  mkMerkle (db m) (Some t) (nodeGeneratorFn m).

Definition set_LastSiblings (t : TreeInfo.t) (l : gmap Z bytes) : TreeInfo.t :=
  TreeInfo.mk (TreeInfo.Index t) (TreeInfo.StartLeafIndex t) (TreeInfo.LeafCount t)
    l (TreeInfo.Done t).
Definition set_LeafCount (t : TreeInfo.t) (c : Z) : TreeInfo.t :=
  TreeInfo.mk (TreeInfo.Index t) (TreeInfo.StartLeafIndex t) c
    (TreeInfo.LastSiblings t) (TreeInfo.Done t).
Definition set_Done (t : TreeInfo.t) (b : bool) : TreeInfo.t :=
  TreeInfo.mk (TreeInfo.Index t) (TreeInfo.StartLeafIndex t) (TreeInfo.LeafCount t)
    (TreeInfo.LastSiblings t) b.

(** Dereferencing [m.workingTree] when it is nil. *)
Definition nil_deref : error := Panic "nil pointer dereference".

(** [validateNodeGeneratorFn].  crypto/rand is the environment: the outcome
    of each of the two [rand.Read] calls (the buffer as it is after the call,
    and the error) is an input. *)
Definition validateNodeGeneratorFn
    (read1 read2 : bytes * option error) (fn : NodeGeneratorFn) : option error :=
  let '(randInput1, err) := read1 in
  match err with
  | Some e => Some e
  | None =>
    let '(randInput2, err) := read2 in
    match err with
    | Some e => Some e
    | None =>
      let node1 := fn randInput1 randInput2 in
      let node2 := fn randInput2 randInput1 in
      if decide (node1 <> node2) then Some ErrNonCommutative else None
    end
  end.

Definition NewMerkle {St} (read1 read2 : bytes * option error)
    (d : St) (fn : NodeGeneratorFn) : option (Merkle St) * option error :=
  match validateNodeGeneratorFn read1 read2 fn with
  | Some e => (None, Some e)
  | None => (Some (mkMerkle d None fn), None)
  end.

(** [InitializeWorkingTree] *)
Definition InitializeWorkingTree {St} (m : Merkle St) (treeIndex startLeafIndex : Z)
    : Merkle St * option error :=
  if (treeIndex <? 1) || (startLeafIndex <? 1) then
    (m, Some (ErrInvalidIndex treeIndex startLeafIndex))
  else
    (with_workingTree m (TreeInfo.mk treeIndex startLeafIndex 0 ∅ false), None).

(** [Height] *)
Definition Height {St} (m : Merkle St) : Z * option error :=
  match workingTree m with
  | None => (0, Some ErrWorkingTreeNotInitialized)
  | Some t =>
    let leafCount := TreeInfo.LeafCount t in
    if leafCount <=? 1 then (u8 leafCount, None)
    else MustIntToUint8 (Len64 (u64 (leafCount - 1)))
  end.

(** [GetWorkingTreeIndex] *)
Definition GetWorkingTreeIndex {St} (m : Merkle St) : Z * option error :=
  match workingTree m with
  | None => (0, Some ErrWorkingTreeNotInitialized)
  | Some t => (TreeInfo.Index t, None)
  end.

(** [GetWorkingTreeLeafCount] *)
Definition GetWorkingTreeLeafCount {St} (m : Merkle St) : Z * option error :=
  match workingTree m with
  | None => (0, Some ErrWorkingTreeNotInitialized)
  | Some t => (TreeInfo.LeafCount t, None)
  end.

(** [GetStartLeafIndex] *)
Definition GetStartLeafIndex {St} (m : Merkle St) : Z * option error :=
  match workingTree m with
  | None => (0, Some ErrWorkingTreeNotInitialized)
  | Some t => (TreeInfo.StartLeafIndex t, None)
  end.

Section Engine.
Context {St : Type} {store : DB St} {codec : Codec}.
(** Modelled from the spec: merkletypes.EmptyRootHash is not under src/; it
    is "a well-known 32-byte value" whose bytes the engine never inspects,
    so it is a parameter. *)
Variable EmptyRootHash : bytes.

(** [saveNode] *)
Definition saveNode (m : Merkle St) (height localNodeIndex : Z) (data : bytes)
    : Merkle St * option error :=
  let '(workingTreeIndex, err) := GetWorkingTreeIndex m in
  match err with
  | Some e => (m, Some e)
  | None =>
    let '(d, err) := Set_ (db m) (PrefixedNodeKey workingTreeIndex height localNodeIndex) data in
    (with_db m d, err)
  end.

(** [getNode] *)
Definition getNode (m : Merkle St) (treeIndex height localNodeIndex : Z)
    : bytes * option error :=
  Get (db m) (PrefixedNodeKey treeIndex height localNodeIndex).

(** The [for] loop of [InsertLeaf].  [localNodeIndex] is halved on every
    turn, so a uint64 leaves the loop within 65 turns. *)
Fixpoint InsertLeaf_loop (fuel : nat) (m : Merkle St)
    (height localNodeIndex : Z) (data : bytes) : Merkle St * option error :=
  match fuel with
  | O => (m, Some OutOfFuel)
  | S fuel' =>
    let '(m, err) := saveNode m height localNodeIndex data in
    match err with
    | Some e => (m, Some e)
    | None =>
      match workingTree m with
      | None => (m, Some nil_deref)
      | Some t =>
        let sibling := map_get (TreeInfo.LastSiblings t) height in
        let m := with_workingTree m
                   (set_LastSiblings t (<[height := data]> (TreeInfo.LastSiblings t))) in
        if localNodeIndex mod 2 =? 0 then (m, None)
        else
          let nodeHash := nodeGeneratorFn m sibling data in
          InsertLeaf_loop fuel' m (u8 (height + 1)) (localNodeIndex / 2) nodeHash
      end
    end
  end.

(** [InsertLeaf] *)
Definition InsertLeaf (m : Merkle St) (data : bytes) : Merkle St * option error :=
  match workingTree m with
  | None => (m, Some ErrWorkingTreeNotInitialized)
  | Some t =>
    let '(m, err) := InsertLeaf_loop 65 m 0 (TreeInfo.LeafCount t) data in
    match err with
    | Some e => (m, Some e)
    | None =>
      match workingTree m with
      | None => (m, Some nil_deref)
      | Some t =>
        (with_workingTree m (set_LeafCount t (u64 (TreeInfo.LeafCount t + 1))), None)
      end
    end
  end.

(** [for range numRestLeaves] in [fillLeaves]. *)
Fixpoint fillLeaves_loop (n : nat) (m : Merkle St) (lastLeaf : bytes)
    : Merkle St * option error :=
  match n with
  | O => (m, None)
  | S n' =>
    let '(m, err) := InsertLeaf m lastLeaf in
    match err with
    | Some e => (m, Some e)
    | None => fillLeaves_loop n' m lastLeaf
    end
  end.

(** [fillLeaves]: [1<<height] is a uint64 shift. *)
Definition fillLeaves (m : Merkle St) : Merkle St * option error :=
  match workingTree m with
  | None => (m, Some ErrWorkingTreeNotInitialized)
  | Some t =>
    let '(height, err) := Height m in
    match err with
    | Some e => (m, Some e)
    | None =>
      let numRestLeaves := u64 (u64 (Z.shiftl 1 height) - TreeInfo.LeafCount t) in
      if numRestLeaves =? 0 then (m, None)
      else
        let lastLeaf := map_get (TreeInfo.LastSiblings t) 0 in
        let '(m, err) := fillLeaves_loop (Z.to_nat numRestLeaves) m lastLeaf in
        match err with
        | Some e => (m, Some e)
        | None =>
          match workingTree m with
          | None => (m, Some nil_deref)
          | Some t =>
            (with_workingTree m
               (set_LeafCount t (u64 (TreeInfo.LeafCount t - numRestLeaves))), None)
          end
        end
    end
  end.

(** [FinalizeWorkingTree] *)
Definition FinalizeWorkingTree (m : Merkle St) (extraData : bytes)
    : Merkle St * (list RawKV * bytes * option error) :=
  match workingTree m with
  | None => (m, ([], [], Some ErrWorkingTreeNotInitialized))
  | Some t =>
    let m := with_workingTree m (set_Done t true) in
    if TreeInfo.LeafCount t =? 0 then (m, ([], EmptyRootHash, None))
    else
      let '(m, err) := fillLeaves m in
      match err with
      | Some e => (m, ([], [], Some e))
      | None =>
        let '(height, err) := Height m in
        match err with
        | Some e => (m, ([], [], Some e))
        | None =>
          match workingTree m with
          | None => (m, ([], [], Some nil_deref))
          | Some t =>
            let treeRootHash := map_get (TreeInfo.LastSiblings t) height in
            let finalizedTreeInfo :=
              FinalizedTreeInfo.mk (TreeInfo.Index t) height treeRootHash
                (TreeInfo.StartLeafIndex t) (TreeInfo.LeafCount t) extraData in
            let '(data, err) := MarshalFinalizedTreeInfo finalizedTreeInfo in
            match err with
            | Some e => (m, ([], [], Some e))
            | None =>
              let kvs := [ {| Key := PrefixedKey (db m) (FinalizedTreeInfo_Key finalizedTreeInfo);
                              Value := data |} ] in
              (m, (kvs, treeRootHash, err))
            end
          end
        end
      end
  end.

(** The callback of the two [DeleteFuture...] scans: [key[len(key)-8:]]
    panics on a key shorter than 8 bytes. *)
Definition delete_from (from : Z) (key _value : bytes) (d : St)
    : St * (bool * option error) :=
  if (length key <? 8)%nat then (d, (true, Some (Panic "slice bounds out of range")))
  else
    let sequence := ToUint64Key (drop (length key - 8) key) in
    if sequence >=? from then
      let '(d, err) := Delete d key in
      match err with
      | Some e => (d, (true, Some e))
      | None => (d, (false, None))
      end
    else (d, (false, None)).

(** [DeleteFutureFinalizedTrees] *)
Definition DeleteFutureFinalizedTrees (m : Merkle St) (fromSequence : Z)
    : Merkle St * option error :=
  let '(d, err) := PrefixedIterate (db m) FinalizedTreeKey [] (delete_from fromSequence) in
  (with_db m d, err).

(** [DeleteFutureWorkingTrees] *)
Definition DeleteFutureWorkingTrees (m : Merkle St) (fromVersion : Z)
    : Merkle St * option error :=
  let '(d, err) := PrefixedIterate (db m) WorkingTreeKey [] (delete_from fromVersion) in
  (with_db m d, err).

(** [LoadWorkingTree]: the decoded value is stored in the engine before
    the error of [json.Unmarshal] is looked at. *)
Definition LoadWorkingTree (m : Merkle St) (version : Z) : Merkle St * option error :=
  let '(data, err) := Get (db m) (PrefixedWorkingTreeKey version) in
  match err with
  | Some e => (m, Some e)
  | None =>
    let '(workingTree, err) := UnmarshalTreeInfo data in
    let m := with_workingTree m workingTree in
    match err with
    | Some e => (m, Some e)
    | None =>
      if TreeInfo.Done workingTree then
        let nextTreeIndex := u64 (TreeInfo.Index workingTree + 1) in
        let nextStartLeafIndex :=
          u64 (TreeInfo.StartLeafIndex workingTree + TreeInfo.LeafCount workingTree) in
        InitializeWorkingTree m nextTreeIndex nextStartLeafIndex
      else (m, None)
    end
  end.

(** [SaveWorkingTree] *)
Definition SaveWorkingTree (m : Merkle St) (version : Z) : Merkle St * option error :=
  match workingTree m with
  | None => (m, Some ErrWorkingTreeNotInitialized)
  | Some t =>
    let '(data, err) := MarshalTreeInfo t in
    match err with
    | Some e => (m, Some e)
    | None =>
      let '(d, err) := Set_ (db m) (PrefixedWorkingTreeKey version) data in
      (with_db m d, err)
    end
  end.

(** The [for height < treeInfo.TreeHeight] loop of [GetProofs]; [height]
    is a uint8, so 256 turns are enough. *)
Fixpoint GetProofs_loop (fuel : nat) (m : Merkle St) (treeInfo : FinalizedTreeInfo.t)
    (height localNodeIndex : Z) (proofs : list bytes) : list bytes * option error :=
  match fuel with
  | O => (proofs, Some OutOfFuel)
  | S fuel' =>
    if height <? FinalizedTreeInfo.TreeHeight treeInfo then
      let siblingIndex := Z.lxor localNodeIndex 1 in
      let '(sibling, err) :=
        getNode m (FinalizedTreeInfo.TreeIndex treeInfo) height siblingIndex in
      match err with
      | Some e => ([], Some e)
      | None =>
        GetProofs_loop fuel' m treeInfo (u8 (height + 1)) (localNodeIndex / 2)
          (proofs ++ [sibling])
      end
    else (proofs, None)
  end.

(** [GetProofs]: the results are (proofs, treeIndex, rootData, extraData,
    err); every error return is [nil, 0, nil, nil, err]. *)
Definition GetProofs (m : Merkle St) (leafIndex : Z)
    : list bytes * Z * bytes * bytes * option error :=
  let '(_, value, err) :=
    SeekPrevInclusiveKey (db m) FinalizedTreeKey (PrefixedFinalizedTreeKey leafIndex) in
  match err with
  | Some e =>
    if decide (e = ErrNotFound) then ([], 0, [], [], Some ErrUnfinalizedTree)
    else ([], 0, [], [], Some e)
  | None =>
    let '(treeInfo, err) := UnmarshalFinalizedTreeInfo value in
    match err with
    | Some e => ([], 0, [], [], Some e)
    | None =>
      if leafIndex <? FinalizedTreeInfo.StartLeafIndex treeInfo then
        ([], 0, [], [],
         Some (ErrLeafNotInTree leafIndex (FinalizedTreeInfo.TreeIndex treeInfo)))
      else if u64 (leafIndex - FinalizedTreeInfo.StartLeafIndex treeInfo)
                >=? FinalizedTreeInfo.LeafCount treeInfo then
        ([], 0, [], [], Some ErrUnfinalizedTree)
      else
        let localNodeIndex := u64 (leafIndex - FinalizedTreeInfo.StartLeafIndex treeInfo) in
        let '(proofs, err) := GetProofs_loop 256 m treeInfo 0 localNodeIndex [] in
        match err with
        | Some e => ([], 0, [], [], Some e)
        | None =>
          (proofs, FinalizedTreeInfo.TreeIndex treeInfo, FinalizedTreeInfo.Root treeInfo,
           FinalizedTreeInfo.ExtraData treeInfo, None)
        end
    end
  end.
End Engine.

(** ** An in-memory store *)

(** Modelled from the spec: the store behind types.DB is not under src/.
    Section 4.A: point [Get] (or NotFound), [Set], [Delete], forward prefixed
    iteration in lexicographic key order starting at [start] (or at the
    beginning of the prefix when [start] is empty), and "seek previous
    inclusive", the greatest key not above the target that begins with the
    prefix.  The store's own global prefix is what [PrefixedKey] puts in
    front of a key.  No operation of this store fails with an I/O error. *)
Record MemDB : Type := mkMemDB {
  mem_prefix : bytes;
  mem_kv : gmap bytes bytes
}.

(** Lexicographic order on byte strings. *)
Fixpoint bytes_leb (a b : bytes) : bool :=
  match a, b with
  | [], _ => true
  | _ :: _, [] => false
  | x :: a', y :: b' =>
    if (Byte.to_N x <? Byte.to_N y)%N then true
    else if (Byte.to_N y <? Byte.to_N x)%N then false
    else bytes_leb a' b'
  end.

Fixpoint has_prefix (p k : bytes) : bool :=
  match p, k with
  | [], _ => true
  | _ :: _, [] => false
  | x :: p', y :: k' => if decide (x = y) then has_prefix p' k' else false
  end.

Definition entry_le (a b : bytes * bytes) : Prop := bytes_leb a.1 b.1.

(** The entries an iterator over [pfx] sees, in key order. *)
Definition mem_scan (pfx : bytes) (kv : gmap bytes bytes) : list (bytes * bytes) :=
  merge_sort entry_le (filter (fun e => has_prefix pfx e.1) (map_to_list kv)).

Definition mem_Get (s : MemDB) (key : bytes) : bytes * option error :=
  match mem_kv s !! key with
  | Some v => (v, None)
  | None => ([], Some ErrNotFound)
  end.

Definition mem_Set (s : MemDB) (key value : bytes) : MemDB * option error :=
  (mkMemDB (mem_prefix s) (<[key := value]> (mem_kv s)), None).

Definition mem_Delete (s : MemDB) (key : bytes) : MemDB * option error :=
  (mkMemDB (mem_prefix s) (delete key (mem_kv s)), None).

(** The iterator walks the entries it saw when it was opened; the callback
    works on the live store. *)
Fixpoint mem_iterate (l : list (bytes * bytes)) (s : MemDB)
    (cb : bytes -> bytes -> MemDB -> MemDB * (bool * option error))
    : MemDB * option error :=
  match l with
  | [] => (s, None)
  | (k, v) :: l' =>
    let '(s, (stop, err)) := cb k v s in
    match err with
    | Some e => (s, Some e)
    | None => if stop then (s, None) else mem_iterate l' s cb
    end
  end.

Definition mem_PrefixedIterate (s : MemDB) (pfx start : bytes)
    (cb : bytes -> bytes -> MemDB -> MemDB * (bool * option error))
    : MemDB * option error :=
  let entries := mem_scan pfx (mem_kv s) in
  let entries :=
    match start with
    | [] => entries
    | _ => filter (fun e => bytes_leb start e.1) entries
    end in
  mem_iterate entries s cb.

Definition mem_SeekPrevInclusiveKey (s : MemDB) (pfx key : bytes)
    : bytes * bytes * option error :=
  match last (filter (fun e => bytes_leb e.1 key) (mem_scan pfx (mem_kv s))) with
  | Some (k, v) => (k, v, None)
  | None => ([], [], Some ErrNotFound)
  end.

Definition mem_PrefixedKey (s : MemDB) (key : bytes) : bytes := mem_prefix s ++ key.

#[global] Instance MemDB_DB : DB MemDB := {
  Get := mem_Get;
  Set_ := mem_Set;
  Delete := mem_Delete;
  PrefixedIterate := mem_PrefixedIterate;
  SeekPrevInclusiveKey := mem_SeekPrevInclusiveKey;
  PrefixedKey := mem_PrefixedKey
}.

(** ** Fixtures to run the engine *)

(** A fixed-width binary codec standing in for encoding/json when the
    engine is run on examples: integers are 8 bytes big-endian, [Done] and a
    height one byte, a byte string is preceded by its length.  A record that
    is cut short decodes in part and gives an error, as [json.Unmarshal]
    does. *)
Module Fixture.
Definition codec_error : error := ErrOther "unexpected end of input".

Definition byte_of_Z (x : Z) : byte := default Byte.x00 (Byte.of_N (Z.to_N (x mod 256))).
Definition Z_of_byte (b : byte) : Z := Z.of_N (Byte.to_N b).

Definition put_bytes (d : bytes) : bytes := be_bytes 8 (Z.of_nat (length d)) ++ d.

Definition put_sibling (e : Z * bytes) : bytes := byte_of_Z e.1 :: put_bytes e.2.

Definition marshal_tree (t : TreeInfo.t) : bytes * option error :=
  (be_bytes 8 (TreeInfo.Index t) ++ be_bytes 8 (TreeInfo.StartLeafIndex t) ++
   be_bytes 8 (TreeInfo.LeafCount t) ++
   [if TreeInfo.Done t then Byte.x01 else Byte.x00] ++
   flat_map put_sibling (map_to_list (TreeInfo.LastSiblings t)), None).

Fixpoint get_siblings (fuel : nat) (b : bytes) : option (gmap Z bytes) :=
  match fuel with
  | O => None
  | S fuel' =>
    match b with
    | [] => Some ∅
    | h :: rest =>
      if (length rest <? 8)%nat then None
      else
        let n := Z.to_nat (ToUint64Key (take 8 rest)) in
        let rest := drop 8 rest in
        if (length rest <? n)%nat then None
        else
          match get_siblings fuel' (drop n rest) with
          | Some m => Some (<[Z_of_byte h := take n rest]> m)
          | None => None
          end
    end
  end.

Definition unmarshal_tree (b : bytes) : TreeInfo.t * option error :=
  if (length b <? 8)%nat then (TreeInfo.mk 0 0 0 ∅ false, Some codec_error)
  else
    let index := ToUint64Key (take 8 b) in
    let b := drop 8 b in
    if (length b <? 8)%nat then (TreeInfo.mk index 0 0 ∅ false, Some codec_error)
    else
      let start := ToUint64Key (take 8 b) in
      let b := drop 8 b in
      if (length b <? 8)%nat then (TreeInfo.mk index start 0 ∅ false, Some codec_error)
      else
        let count := ToUint64Key (take 8 b) in
        let b := drop 8 b in
        match b with
        | [] => (TreeInfo.mk index start count ∅ false, Some codec_error)
        | d :: b =>
          let done := negb (Z_of_byte d =? 0) in
          match get_siblings (S (length b)) b with
          | Some m => (TreeInfo.mk index start count m done, None)
          | None => (TreeInfo.mk index start count ∅ done, Some codec_error)
          end
        end.

Definition marshal_finalized (f : FinalizedTreeInfo.t) : bytes * option error :=
  (be_bytes 8 (FinalizedTreeInfo.TreeIndex f) ++ [byte_of_Z (FinalizedTreeInfo.TreeHeight f)] ++
   be_bytes 8 (FinalizedTreeInfo.StartLeafIndex f) ++
   be_bytes 8 (FinalizedTreeInfo.LeafCount f) ++
   put_bytes (FinalizedTreeInfo.Root f) ++ FinalizedTreeInfo.ExtraData f, None).

Definition unmarshal_finalized (b : bytes) : FinalizedTreeInfo.t * option error :=
  if (length b <? 33)%nat then (FinalizedTreeInfo.mk 0 0 [] 0 0 [], Some codec_error)
  else
    let index := ToUint64Key (take 8 b) in
    let height := Z_of_byte (default Byte.x00 (b !! 8%nat)) in
    let start := ToUint64Key (take 8 (drop 9 b)) in
    let count := ToUint64Key (take 8 (drop 17 b)) in
    let n := Z.to_nat (ToUint64Key (take 8 (drop 25 b))) in
    let b := drop 33 b in
    if (length b <? n)%nat then
      (FinalizedTreeInfo.mk index height [] start count [], Some codec_error)
    else
      (FinalizedTreeInfo.mk index height (take n b) start count (drop n b), None).

Definition codec : Codec := {|
  MarshalTreeInfo := marshal_tree;
  UnmarshalTreeInfo := unmarshal_tree;
  MarshalFinalizedTreeInfo := marshal_finalized;
  UnmarshalFinalizedTreeInfo := unmarshal_finalized
|}.

(** A commutative pairing function: the byte-wise sum of the two nodes. *)
Definition pair_sum (a b : bytes) : bytes :=
  zip_with (fun x y => byte_of_Z (Z_of_byte x + Z_of_byte y)) a b.

(** A pairing function that is not commutative: it returns its first
    argument. *)
Definition pair_first (a _b : bytes) : bytes := a.

(** A pairing function that is commutative everywhere but at the two
    all-zero and all-one nodes. *)
Definition zeros : bytes := repeat Byte.x00 32.
Definition ones : bytes := repeat Byte.x01 32.
Definition pair_almost (a b : bytes) : bytes :=
  if decide (a = zeros /\ b = ones) then ones else zeros.

Definition leaf (x : byte) : bytes := repeat x 32.

Definition empty_db : MemDB := mkMemDB (list_byte_of_string "test/") ∅.
Definition EmptyRootHash : bytes := repeat Byte.xff 32.

Definition engine (fn : NodeGeneratorFn) : Merkle MemDB := mkMerkle empty_db None fn.

(** Run a list of leaves through [InsertLeaf]. *)
Fixpoint insert_all (m : Merkle MemDB) (leaves : list bytes) : Merkle MemDB * option error :=
  match leaves with
  | [] => (m, None)
  | l :: ls =>
    let '(m, err) := InsertLeaf m l in
    match err with
    | Some e => (m, Some e)
    | None => insert_all m ls
    end
  end.

(** What the caller does with the batch [FinalizeWorkingTree] returns:
    write it to the store.  The keys of the batch carry the store's
    prefix. *)
Definition commit (m : Merkle MemDB) (kvs : list RawKV) : Merkle MemDB :=
  with_db m
    (mkMemDB (mem_prefix (db m))
       (fold_left (fun kv e => <[drop (length (mem_prefix (db m))) (Key e) := Value e]> kv)
          kvs (mem_kv (db m)))).

(** The working tree of an engine that has one. *)
Definition tree_of (m : Merkle MemDB) : TreeInfo.t :=
  default (TreeInfo.mk 0 0 0 ∅ false) (workingTree m).

(** Tree 1, starting at leaf 1, with the given leaves inserted. *)
Definition tree_with (leaves : list bytes) : Merkle MemDB :=
  (insert_all (InitializeWorkingTree (engine pair_sum) 1 1).1 leaves).1.

Definition one_leaf : Merkle MemDB := tree_with [leaf Byte.x01].
Definition three_leaves : Merkle MemDB :=
  tree_with [leaf Byte.x01; leaf Byte.x02; leaf Byte.x05].

(** [three_leaves] finalized and the batch written to the store. *)
Definition finalized3 : Merkle MemDB :=
  let '(m, (kvs, _, _)) :=
    FinalizeWorkingTree (codec := codec) EmptyRootHash three_leaves [] in
  commit m kvs.

(** The tree of one leaf finalized, then saved under version 100. *)
Definition saved_done : Merkle MemDB :=
  (SaveWorkingTree (codec := codec)
     (FinalizeWorkingTree (codec := codec) EmptyRootHash one_leaf []).1 100).1.

(** The snapshot that [saved_done] holds under version 100. *)
Definition done_snapshot : TreeInfo.t :=
  TreeInfo.mk 1 1 1 (<[1 := leaf Byte.x02]> (<[0 := leaf Byte.x01]> ∅)) true.

(** A new engine on the store of [m]. *)
Definition restart (m : Merkle MemDB) : Merkle MemDB := mkMerkle (db m) None pair_sum.

(** [three_leaves] over a store whose snapshot of version 100 was cut
    after 12 bytes. *)
Definition cut_snapshot : Merkle MemDB :=
  with_db three_leaves
    (mem_Set (db three_leaves) (PrefixedWorkingTreeKey 100)
       (take 12 (marshal_tree (tree_of three_leaves)).1)).1.

(** A store in which the record under start leaf index 1 says that its
    tree starts at leaf 5. *)
Definition misfiled : Merkle MemDB :=
  with_db (engine pair_sum)
    (mem_Set empty_db (PrefixedFinalizedTreeKey 1)
       (marshal_finalized (FinalizedTreeInfo.mk 1 2 (leaf Byte.x0d) 5 3 [])).1).1.
End Fixture.

(** ** Notions used in the statements *)

(** The height of a tree with [c] leaves, as a function of [c]. *)
Definition height_of (c : Z) : Z := if c <=? 1 then c else Len64 (c - 1).

(** [levels L n]: [L] is defined exactly on the levels [0 .. n-1]. *)
Definition levels (L : gmap Z bytes) (n : Z) : Prop :=
  forall x, is_Some (L !! x) <-> 0 <= x < n.

(** The engine states reached by [InitializeWorkingTree] followed by calls
    of [InsertLeaf], failed ones included, on trees that stay below the
    largest uint64 count. *)
Inductive built {St : Type} {store : DB St} : Merkle St -> Prop :=
  | built_init m treeIndex startLeafIndex m' :
      InitializeWorkingTree m treeIndex startLeafIndex = (m', None) ->
      built m'
  | built_insert m data m' e :
      built m ->
      (forall t, workingTree m = Some t -> TreeInfo.LeafCount t + 1 < 2 ^ 64) ->
      InsertLeaf m data = (m', e) ->
      built m'.

(** The engine with the [Done] flag of its working tree set to [b]. *)
Definition retag {St : Type} (b : bool) (m : Merkle St) : Merkle St :=
  match workingTree m with
  | Some t => with_workingTree m (set_Done t b)
  | None => m
  end.

(** The integer in the last 8 bytes of a key. *)
Definition trailing (key : bytes) : Z := ToUint64Key (drop (length key - 8) key).

(** The entries a [DeleteFuture...] scan over [pfx] with cutoff [k]
    removes. *)
Definition future (pfx : bytes) (k : Z) (e : bytes * bytes) : Prop :=
  has_prefix pfx e.1 /\ k <= trailing e.1.

#[global] Instance future_dec (pfx : bytes) (k : Z) (e : bytes * bytes) :
  Decision (future pfx k e).
Proof. unfold future. apply _. Defined.

(** ** The tree that the engine builds *)

(** The node at level [h], index [i] of the Merkle tree over [leaves]: the
    leaf itself at level 0, the pairing of its two children above. *)
Fixpoint merkle_node (fn : NodeGeneratorFn) (leaves : list bytes) (h : nat) (i : Z) : bytes :=
  match h with
  | O => nth (Z.to_nat i) leaves []
  | S h' => fn (merkle_node fn leaves h' (2 * i)) (merkle_node fn leaves h' (2 * i + 1))
  end.

(** The number of nodes at level [h] of a tree with [n] leaves. *)
Definition cnt (n : Z) (h : nat) : Z := n / 2 ^ Z.of_nat h.

(** A store on which a successful [Set] is seen by [Get] and leaves the
    other keys alone. *)
Definition lawful_store {St : Type} {store : DB St} : Prop :=
  forall (s s' : St) (k v : bytes),
    Set_ s k v = (s', None) ->
    Get s' k = (v, None) /\ forall k' : bytes, k' <> k -> Get s' k' = Get s k'.

(** [LastSiblings] holds, at every level that has a node, the last node of
    that level of the tree over [leaves]. *)
Definition frontier_of (fn : NodeGeneratorFn) (L : gmap Z bytes) (leaves : list bytes) : Prop :=
  forall h : nat,
    1 <= cnt (Z.of_nat (length leaves)) h ->
    L !! Z.of_nat h = Some (merkle_node fn leaves h (cnt (Z.of_nat (length leaves)) h - 1)).

(** The store holds, under the node keys of tree [T], the nodes of the tree
    over [leaves]. *)
Definition nodes_of {St : Type} {store : DB St} (fn : NodeGeneratorFn) (s : St) (T : Z)
    (leaves : list bytes) : Prop :=
  forall (h : nat) (i : Z),
    0 <= i < cnt (Z.of_nat (length leaves)) h ->
    Get s (PrefixedNodeKey T (Z.of_nat h) i) = (merkle_node fn leaves h i, None).

(** The working tree of [m] is tree [T], starting at leaf [s], with the
    leaves [leaves] in it. *)
Definition tree_at {St : Type} (m : Merkle St) (T s : Z) (done : bool) (leaves : list bytes)
    : Prop :=
  exists t,
    workingTree m = Some t /\
    TreeInfo.Index t = T /\ TreeInfo.StartLeafIndex t = s /\ TreeInfo.Done t = done /\
    TreeInfo.LeafCount t = Z.of_nat (length leaves) /\
    frontier_of (nodeGeneratorFn m) (TreeInfo.LastSiblings t) leaves.

(** The keys that are no node key of tree [T] are the same in both stores. *)
Definition same_but_nodes {St : Type} {store : DB St} (T : Z) (s s' : St) : Prop :=
  forall key : bytes, (forall h i, key <> PrefixedNodeKey T h i) -> Get s' key = Get s key.

(** The engine states reached by [InitializeWorkingTree treeIndex
    startLeafIndex] followed by calls of [InsertLeaf] that returned no
    error, with the leaves inserted, in order. *)
Inductive grown {St : Type} {store : DB St} (treeIndex startLeafIndex : Z)
    : Merkle St -> list bytes -> Prop :=
  | grown_init m m' :
      InitializeWorkingTree m treeIndex startLeafIndex = (m', None) ->
      grown treeIndex startLeafIndex m' []
  | grown_insert m leaves data m' :
      grown treeIndex startLeafIndex m leaves ->
      InsertLeaf m data = (m', None) ->
      grown treeIndex startLeafIndex m' (leaves ++ [data]).

(** The leaves of a finalized tree: the leaves inserted, then copies of the
    last one up to [2^H] leaves, [H] the height. *)
Definition padded (leaves : list bytes) : list bytes :=
  let c := Z.of_nat (length leaves) in
  leaves ++ repeat (List.last leaves []) (Z.to_nat (2 ^ height_of c - c)).

(** A store that can be read and refuses every write. *)
Module ReadOnly.
Record t : Type := mk { under : MemDB }.

Definition refused : error := ErrOther "read-only store".

Fixpoint iterate (l : list (bytes * bytes)) (s : t)
    (cb : bytes -> bytes -> t -> t * (bool * option error)) : t * option error :=
  match l with
  | [] => (s, None)
  | (k, v) :: l' =>
    let '(s, (stop, err)) := cb k v s in
    match err with
    | Some e => (s, Some e)
    | None => if stop then (s, None) else iterate l' s cb
    end
  end.

#[global] Instance store : DB t := {
  Get s key := mem_Get (under s) key;
  Set_ s _ _ := (s, Some refused);
  Delete s _ := (s, Some refused);
  PrefixedIterate s pfx start cb :=
    iterate (match start with
             | [] => mem_scan pfx (mem_kv (under s))
             | _ => filter (fun e => bytes_leb start e.1) (mem_scan pfx (mem_kv (under s)))
             end) s cb;
  SeekPrevInclusiveKey s pfx key := mem_SeekPrevInclusiveKey (under s) pfx key;
  PrefixedKey s key := mem_PrefixedKey (under s) key
}.

(** An engine on a read-only store, with tree 1 opened at leaf 1. *)
Definition engine : Merkle t :=
  (InitializeWorkingTree (mkMerkle (mk Fixture.empty_db) None Fixture.pair_sum) 1 1).1.
End ReadOnly.

(** ** node/db.go: the pending transactions *)

(** nodetypes.PendingTxInfo, with the fields the sources under src/ read. *)
Module PendingTxInfo.
Record t : Type := mk {
  Sequence : Z;      (* uint64 *)
  Tx : bytes;
  Timestamp : Z;     (* int64 *)
  Save : bool
}.
End PendingTxInfo.

Section PendingTxs.
Context {St : Type} {store : DB St}.
(** nodetypes is not under src/: [PendingTxInfo.Marshal] and
    [PrefixedPendingTx] are parameters. *)
Variable Marshal : PendingTxInfo.t -> bytes * option error.
Variable PrefixedPendingTx : Z -> bytes.

(** The [for] loop of [PendingTxsToRawKV] over [txInfos], [kvs] being the
    slice built so far. *)
Fixpoint PendingTxsToRawKV_loop (d : St) (txInfos : list PendingTxInfo.t) (delete : bool)
    (kvs : list RawKV) : list RawKV * option error :=
  match txInfos with
  | [] => (kvs, None)
  | txInfo :: rest =>
    let '(data, err) :=
      if negb delete && PendingTxInfo.Save txInfo then Marshal txInfo else ([], None) in
    match err with
    | Some e => ([], Some e)
    | None =>
      PendingTxsToRawKV_loop d rest delete
        (kvs ++ [ {| Key := PrefixedKey d (PrefixedPendingTx (PendingTxInfo.Sequence txInfo));
                     Value := data |} ])
    end
  end.

(** [PendingTxsToRawKV]; [d] is the store of the node. *)
Definition PendingTxsToRawKV (d : St) (txInfos : list PendingTxInfo.t) (delete : bool)
    : list RawKV * option error :=
  PendingTxsToRawKV_loop d txInfos delete [].

(** The pair written for [txInfo]: its value is the serialized transaction
    when the transaction is saved and nothing is deleted, empty otherwise. *)
Definition pending_entry (d : St) (delete : bool) (txInfo : PendingTxInfo.t) : RawKV :=
  {| Key := PrefixedKey d (PrefixedPendingTx (PendingTxInfo.Sequence txInfo));
     Value := if negb delete && PendingTxInfo.Save txInfo then (Marshal txInfo).1 else [] |}.

(** The transactions on which [PendingTxsToRawKV] stops. *)
Definition marshal_fails (delete : bool) (txInfo : PendingTxInfo.t) : bool :=
  negb delete && PendingTxInfo.Save txInfo &&
  match (Marshal txInfo).2 with Some _ => true | None => false end.
End PendingTxs.

(** * Properties *)

(** ** Machine integers and bit lengths *)

Lemma u64_id x : is_u64 x -> u64 x = x.
Proof. unfold is_u64, u64. intros. now apply Z.mod_small. Qed.

Lemma u8_id x : is_u8 x -> u8 x = x.
Proof. unfold is_u8, u8. intros. now apply Z.mod_small. Qed.

Lemma u64_range x : is_u64 (u64 x).
Proof. unfold is_u64, u64. apply Z.mod_pos_bound. lia. Qed.

Lemma Len64_nonneg x : 0 <= Len64 x.
Proof. destruct x; simpl; lia. Qed.

Lemma Len64_log2 x : 0 < x -> Len64 x = Z.log2 x + 1.
Proof.
  destruct x as [|[p|p|]|]; intros Hx; try lia; try reflexivity.
  - cbn [Len64 Z.log2 Pos.size]. rewrite Pos2Z.inj_succ. lia.
  - cbn [Len64 Z.log2 Pos.size]. rewrite Pos2Z.inj_succ. lia.
Qed.

Lemma Len64_even x : 0 < x -> Len64 (2 * x) = Len64 x + 1.
Proof.
  destruct x; intros Hx; try lia.
  change (2 * Z.pos p) with (Z.pos p~0).
  cbn [Len64 Pos.size]. rewrite Pos2Z.inj_succ. lia.
Qed.

Lemma Len64_odd x : 0 <= x -> Len64 (2 * x + 1) = Len64 x + 1.
Proof.
  destruct x; intros Hx; try lia; [reflexivity|].
  change (2 * Z.pos p + 1) with (Z.pos p~1).
  cbn [Len64 Pos.size]. rewrite Pos2Z.inj_succ. lia.
Qed.

(** [Len64 x] is the least [n] with [x < 2^n]. *)
Lemma Len64_bounds x : 0 < x -> 2 ^ (Len64 x - 1) <= x < 2 ^ Len64 x.
Proof.
  intros Hx. rewrite Len64_log2 by assumption.
  replace (Z.log2 x + 1 - 1) with (Z.log2 x) by lia.
  replace (Z.log2 x + 1) with (Z.succ (Z.log2 x)) by lia.
  now apply Z.log2_spec.
Qed.

Lemma Len64_lt_pow2 x : 0 <= x -> x < 2 ^ Len64 x.
Proof.
  intros Hx. destruct (Z.eq_dec x 0) as [->|]; [reflexivity|].
  apply Len64_bounds. lia.
Qed.

Lemma Len64_le_64 x : is_u64 x -> Len64 x <= 64.
Proof.
  unfold is_u64. intros [H0 H1].
  destruct (Z.eq_dec x 0) as [->|Hne]; [simpl; lia|].
  rewrite Len64_log2 by lia.
  assert (Z.log2 x < 64) by (apply Z.log2_lt_pow2; lia). lia.
Qed.

Lemma Len64_pow2 n : 0 <= n -> Len64 (2 ^ n) = n + 1.
Proof.
  intros Hn. rewrite Len64_log2 by (apply Z.pow_pos_nonneg; lia).
  now rewrite Z.log2_pow2.
Qed.

Lemma MustIntToUint8_Len64 x : is_u64 x -> MustIntToUint8 (Len64 x) = (Len64 x, None).
Proof.
  intros Hx. unfold MustIntToUint8.
  pose proof (Len64_nonneg x). pose proof (Len64_le_64 x Hx).
  destruct (Len64 x <? 0) eqn:E1; [lia|].
  destruct (255 <? Len64 x) eqn:E2; [lia|]. reflexivity.
Qed.

(** ** Height *)

Lemma Height_Some {St} (m : Merkle St) t :
  workingTree m = Some t -> is_u64 (TreeInfo.LeafCount t) ->
  Height m = (height_of (TreeInfo.LeafCount t), None).
Proof.
  intros Hwt Hc. unfold Height, height_of. rewrite Hwt.
  destruct (TreeInfo.LeafCount t <=? 1) eqn:E.
  - rewrite u8_id; [reflexivity|]. unfold is_u64, is_u8 in *. lia.
  - assert (is_u64 (TreeInfo.LeafCount t - 1)) by (unfold is_u64 in *; lia).
    rewrite u64_id by assumption. now apply MustIntToUint8_Len64.
Qed.

Lemma height_of_range c : is_u64 c -> 0 <= height_of c <= 64.
Proof.
  intros Hc. unfold height_of. destruct (c <=? 1) eqn:E.
  - unfold is_u64 in Hc. lia.
  - assert (Hp : is_u64 (c - 1)) by (unfold is_u64 in *; lia).
    pose proof (Len64_nonneg (c - 1)). pose proof (Len64_le_64 (c - 1) Hp). lia.
Qed.

(** [2^H] is the least power of two that holds [c] leaves, but for [c = 1]
    where the height is 1. *)
Lemma height_of_pow2 c : 1 <= c -> c <= 2 ^ height_of c.
Proof.
  intros Hc. unfold height_of. destruct (c <=? 1) eqn:E.
  - assert (c = 1) as -> by lia. lia.
  - pose proof (Len64_lt_pow2 (c - 1)). lia.
Qed.

(** C2: [Height] gives 0 on an empty tree, 1 on a tree with one leaf and
    otherwise the bit length of [LeafCount - 1], that is the [h] with
    [2^(h-1) <= LeafCount - 1 < 2^h], one more than the binary logarithm of
    [LeafCount - 1]; without a working tree it gives the error "working tree
    is not initialized". *)
Theorem Height_spec {St} (m : Merkle St) :
  (workingTree m = None -> Height m = (0, Some ErrWorkingTreeNotInitialized)) /\
  (forall t, workingTree m = Some t -> is_u64 (TreeInfo.LeafCount t) ->
     (TreeInfo.LeafCount t = 0 -> Height m = (0, None)) /\
     (TreeInfo.LeafCount t = 1 -> Height m = (1, None)) /\
     (2 <= TreeInfo.LeafCount t ->
        exists h, Height m = (h, None) /\
          h = Z.log2 (TreeInfo.LeafCount t - 1) + 1 /\
          2 ^ (h - 1) <= TreeInfo.LeafCount t - 1 < 2 ^ h)).
Proof.
  split.
  - intros Hwt. unfold Height. now rewrite Hwt.
  - intros t Hwt Hc. rewrite (Height_Some m t Hwt Hc). unfold height_of.
    repeat split.
    + intros ->. reflexivity.
    + intros ->. reflexivity.
    + intros H2. exists (Len64 (TreeInfo.LeafCount t - 1)).
      destruct (TreeInfo.LeafCount t <=? 1) eqn:E; [lia|].
      split; [reflexivity|]. split.
      * apply Len64_log2. lia.
      * apply Len64_bounds. lia.
Qed.

Lemma Height_spec_witness :
  Height (mkMerkle Fixture.empty_db None Fixture.pair_sum)
    = (0, Some ErrWorkingTreeNotInitialized) /\
  exists h, Height (mkMerkle Fixture.empty_db (Some (TreeInfo.mk 1 1 5 ∅ false)) Fixture.pair_sum)
              = (h, None) /\ h = Z.log2 (5 - 1) + 1 /\ 2 ^ (h - 1) <= 5 - 1 < 2 ^ h.
Proof.
  split.
  - apply (proj1 (Height_spec (mkMerkle Fixture.empty_db None Fixture.pair_sum))).
    reflexivity.
  - apply (proj2 (Height_spec
             (mkMerkle Fixture.empty_db (Some (TreeInfo.mk 1 1 5 ∅ false)) Fixture.pair_sum))
             (TreeInfo.mk 1 1 5 ∅ false)).
    + reflexivity.
    + unfold is_u64; simpl; lia.
    + simpl; lia.
Defined.

(** ** The frontier: which levels of [LastSiblings] are defined *)

Lemma levels_empty : levels ∅ 0.
Proof. intros x. rewrite lookup_empty. split; [intros [? ?]; discriminate | lia]. Qed.

Lemma levels_insert_in L n h d : levels L n -> 0 <= h < n -> levels (<[h := d]> L) n.
Proof.
  intros HL Hh x. destruct (decide (h = x)) as [->|Hne].
  - rewrite lookup_insert_eq. split; [intros _; lia | eauto].
  - rewrite lookup_insert_ne by assumption. apply HL.
Qed.

Lemma levels_insert_next L h d : levels L h -> 0 <= h -> levels (<[h := d]> L) (h + 1).
Proof.
  intros HL Hh x. destruct (decide (h = x)) as [->|Hne].
  - rewrite lookup_insert_eq. split; [intros _; lia | eauto].
  - rewrite lookup_insert_ne by assumption. rewrite (HL x). lia.
Qed.

Lemma levels_size (L : gmap Z bytes) n : 0 <= n -> levels L n -> Z.of_nat (size L) = n.
Proof.
  intros Hn HL.
  assert (Hdom : dom L = list_to_set (seqZ 0 n)).
  { apply set_eq. intros x.
    rewrite elem_of_dom, elem_of_list_to_set, elem_of_seqZ, (HL x). lia. }
  rewrite <- size_dom, Hdom, size_list_to_set by apply NoDup_seqZ.
  rewrite length_seqZ. lia.
Qed.

Lemma set_LastSiblings_id t : set_LastSiblings t (TreeInfo.LastSiblings t) = t.
Proof. now destruct t. Qed.

Section InsertLeaf_facts.
Context {St : Type} {store : DB St}.

Lemma saveNode_tree (m : Merkle St) t h idx data :
  workingTree m = Some t ->
  saveNode m h idx data =
    (with_db m (Set_ (db m) (PrefixedNodeKey (TreeInfo.Index t) h idx) data).1,
     (Set_ (db m) (PrefixedNodeKey (TreeInfo.Index t) h idx) data).2).
Proof.
  intros Hwt. unfold saveNode, GetWorkingTreeIndex. rewrite Hwt.
  now destruct (Set_ _ _ _).
Qed.

(** What a run of the loop of [InsertLeaf] does to the working tree,
    whether it ends with an error or not: only [LastSiblings] changes, and
    the defined levels follow the bit length of the local index. *)
Lemma InsertLeaf_loop_tree fuel :
  forall (m : Merkle St) t h idx data m' e,
    workingTree m = Some t ->
    InsertLeaf_loop fuel m h idx data = (m', e) ->
    exists L',
      workingTree m' = Some (set_LastSiblings t L') /\
      nodeGeneratorFn m' = nodeGeneratorFn m /\
      (0 <= h -> h + Z.of_nat fuel <= 255 -> 0 <= idx ->
       levels (TreeInfo.LastSiblings t) (h + Len64 idx) ->
       levels L' (h + Len64 (match e with None => idx + 1 | Some _ => idx end))).
Proof.
  induction fuel as [|fuel IH]; intros m t h idx data m' e Hwt Hrun.
  - simpl in Hrun. injection Hrun as <- <-.
    exists (TreeInfo.LastSiblings t). rewrite set_LastSiblings_id. auto.
  - cbn [InsertLeaf_loop] in Hrun. rewrite (saveNode_tree m t h idx data Hwt) in Hrun.
    destruct (Set_ (db m) (PrefixedNodeKey (TreeInfo.Index t) h idx) data) as [d [e'|]];
      cbn [fst snd] in Hrun.
    + injection Hrun as <- <-. exists (TreeInfo.LastSiblings t).
      rewrite set_LastSiblings_id. auto.
    + cbn [with_db workingTree] in Hrun. rewrite Hwt in Hrun.
      destruct (idx mod 2 =? 0) eqn:Hpar.
      * injection Hrun as <- <-.
        exists (<[h := data]> (TreeInfo.LastSiblings t)).
        split; [reflexivity|]. split; [reflexivity|].
        intros Hh _ Hidx HL.
        destruct (Z.eq_dec idx 0) as [->|Hnz].
        -- change (Len64 (0 + 1)) with 1. change (Len64 0) with 0 in HL.
           rewrite Z.add_0_r in HL. now apply levels_insert_next.
        -- assert (Hk : idx = 2 * (idx / 2))
             by (apply Z.eqb_eq in Hpar; pose proof (Z.div_mod idx 2); lia).
           assert (Hlen : Len64 (idx + 1) = Len64 idx).
           { rewrite Hk at 1. rewrite Len64_odd by lia.
             rewrite Hk at 2. rewrite Len64_even by lia. reflexivity. }
           rewrite Hlen. apply levels_insert_in; [assumption|].
           pose proof (Len64_log2 idx). pose proof (Z.log2_nonneg idx). lia.
      * apply Z.eqb_neq in Hpar.
        match type of Hrun with
        | InsertLeaf_loop _ ?m2 _ _ _ = _ =>
          destruct (IH m2 (set_LastSiblings t (<[h := data]> (TreeInfo.LastSiblings t)))
                      _ _ _ _ _ eq_refl Hrun) as (L' & Hwt' & Hfn & Hlev)
        end.
        exists L'. split; [exact Hwt'|]. split; [exact Hfn|].
        intros Hh Hfuel Hidx HL.
        assert (Hk : idx = 2 * (idx / 2) + 1)
          by (pose proof (Z.div_mod idx 2); pose proof (Z.mod_pos_bound idx 2); lia).
        assert (Hk0 : 0 <= idx / 2) by (apply Z.div_pos; lia).
        assert (Hlen : Len64 idx = Len64 (idx / 2) + 1).
        { rewrite Hk at 1. now apply Len64_odd. }
        assert (Hu8 : u8 (h + 1) = h + 1) by (apply u8_id; unfold is_u8; lia).
        rewrite Hu8 in Hlev.
        assert (Hnew : levels L'
                  (h + 1 + Len64 (match e with None => idx / 2 + 1 | Some _ => idx / 2 end))).
        { apply Hlev; try lia.
          cbn [set_LastSiblings TreeInfo.LastSiblings].
          replace (h + 1 + Len64 (idx / 2)) with (h + Len64 idx) by lia.
          apply levels_insert_in; [assumption|].
          pose proof (Len64_nonneg (idx / 2)). lia. }
        destruct e.
        -- replace (h + Len64 idx) with (h + 1 + Len64 (idx / 2)) by lia. exact Hnew.
        -- replace (idx + 1) with (2 * (idx / 2 + 1)) by lia.
           rewrite Len64_even by lia.
           replace (h + (Len64 (idx / 2 + 1) + 1)) with (h + 1 + Len64 (idx / 2 + 1)) by lia.
           exact Hnew.
Qed.
End InsertLeaf_facts.

Section InsertLeaf_tree_facts.
Context {St : Type} {store : DB St}.

(** [InsertLeaf], error or not: the count goes up by one only without an
    error, and the defined levels follow the bit length of the count. *)
Lemma InsertLeaf_tree (m : Merkle St) t data m' e :
  workingTree m = Some t ->
  InsertLeaf m data = (m', e) ->
  exists L',
    workingTree m' =
      Some (match e with
            | None => set_LeafCount (set_LastSiblings t L') (u64 (TreeInfo.LeafCount t + 1))
            | Some _ => set_LastSiblings t L'
            end) /\
    nodeGeneratorFn m' = nodeGeneratorFn m /\
    (0 <= TreeInfo.LeafCount t ->
     levels (TreeInfo.LastSiblings t) (Len64 (TreeInfo.LeafCount t)) ->
     levels L' (Len64 (match e with
                       | None => TreeInfo.LeafCount t + 1
                       | Some _ => TreeInfo.LeafCount t
                       end))).
Proof.
  intros Hwt Hrun. unfold InsertLeaf in Hrun. rewrite Hwt in Hrun.
  destruct (InsertLeaf_loop 65 m 0 (TreeInfo.LeafCount t) data) as [m1 e1] eqn:Hloop.
  destruct (InsertLeaf_loop_tree 65 m t 0 _ data m1 e1 Hwt Hloop) as (L' & Hwt1 & Hfn & Hlev).
  exists L'. destruct e1 as [e1|].
  - injection Hrun as <- <-. split; [exact Hwt1|]. split; [exact Hfn|].
    intros Hc HL. apply (Hlev ltac:(lia) ltac:(lia) Hc HL).
  - rewrite Hwt1 in Hrun. injection Hrun as <- <-.
    split; [reflexivity|]. split; [exact Hfn|].
    intros Hc HL. apply (Hlev ltac:(lia) ltac:(lia) Hc HL).
Qed.

(** From here on the store accepts every write. *)
Hypothesis Set_ok : forall (s : St) k v, (Set_ s k v).2 = None.

(** A local index below [2^fuel] leaves the loop within [fuel + 1] turns. *)
Lemma InsertLeaf_loop_ok fuel :
  forall (m : Merkle St) t h idx data,
    workingTree m = Some t -> 0 <= idx < 2 ^ Z.of_nat fuel ->
    exists m', InsertLeaf_loop (S fuel) m h idx data = (m', None).
Proof.
  induction fuel as [|fuel IH]; intros m t h idx data Hwt Hidx;
    cbn [InsertLeaf_loop]; rewrite (saveNode_tree m t h idx data Hwt), Set_ok;
    cbn [with_db workingTree]; rewrite Hwt.
  - assert (idx = 0) as -> by (change (2 ^ Z.of_nat 0) with 1 in Hidx; lia).
    change (0 mod 2 =? 0) with true. cbn iota. eauto.
  - destruct (idx mod 2 =? 0) eqn:Hpar; [eauto|].
    eapply IH; [reflexivity|].
    rewrite Nat2Z.inj_succ, Z.pow_succ_r in Hidx by lia.
    split; [apply Z.div_pos; lia | apply Z.div_lt_upper_bound; lia].
Qed.

Lemma InsertLeaf_ok (m : Merkle St) t data :
  workingTree m = Some t -> is_u64 (TreeInfo.LeafCount t) ->
  exists m' L',
    InsertLeaf m data = (m', None) /\
    workingTree m' =
      Some (set_LeafCount (set_LastSiblings t L') (u64 (TreeInfo.LeafCount t + 1))) /\
    nodeGeneratorFn m' = nodeGeneratorFn m /\
    (levels (TreeInfo.LastSiblings t) (Len64 (TreeInfo.LeafCount t)) ->
     levels L' (Len64 (TreeInfo.LeafCount t + 1))).
Proof.
  intros Hwt Hc.
  destruct (InsertLeaf m data) as [m' e] eqn:Hrun.
  assert (He : e = None).
  { unfold InsertLeaf in Hrun. rewrite Hwt in Hrun.
    destruct (InsertLeaf_loop_ok 64 m t 0 (TreeInfo.LeafCount t) data Hwt Hc) as [m1 Hloop].
    rewrite Hloop in Hrun.
    destruct (InsertLeaf_loop_tree _ m t _ _ _ _ _ Hwt Hloop) as (L1 & Hwt1 & _).
    rewrite Hwt1 in Hrun. now injection Hrun. }
  subst e.
  destruct (InsertLeaf_tree m t data m' None Hwt Hrun) as (L' & Hwt' & Hfn & Hlev).
  exists m', L'. split; [reflexivity|]. split; [exact Hwt'|]. split; [exact Hfn|].
  intros HL. apply Hlev; [apply Hc | exact HL].
Qed.

(** The padding loop: [n] more leaves. *)
Lemma fillLeaves_loop_ok n :
  forall (m : Merkle St) t leaf,
    workingTree m = Some t -> is_u64 (TreeInfo.LeafCount t) ->
    exists m' L',
      fillLeaves_loop n m leaf = (m', None) /\
      workingTree m' =
        Some (set_LeafCount (set_LastSiblings t L') (u64 (TreeInfo.LeafCount t + Z.of_nat n))) /\
      nodeGeneratorFn m' = nodeGeneratorFn m /\
      (TreeInfo.LeafCount t + Z.of_nat n <= 2 ^ 64 ->
       levels (TreeInfo.LastSiblings t) (Len64 (TreeInfo.LeafCount t)) ->
       levels L' (Len64 (TreeInfo.LeafCount t + Z.of_nat n))).
Proof.
  induction n as [|n IH]; intros m t leaf Hwt Hc.
  - exists m, (TreeInfo.LastSiblings t). cbn [fillLeaves_loop Z.of_nat].
    rewrite Z.add_0_r, (u64_id _ Hc). rewrite Hwt.
    split; [reflexivity|]. split; [now destruct t|]. split; [reflexivity|]. auto.
  - cbn [fillLeaves_loop].
    destruct (InsertLeaf_ok m t leaf Hwt Hc) as (m1 & L1 & Hins & Hwt1 & Hfn1 & Hlev1).
    rewrite Hins.
    destruct n as [|n'].
    + exists m1, L1. cbn [fillLeaves_loop].
      split; [reflexivity|]. split; [exact Hwt1|]. split; [exact Hfn1|].
      intros _ HL. now apply Hlev1.
    + destruct (IH m1 _ leaf Hwt1 (u64_range _)) as (m' & L' & Hrun & Hwt' & Hfn' & Hlev').
      exists m', L'. split; [exact Hrun|].
      cbn [set_LeafCount set_LastSiblings TreeInfo.LeafCount TreeInfo.LastSiblings
           TreeInfo.Index TreeInfo.StartLeafIndex TreeInfo.Done] in Hwt', Hlev'.
      split.
      { rewrite Hwt'. unfold set_LeafCount, set_LastSiblings, u64; cbn.
        rewrite Zplus_mod_idemp_l. do 3 f_equal. lia. }
      split; [congruence|].
      intros Hsum HL.
      assert (Hu : u64 (TreeInfo.LeafCount t + 1) = TreeInfo.LeafCount t + 1)
        by (apply u64_id; unfold is_u64 in *; lia).
      rewrite Hu in Hlev'.
      replace (TreeInfo.LeafCount t + Z.of_nat (S (S n')))
        with (TreeInfo.LeafCount t + 1 + Z.of_nat (S n')) by lia.
      apply Hlev'; [lia | now apply Hlev1].
Qed.

(** The number of padding leaves, without the wrap-around. *)
Lemma numRestLeaves_eq c :
  is_u64 c -> 1 <= c -> u64 (u64 (Z.shiftl 1 (height_of c)) - c) = 2 ^ height_of c - c.
Proof.
  intros Hc H1. pose proof (height_of_range c Hc) as Hh.
  pose proof (height_of_pow2 c H1) as Hle.
  rewrite Z.shiftl_1_l. unfold u64. rewrite Zminus_mod_idemp_l.
  apply Z.mod_small.
  assert (2 ^ height_of c <= 2 ^ 64) by (apply Z.pow_le_mono_r; lia).
  unfold is_u64 in Hc. lia.
Qed.

(** [fillLeaves] on a tree that is not empty: [2^H - c] copies of the last
    leaf go in, the count comes back to [c], and the levels [0 .. H] are
    defined afterwards. *)
Lemma fillLeaves_ok (m : Merkle St) t :
  workingTree m = Some t -> is_u64 (TreeInfo.LeafCount t) -> 1 <= TreeInfo.LeafCount t ->
  exists m' L',
    fillLeaves m = (m', None) /\
    workingTree m' = Some (set_LastSiblings t L') /\
    nodeGeneratorFn m' = nodeGeneratorFn m /\
    (levels (TreeInfo.LastSiblings t) (Len64 (TreeInfo.LeafCount t)) ->
     levels L' (height_of (TreeInfo.LeafCount t) + 1)) /\
    exists mp,
      fillLeaves_loop (Z.to_nat (2 ^ height_of (TreeInfo.LeafCount t) - TreeInfo.LeafCount t))
        m (map_get (TreeInfo.LastSiblings t) 0) = (mp, None) /\
      workingTree mp =
        Some (set_LeafCount (set_LastSiblings t L')
                (u64 (2 ^ height_of (TreeInfo.LeafCount t)))).
Proof.
  intros Hwt Hc H1. set (c := TreeInfo.LeafCount t) in *.
  pose proof (height_of_range c Hc) as Hh.
  pose proof (height_of_pow2 c H1) as Hle.
  assert (Hpow : 2 ^ height_of c <= 2 ^ 64) by (apply Z.pow_le_mono_r; lia).
  unfold fillLeaves. rewrite Hwt, (Height_Some m t Hwt Hc). fold c.
  rewrite (numRestLeaves_eq c Hc H1).
  destruct (fillLeaves_loop_ok (Z.to_nat (2 ^ height_of c - c)) m t
              (map_get (TreeInfo.LastSiblings t) 0) Hwt Hc)
    as (mp & L' & Hrun & Hwtp & Hfnp & Hlevp).
  fold c in Hwtp, Hlevp.
  rewrite Z2Nat.id in Hwtp, Hlevp by lia.
  replace (c + (2 ^ height_of c - c)) with (2 ^ height_of c) in Hwtp, Hlevp by lia.
  destruct (2 ^ height_of c - c =? 0) eqn:Hz.
  - apply Z.eqb_eq in Hz. exists m, (TreeInfo.LastSiblings t).
    rewrite set_LastSiblings_id.
    replace (2 ^ height_of c - c) with 0 in Hrun |- * by lia.
    cbn [Z.to_nat fillLeaves_loop] in Hrun |- *.
    split; [reflexivity|]. split; [exact Hwt|]. split; [reflexivity|]. split.
    + intros HL. replace (Len64 c) with (height_of c + 1) in HL; [exact HL|].
      replace c with (2 ^ height_of c) at 2 by lia.
      rewrite Len64_pow2; lia.
    + exists m. split; [reflexivity|]. rewrite Hwt. f_equal.
      replace (2 ^ height_of c) with c by lia. rewrite (u64_id _ Hc).
      subst c. now destruct t.
  - rewrite Hrun, Hwtp. exists (with_workingTree mp
      (set_LeafCount (set_LeafCount (set_LastSiblings t L') (u64 (2 ^ height_of c)))
         (u64 (TreeInfo.LeafCount
                 (set_LeafCount (set_LastSiblings t L') (u64 (2 ^ height_of c)))
               - (2 ^ height_of c - c))))), L'.
    split; [reflexivity|]. split.
    { cbn [with_workingTree workingTree]. unfold set_LeafCount, set_LastSiblings.
      cbn [TreeInfo.Index TreeInfo.StartLeafIndex TreeInfo.LeafCount
           TreeInfo.LastSiblings TreeInfo.Done].
      assert (Hback : u64 (u64 (2 ^ height_of c) - (2 ^ height_of c - c)) = c).
      { unfold u64. rewrite Zminus_mod_idemp_l.
        replace (2 ^ height_of c - (2 ^ height_of c - c)) with c by lia.
        apply Z.mod_small. exact Hc. }
      rewrite Hback. reflexivity. }
    split; [exact Hfnp|]. split.
    { intros HL. rewrite <- Len64_pow2 by lia. apply Hlevp; [lia | exact HL]. }
    exists mp. split; [reflexivity | first [exact Hwtp | reflexivity]].
Qed.
End InsertLeaf_tree_facts.

(** ** FinalizeWorkingTree *)

Section Finalize_facts.
Context {St : Type} {store : DB St} {codec : Codec}.
Variable EmptyRootHash : bytes.

(** The store accepts every write and the record serializes. *)
Hypothesis Set_ok : forall (s : St) k v, (Set_ s k v).2 = None.
Hypothesis Marshal_ok : forall f, (MarshalFinalizedTreeInfo f).2 = None.

(** Finalizing a tree that is not empty, with the frontier it leaves. *)
Lemma FinalizeWorkingTree_ok (m : Merkle St) t extraData :
  workingTree m = Some t ->
  is_u64 (TreeInfo.LeafCount t) -> 1 <= TreeInfo.LeafCount t ->
  let c := TreeInfo.LeafCount t in
  let H := height_of c in
  exists m' L',
    let root := map_get L' H in
    let record :=
      FinalizedTreeInfo.mk (TreeInfo.Index t) H root (TreeInfo.StartLeafIndex t) c extraData in
    FinalizeWorkingTree EmptyRootHash m extraData =
      (m', ([ {| Key := PrefixedKey (db m') (PrefixedFinalizedTreeKey (TreeInfo.StartLeafIndex t));
                 Value := (MarshalFinalizedTreeInfo record).1 |} ], root, None)) /\
    workingTree m' =
      Some (TreeInfo.mk (TreeInfo.Index t) (TreeInfo.StartLeafIndex t) c L' true) /\
    (levels (TreeInfo.LastSiblings t) (Len64 c) -> levels L' (H + 1)) /\
    exists mp,
      fillLeaves_loop (Z.to_nat (2 ^ H - c)) (with_workingTree m (set_Done t true))
        (map_get (TreeInfo.LastSiblings t) 0) = (mp, None) /\
      workingTree mp =
        Some (TreeInfo.mk (TreeInfo.Index t) (TreeInfo.StartLeafIndex t) (u64 (2 ^ H)) L' true).
Proof.
  intros Hwt Hc H1 c H.
  set (m0 := with_workingTree m (set_Done t true)).
  assert (Hwt0 : workingTree m0 = Some (set_Done t true)) by reflexivity.
  destruct (fillLeaves_ok Set_ok m0 (set_Done t true) Hwt0 Hc H1)
    as (m1 & L' & Hfill & Hwt1 & _ & Hlev & mp & Hpad & Hwtp).
  cbn [set_Done TreeInfo.LeafCount TreeInfo.LastSiblings] in Hlev, Hpad, Hwtp.
  fold c in Hlev, Hpad, Hwtp. fold H in Hlev, Hpad, Hwtp.
  exists m1, L'. cbn zeta.
  assert (Hh1 : Height m1 = (H, None)) by (apply (Height_Some m1 _ Hwt1); exact Hc).
  split; [|split; [exact Hwt1 | split; [exact Hlev | exists mp; split; assumption]]].
  unfold FinalizeWorkingTree. rewrite Hwt. fold m0.
  assert (Hnz : (TreeInfo.LeafCount t =? 0) = false) by (apply Z.eqb_neq; lia).
  rewrite Hnz, Hfill, Hh1, Hwt1.
  cbn [set_LastSiblings set_Done TreeInfo.Index TreeInfo.StartLeafIndex TreeInfo.LeafCount
       TreeInfo.LastSiblings TreeInfo.Done].
  fold c.
  match goal with
  | |- context [MarshalFinalizedTreeInfo ?r] =>
    pose proof (Marshal_ok r) as Hm; destruct (MarshalFinalizedTreeInfo r) as [data err]
  end.
  cbn [fst snd] in Hm |- *. subst err. reflexivity.
Qed.
End Finalize_facts.

(** A run of the engine on three leaves: the padded tree has height 2, the
    record keeps the count 3, and the root is the pairing of the two nodes of
    level 1. *)
Example finalize_three_leaves :
  (FinalizeWorkingTree (codec := Fixture.codec) Fixture.EmptyRootHash Fixture.three_leaves []).2
    = ([ {| Key := list_byte_of_string "test/finalized_tree/" ++ FromUint64Key 1;
            Value := (Fixture.marshal_finalized
                        (FinalizedTreeInfo.mk 1 2 (Fixture.leaf Byte.x0d) 1 3 [])).1 |} ],
       Fixture.leaf Byte.x0d, None).
Proof. vm_compute. reflexivity. Qed.

(** Finalizing an empty tree: no batch, the empty root. *)
Example finalize_empty :
  (FinalizeWorkingTree (codec := Fixture.codec) Fixture.EmptyRootHash (Fixture.tree_with []) []).2
    = ([], Fixture.EmptyRootHash, None).
Proof. vm_compute. reflexivity. Qed.

(** Finalizing one leaf: height 1, the root pairs the leaf with its padded
    copy, the record keeps the count 1. *)
Example finalize_one_leaf :
  (FinalizeWorkingTree (codec := Fixture.codec) Fixture.EmptyRootHash Fixture.one_leaf []).2
    = ([ {| Key := list_byte_of_string "test/finalized_tree/" ++ FromUint64Key 1;
            Value := (Fixture.marshal_finalized
                        (FinalizedTreeInfo.mk 1 1 (Fixture.leaf Byte.x02) 1 1 [])).1 |} ],
       Fixture.pair_sum (Fixture.leaf Byte.x01) (Fixture.leaf Byte.x01), None).
Proof. vm_compute. reflexivity. Qed.

(** The proof of the second of the three leaves: the first leaf, then the
    pairing of the third leaf with its padded copy. *)
Example proofs_of_leaf_2 :
  GetProofs (codec := Fixture.codec) Fixture.finalized3 2
    = ([Fixture.leaf Byte.x01; Fixture.leaf Byte.x0a], 1, Fixture.leaf Byte.x0d, [], None).
Proof. vm_compute. reflexivity. Qed.

(** ** The size of the frontier *)

Lemma built_levels {St : Type} {store : DB St} (m : Merkle St) :
  built m ->
  exists t, workingTree m = Some t /\ is_u64 (TreeInfo.LeafCount t) /\
            levels (TreeInfo.LastSiblings t) (Len64 (TreeInfo.LeafCount t)).
Proof.
  induction 1 as [m ti si m' Hinit | m data m' e _ (t & Hwt & Hc & HL) Hmax Hins].
  - unfold InitializeWorkingTree in Hinit.
    destruct ((ti <? 1) || (si <? 1)); [discriminate|].
    injection Hinit as <-. eexists. split; [reflexivity|]. cbn.
    split; [unfold is_u64; lia | apply levels_empty].
  - destruct (InsertLeaf_tree m t data m' e Hwt Hins) as (L' & Hwt' & _ & Hlev).
    specialize (Hlev (proj1 Hc) HL). specialize (Hmax t Hwt).
    eexists. split; [exact Hwt'|]. destruct e; cbn.
    + split; assumption.
    + assert (Hu : u64 (TreeInfo.LeafCount t + 1) = TreeInfo.LeafCount t + 1)
        by (apply u64_id; unfold is_u64 in *; lia).
      rewrite Hu. split; [unfold is_u64 in *; lia | assumption].
Qed.

(** The padded tree has as many levels as the bit length of the count only
    when nothing was padded. *)
Lemma height_of_full c :
  1 <= c -> (height_of c + 1 = Len64 c <-> c = 2 ^ height_of c).
Proof.
  intros H1. unfold height_of. destruct (c <=? 1) eqn:E.
  - assert (c = 1) as -> by lia. cbn. split; intros; lia.
  - assert (Hc : 2 <= c) by lia. set (n := Len64 (c - 1)).
    pose proof (Len64_bounds (c - 1) ltac:(lia)) as Hb. fold n in Hb.
    pose proof (Len64_nonneg (c - 1)) as Hn. fold n in Hn.
    split.
    + intros Heq. pose proof (Len64_bounds c ltac:(lia)) as Hb'.
      rewrite <- Heq in Hb'. replace (n + 1 - 1) with n in Hb' by lia. lia.
    + intros Heq. rewrite Heq. rewrite Len64_pow2; lia.
Qed.

(** C3, amended: in every state reached from [InitializeWorkingTree] by
    calls of [InsertLeaf] alone (failed ones included, no
    [FinalizeWorkingTree] before them, the count below [2^64 - 1]) the
    number of defined levels of [LastSiblings] is the bit length of
    [LeafCount].  [FinalizeWorkingTree] on such a state (store accepting the
    writes, record serializing) keeps [LeafCount] at the count [c] from
    before the padding and leaves the levels of the padded tree: none for
    [c = 0], the [H + 1] levels [0 .. H] for [c >= 1]; that number is the
    bit length of [LeafCount] exactly when [c = 0] or [c = 2^H], that is
    when no leaf was padded.  Nothing is said of an [InsertLeaf] that
    follows a [FinalizeWorkingTree]. *)
Theorem frontier_size_spec {St : Type} {store : DB St} {codec : Codec}
    (EmptyRootHash : bytes) (m : Merkle St) (extraData : bytes) :
  built m ->
  exists t,
    workingTree m = Some t /\
    Z.of_nat (size (TreeInfo.LastSiblings t)) = Len64 (TreeInfo.LeafCount t) /\
    ((forall (s : St) k v, (Set_ s k v).2 = None) ->
     (forall f, (MarshalFinalizedTreeInfo f).2 = None) ->
     exists m' t' kvs root,
       let c := TreeInfo.LeafCount t in
       FinalizeWorkingTree EmptyRootHash m extraData = (m', (kvs, root, None)) /\
       workingTree m' = Some t' /\
       TreeInfo.LeafCount t' = c /\
       Z.of_nat (size (TreeInfo.LastSiblings t')) = (if c =? 0 then 0 else height_of c + 1) /\
       (Z.of_nat (size (TreeInfo.LastSiblings t')) = Len64 (TreeInfo.LeafCount t')
        <-> c = 0 \/ c = 2 ^ height_of c)).
Proof.
  intros Hb. destruct (built_levels m Hb) as (t & Hwt & Hc & HL).
  exists t. split; [exact Hwt|].
  assert (Hsize : Z.of_nat (size (TreeInfo.LastSiblings t)) = Len64 (TreeInfo.LeafCount t))
    by (apply levels_size; [apply Len64_nonneg | exact HL]).
  split; [exact Hsize|].
  intros Set_ok Marshal_ok. cbn zeta.
  destruct (Z.eq_dec (TreeInfo.LeafCount t) 0) as [Hz|Hnz].
  - exists (with_workingTree m (set_Done t true)), (set_Done t true), [], EmptyRootHash.
    unfold FinalizeWorkingTree. rewrite Hwt, Hz. cbn.
    split; [reflexivity|]. split; [reflexivity|]. split; [exact Hz|].
    rewrite Hsize, Hz. split; [reflexivity|]. split; auto.
  - assert (H1 : 1 <= TreeInfo.LeafCount t) by (unfold is_u64 in Hc; lia).
    destruct (FinalizeWorkingTree_ok EmptyRootHash Set_ok Marshal_ok m t extraData Hwt Hc H1)
      as (m' & L' & Hrun & Hwt' & Hlev & _).
    specialize (Hlev HL).
    pose proof (height_of_range _ Hc) as Hh.
    apply levels_size in Hlev; [|lia].
    eexists m', _, _, _. split; [exact Hrun|]. split; [exact Hwt'|].
    cbn [TreeInfo.LeafCount TreeInfo.LastSiblings].
    split; [reflexivity|].
    destruct (TreeInfo.LeafCount t =? 0) eqn:E; [lia|].
    split; [exact Hlev|]. rewrite Hlev.
    rewrite (height_of_full _ H1). split; [auto | intros [?|?]; [lia | assumption]].
Qed.

(** On a tree built by [InsertLeaf] the root that [FinalizeWorkingTree]
    returns is an entry of [LastSiblings], not the zero value of a missing
    key. *)
Lemma finalized_root_defined {St : Type} {store : DB St} {codec : Codec}
    (EmptyRootHash : bytes) (m : Merkle St) (t : TreeInfo.t) (extraData : bytes) :
  (forall (s : St) k v, (Set_ s k v).2 = None) ->
  (forall f, (MarshalFinalizedTreeInfo f).2 = None) ->
  built m -> workingTree m = Some t -> 1 <= TreeInfo.LeafCount t ->
  exists m' t' kvs root,
    FinalizeWorkingTree EmptyRootHash m extraData = (m', (kvs, root, None)) /\
    workingTree m' = Some t' /\
    TreeInfo.LastSiblings t' !! height_of (TreeInfo.LeafCount t) = Some root.
Proof.
  intros Set_ok Marshal_ok Hb Hwt H1.
  destruct (built_levels m Hb) as (t0 & Hwt0 & Hc & HL).
  rewrite Hwt in Hwt0. injection Hwt0 as <-.
  destruct (FinalizeWorkingTree_ok EmptyRootHash Set_ok Marshal_ok m t extraData Hwt Hc H1)
    as (m' & L' & Hrun & Hwt' & Hlev & _).
  specialize (Hlev HL). pose proof (height_of_range _ Hc) as Hh.
  destruct (proj2 (Hlev (height_of (TreeInfo.LeafCount t))) ltac:(lia)) as [r Hr].
  eexists m', _, _, _. split; [exact Hrun|]. split; [exact Hwt'|].
  cbn [TreeInfo.LastSiblings]. unfold map_get. rewrite Hr. reflexivity.
Qed.

Lemma built_insert_all leaves :
  forall m : Merkle MemDB,
    built m ->
    (forall t, workingTree m = Some t ->
               TreeInfo.LeafCount t + Z.of_nat (length leaves) < 2 ^ 64) ->
    built (Fixture.insert_all m leaves).1.
Proof.
  induction leaves as [|l leaves IH]; intros m Hb Hmax; [exact Hb|].
  cbn [Fixture.insert_all]. cbn [length] in Hmax.
  destruct (InsertLeaf m l) as [m1 e] eqn:Hins.
  assert (Hb1 : built m1).
  { apply (built_insert m l m1 e Hb); [|exact Hins].
    intros t Ht. specialize (Hmax t Ht). lia. }
  destruct e as [e|]; [exact Hb1|].
  apply IH; [exact Hb1|]. intros t1 Ht1.
  destruct (built_levels m Hb) as (t & Hwt & Hc & _).
  destruct (InsertLeaf_tree m t l m1 None Hwt Hins) as (L' & Hwt1 & _).
  rewrite Hwt1 in Ht1. injection Ht1 as <-. cbn [set_LeafCount TreeInfo.LeafCount].
  specialize (Hmax t Hwt).
  rewrite u64_id by (unfold is_u64 in *; lia). lia.
Qed.

Lemma built_tree_with leaves :
  Z.of_nat (length leaves) < 2 ^ 64 -> built (Fixture.tree_with leaves).
Proof.
  intros Hlen. apply built_insert_all.
  - apply (built_init (Fixture.engine Fixture.pair_sum) 1 1). reflexivity.
  - intros t Ht. injection Ht as <-. exact Hlen.
Qed.

Lemma built_one_leaf : built Fixture.one_leaf.
Proof. apply built_tree_with. reflexivity. Qed.

Lemma built_three_leaves : built Fixture.three_leaves.
Proof. apply built_tree_with. reflexivity. Qed.

Lemma frontier_size_spec_witness :
  exists t,
    workingTree Fixture.three_leaves = Some t /\
    Z.of_nat (size (TreeInfo.LastSiblings t)) = Len64 (TreeInfo.LeafCount t) /\
    exists m' t' kvs root,
      FinalizeWorkingTree (codec := Fixture.codec) Fixture.EmptyRootHash Fixture.three_leaves []
        = (m', (kvs, root, None)) /\
      workingTree m' = Some t' /\
      TreeInfo.LeafCount t' = TreeInfo.LeafCount t /\
      Z.of_nat (size (TreeInfo.LastSiblings t')) =
        (if TreeInfo.LeafCount t =? 0 then 0 else height_of (TreeInfo.LeafCount t) + 1) /\
      (Z.of_nat (size (TreeInfo.LastSiblings t')) = Len64 (TreeInfo.LeafCount t')
       <-> TreeInfo.LeafCount t = 0 \/
           TreeInfo.LeafCount t = 2 ^ height_of (TreeInfo.LeafCount t)).
Proof.
  destruct (frontier_size_spec (codec := Fixture.codec) Fixture.EmptyRootHash
              Fixture.three_leaves [] built_three_leaves) as (t & Hwt & Hsize & Hfin).
  exists t. split; [exact Hwt|]. split; [exact Hsize|].
  apply Hfin.
  - intros s k v. reflexivity.
  - intros f. reflexivity.
Defined.

(** C3 as stated fails after [FinalizeWorkingTree]: the tree built from one
    leaf is padded to two, so two levels are defined while the count is back
    at 1, whose bit length is 1.  It fails after an [InsertLeaf] too, when
    the tree was finalized before: five leaves are padded to eight, and the
    leaf inserted then brings the count to 6, whose bit length is 3, while
    the four levels of the padded tree stay defined. *)
Lemma frontier_size_counterexample :
  (built Fixture.one_leaf /\
   exists t',
     (FinalizeWorkingTree (codec := Fixture.codec) Fixture.EmptyRootHash Fixture.one_leaf []).2.2
       = None /\
     workingTree
       (FinalizeWorkingTree (codec := Fixture.codec) Fixture.EmptyRootHash Fixture.one_leaf []).1
       = Some t' /\
     TreeInfo.LeafCount t' = 1 /\
     size (TreeInfo.LastSiblings t') = 2%nat /\
     Z.of_nat (size (TreeInfo.LastSiblings t')) <> Len64 (TreeInfo.LeafCount t')) /\
  (let five :=
     Fixture.tree_with [Fixture.leaf Byte.x01; Fixture.leaf Byte.x02; Fixture.leaf Byte.x03;
                        Fixture.leaf Byte.x04; Fixture.leaf Byte.x05] in
   let finalized :=
     FinalizeWorkingTree (codec := Fixture.codec) Fixture.EmptyRootHash five [] in
   let again := InsertLeaf finalized.1 (Fixture.leaf Byte.x06) in
   built five /\ finalized.2.2 = None /\ again.2 = None /\
   exists t',
     workingTree again.1 = Some t' /\
     TreeInfo.LeafCount t' = 6 /\
     size (TreeInfo.LastSiblings t') = 4%nat /\
     Z.of_nat (size (TreeInfo.LastSiblings t')) <> Len64 (TreeInfo.LeafCount t')).
Proof.
  split.
  - split; [exact built_one_leaf|].
    exists (Fixture.tree_of
              (FinalizeWorkingTree (codec := Fixture.codec) Fixture.EmptyRootHash
                 Fixture.one_leaf []).1).
    split; [vm_compute; reflexivity|]. split; [vm_compute; reflexivity|].
    split; [vm_compute; reflexivity|]. split; [vm_compute; reflexivity|].
    vm_compute. discriminate.
  - cbn zeta. split; [apply built_tree_with; reflexivity|].
    split; [vm_compute; reflexivity|]. split; [vm_compute; reflexivity|].
    match goal with
    | |- exists t', workingTree ?m = _ /\ _ => exists (Fixture.tree_of m)
    end.
    split; [vm_compute; reflexivity|]. split; [vm_compute; reflexivity|].
    split; [vm_compute; reflexivity|]. vm_compute. discriminate.
Qed.

(** ** InsertLeaf and the Done flag *)

Section Done_facts.
Context {St : Type} {store : DB St}.

(** The loop of [InsertLeaf] never reads [Done]. *)
Lemma InsertLeaf_loop_retag b fuel :
  forall (m : Merkle St) h idx data,
    InsertLeaf_loop fuel (retag b m) h idx data =
    (retag b (InsertLeaf_loop fuel m h idx data).1, (InsertLeaf_loop fuel m h idx data).2).
Proof.
  induction fuel as [|fuel IH]; intros m h idx data; [reflexivity|].
  cbn [InsertLeaf_loop]. unfold retag at 1.
  destruct (workingTree m) as [t|] eqn:Hwt.
  - rewrite (saveNode_tree (with_workingTree m (set_Done t b)) (set_Done t b) h idx data eq_refl).
    rewrite (saveNode_tree m t h idx data Hwt).
    cbn [with_workingTree db set_Done TreeInfo.Index].
    destruct (Set_ (db m) (PrefixedNodeKey (TreeInfo.Index t) h idx) data) as [d [e|]];
      cbn [fst snd with_db workingTree db nodeGeneratorFn].
    + unfold retag. cbn. rewrite Hwt. reflexivity.
    + rewrite Hwt. cbn [set_Done TreeInfo.LastSiblings].
      destruct (idx mod 2 =? 0).
      * reflexivity.
      * cbn [with_workingTree nodeGeneratorFn db]. rewrite <- IH. reflexivity.
  - unfold saveNode, GetWorkingTreeIndex. rewrite Hwt. cbn. unfold retag. now rewrite Hwt.
Qed.

Lemma InsertLeaf_retag b (m : Merkle St) data :
  InsertLeaf (retag b m) data = (retag b (InsertLeaf m data).1, (InsertLeaf m data).2).
Proof.
  unfold InsertLeaf. destruct (workingTree m) as [t|] eqn:Hwt.
  - assert (Hr : workingTree (retag b m) = Some (set_Done t b))
      by (unfold retag; now rewrite Hwt).
    rewrite Hr. cbn [set_Done TreeInfo.LeafCount].
    rewrite InsertLeaf_loop_retag.
    destruct (InsertLeaf_loop 65 m 0 (TreeInfo.LeafCount t) data) as [m1 [e|]]; cbn [fst snd].
    + reflexivity.
    + unfold retag at 1 2. destruct (workingTree m1) as [t1|] eqn:Hwt1; cbn.
      * unfold retag. cbn. reflexivity.
      * rewrite Hwt1. cbn. unfold retag. now rewrite Hwt1.
  - unfold retag at 1. rewrite Hwt. rewrite Hwt. cbn. unfold retag. now rewrite Hwt.
Qed.
End Done_facts.

(** C8, amended: [InsertLeaf] does not look at [Done].  On a working tree
    with [Done = true], with a store that accepts the writes, it returns no
    error, counts the leaf and leaves [Done = true]; the tree it produces is
    the one it produces on the same tree with [Done = false], but for the
    flag. *)
Theorem InsertLeaf_ignores_Done {St : Type} {store : DB St}
    (m : Merkle St) (t : TreeInfo.t) (data : bytes) :
  (forall (s : St) k v, (Set_ s k v).2 = None) ->
  workingTree m = Some t -> TreeInfo.Done t = true ->
  is_u64 (TreeInfo.LeafCount t) ->
  exists m' t',
    InsertLeaf m data = (m', None) /\
    workingTree m' = Some t' /\
    TreeInfo.Done t' = true /\
    TreeInfo.LeafCount t' = u64 (TreeInfo.LeafCount t + 1) /\
    InsertLeaf (with_workingTree m (set_Done t false)) data =
      (with_workingTree m' (set_Done t' false), None).
Proof.
  intros Set_ok Hwt Hdone Hc.
  destruct (InsertLeaf_ok Set_ok m t data Hwt Hc) as (m' & L' & Hins & Hwt' & _).
  eexists m', _. split; [exact Hins|]. split; [exact Hwt'|].
  cbn [set_LeafCount set_LastSiblings TreeInfo.Done TreeInfo.LeafCount].
  split; [exact Hdone|]. split; [reflexivity|].
  pose proof (InsertLeaf_retag false m data) as Hre.
  unfold retag at 1 in Hre. rewrite Hwt in Hre. rewrite Hre, Hins.
  cbn [fst snd]. unfold retag. rewrite Hwt'. reflexivity.
Qed.

Lemma InsertLeaf_ignores_Done_witness :
  exists m' t',
    let m := with_workingTree Fixture.one_leaf (set_Done (Fixture.tree_of Fixture.one_leaf) true) in
    InsertLeaf m (Fixture.leaf Byte.x02) = (m', None) /\
    workingTree m' = Some t' /\
    TreeInfo.Done t' = true /\
    TreeInfo.LeafCount t' = u64 (TreeInfo.LeafCount (Fixture.tree_of Fixture.one_leaf) + 1) /\
    InsertLeaf
      (with_workingTree m (set_Done (set_Done (Fixture.tree_of Fixture.one_leaf) true) false))
      (Fixture.leaf Byte.x02) = (with_workingTree m' (set_Done t' false), None).
Proof.
  apply (InsertLeaf_ignores_Done
           (with_workingTree Fixture.one_leaf (set_Done (Fixture.tree_of Fixture.one_leaf) true))
           (set_Done (Fixture.tree_of Fixture.one_leaf) true) (Fixture.leaf Byte.x02)).
  - intros s k v. reflexivity.
  - reflexivity.
  - reflexivity.
  - vm_compute. split; [discriminate | reflexivity].
Defined.

(** C8 as stated fails: the tree finalized from one leaf has [Done = true],
    and [InsertLeaf] on it returns no error and changes the tree. *)
Lemma InsertLeaf_Done_counterexample :
  let m := (FinalizeWorkingTree (codec := Fixture.codec) Fixture.EmptyRootHash
              Fixture.one_leaf []).1 in
  TreeInfo.Done (Fixture.tree_of m) = true /\
  workingTree m = Some (Fixture.tree_of m) /\
  (InsertLeaf m (Fixture.leaf Byte.x02)).2 = None /\
  workingTree (InsertLeaf m (Fixture.leaf Byte.x02)).1 <> workingTree m /\
  TreeInfo.LeafCount (Fixture.tree_of m) = 1 /\
  TreeInfo.LeafCount (Fixture.tree_of (InsertLeaf m (Fixture.leaf Byte.x02)).1) = 2.
Proof.
  cbv zeta. split; [vm_compute; reflexivity|]. split; [vm_compute; reflexivity|].
  split; [vm_compute; reflexivity|]. split; [vm_compute; discriminate|].
  split; vm_compute; reflexivity.
Qed.

(** ** NewMerkle *)

(** C6, amended: [NewMerkle] tests the pairing function on the one pair
    [(x, y)] of buffers that crypto/rand returned.  It fails, with the error
    "node generator function is not commutative" and no engine, when
    [p x y <> p y x] for that pair, and returns the engine when
    [p x y = p y x] for that pair, whatever [p] does on other inputs. *)
Theorem NewMerkle_spec {St : Type} (d : St) (p : NodeGeneratorFn) (x y : bytes) :
  (p x y <> p y x ->
   NewMerkle (x, None) (y, None) d p = (None, Some ErrNonCommutative)) /\
  (p x y = p y x ->
   NewMerkle (x, None) (y, None) d p = (Some (mkMerkle d None p), None)).
Proof.
  unfold NewMerkle, validateNodeGeneratorFn. split; intros Hp.
  - destruct (decide (p x y <> p y x)); [reflexivity | contradiction].
  - destruct (decide (p x y <> p y x)); [contradiction | reflexivity].
Qed.

Lemma NewMerkle_spec_witness :
  NewMerkle (Fixture.zeros, None) (Fixture.ones, None) Fixture.empty_db Fixture.pair_first
    = (None, Some ErrNonCommutative) /\
  NewMerkle (Fixture.zeros, None) (Fixture.ones, None) Fixture.empty_db Fixture.pair_sum
    = (Some (mkMerkle Fixture.empty_db None Fixture.pair_sum), None).
Proof.
  split.
  - apply (proj1 (NewMerkle_spec Fixture.empty_db Fixture.pair_first Fixture.zeros Fixture.ones)).
    vm_compute. discriminate.
  - apply (proj2 (NewMerkle_spec Fixture.empty_db Fixture.pair_sum Fixture.zeros Fixture.ones)).
    vm_compute. reflexivity.
Defined.

(** C6 as stated fails: [pair_almost] is not commutative at the all-zero and
    all-one nodes, both 32 bytes long, and an engine is constructed with it
    when crypto/rand returns another pair of buffers. *)
Lemma NewMerkle_counterexample :
  length Fixture.zeros = 32%nat /\ length Fixture.ones = 32%nat /\
  Fixture.pair_almost Fixture.zeros Fixture.ones
    <> Fixture.pair_almost Fixture.ones Fixture.zeros /\
  NewMerkle (Fixture.leaf Byte.x02, None) (Fixture.leaf Byte.x03, None)
    Fixture.empty_db Fixture.pair_almost
    = (Some (mkMerkle Fixture.empty_db None Fixture.pair_almost), None).
Proof.
  split; [reflexivity|]. split; [reflexivity|].
  split; [vm_compute; discriminate | vm_compute; reflexivity].
Qed.

(** ** LoadWorkingTree *)

(** C7, amended: when the store holds under the version a snapshot with
    [Done = true], [Index = i], [StartLeafIndex = s], [LeafCount = c]
    (uint64 values), [LoadWorkingTree] opens the successor tree with uint64
    arithmetic.  When [i + 1] and [s + c] are still uint64 and [s + c >= 1]
    it returns no error and the engine holds the successor: [Index = i + 1],
    [StartLeafIndex = s + c], [LeafCount = 0], no last siblings,
    [Done = false].  When [s + c] is above [2^64] the successor starts at the
    wrapped index [s + c - 2^64].  When [i + 1 = 2^64], or [s + c] is [0] or
    [2^64], the index that would be passed is 0: [LoadWorkingTree] returns
    the invalid-index error of [InitializeWorkingTree] and the engine holds
    the [Done] snapshot itself, not a successor. *)
Theorem LoadWorkingTree_done {St : Type} {store : DB St} {codec : Codec}
    (m : Merkle St) (version : Z) (data : bytes) (snapshot : TreeInfo.t) :
  Get (db m) (PrefixedWorkingTreeKey version) = (data, None) ->
  UnmarshalTreeInfo data = (snapshot, None) ->
  TreeInfo.Done snapshot = true ->
  TreeInfo.wf snapshot ->
  let i := TreeInfo.Index snapshot in
  let s := TreeInfo.StartLeafIndex snapshot in
  let c := TreeInfo.LeafCount snapshot in
  (i + 1 < 2 ^ 64 -> 1 <= s + c < 2 ^ 64 ->
   LoadWorkingTree m version =
     (with_workingTree m (TreeInfo.mk (i + 1) (s + c) 0 ∅ false), None)) /\
  (i + 1 < 2 ^ 64 -> 2 ^ 64 < s + c ->
   LoadWorkingTree m version =
     (with_workingTree m (TreeInfo.mk (i + 1) (s + c - 2 ^ 64) 0 ∅ false), None)) /\
  (i + 1 = 2 ^ 64 \/ s + c = 0 \/ s + c = 2 ^ 64 ->
   LoadWorkingTree m version =
     (with_workingTree m snapshot, Some (ErrInvalidIndex (u64 (i + 1)) (u64 (s + c)))) /\
   (u64 (i + 1) = 0 \/ u64 (s + c) = 0)).
Proof.
  intros Hget Hdec Hdone (Hi & Hs & Hc) i s c. fold i in Hi. fold s in Hs. fold c in Hc.
  unfold is_u64 in Hi, Hs, Hc.
  assert (Hrun : LoadWorkingTree m version =
                 InitializeWorkingTree (with_workingTree m snapshot)
                   (u64 (i + 1)) (u64 (s + c))).
  { unfold LoadWorkingTree. now rewrite Hget, Hdec, Hdone. }
  rewrite Hrun. unfold InitializeWorkingTree.
  split; [|split].
  - intros Hi1 Hsc.
    rewrite (u64_id (i + 1)), (u64_id (s + c)) by (unfold is_u64; lia).
    assert (Hlt1 : (i + 1 <? 1) = false) by (apply Z.ltb_ge; lia).
    assert (Hlt2 : (s + c <? 1) = false) by (apply Z.ltb_ge; lia).
    rewrite Hlt1, Hlt2. reflexivity.
  - intros Hi1 Hsc.
    rewrite (u64_id (i + 1)) by (unfold is_u64; lia).
    assert (Hw : u64 (s + c) = s + c - 2 ^ 64).
    { unfold u64. symmetry. apply (Z.mod_unique_pos _ _ 1); lia. }
    rewrite Hw.
    assert (Hlt1 : (i + 1 <? 1) = false) by (apply Z.ltb_ge; lia).
    assert (Hlt2 : (s + c - 2 ^ 64 <? 1) = false) by (apply Z.ltb_ge; lia).
    rewrite Hlt1, Hlt2. reflexivity.
  - intros Hbad.
    assert (Hz : u64 (i + 1) = 0 \/ u64 (s + c) = 0).
    { destruct Hbad as [H|[H|H]].
      - left. rewrite H. reflexivity.
      - right. rewrite H. reflexivity.
      - right. rewrite H. reflexivity. }
    split; [|exact Hz].
    assert (Hor : (u64 (i + 1) <? 1) || (u64 (s + c) <? 1) = true).
    { apply orb_true_iff. destruct Hz as [H|H]; [left | right]; rewrite H; reflexivity. }
    rewrite Hor. reflexivity.
Qed.

Lemma LoadWorkingTree_done_witness :
  LoadWorkingTree (codec := Fixture.codec) (Fixture.restart Fixture.saved_done) 100 =
    (with_workingTree (Fixture.restart Fixture.saved_done) (TreeInfo.mk 2 2 0 ∅ false), None).
Proof.
  destruct (LoadWorkingTree_done (codec := Fixture.codec) (Fixture.restart Fixture.saved_done) 100
              (Get (db Fixture.saved_done) (PrefixedWorkingTreeKey 100)).1
              Fixture.done_snapshot) as (Hnext & _ & _).
  - vm_compute. reflexivity.
  - vm_compute. reflexivity.
  - vm_compute. reflexivity.
  - vm_compute. repeat split; discriminate.
  - apply Hnext.
    + vm_compute. reflexivity.
    + vm_compute. split; [discriminate | reflexivity].
Defined.

(** C7 as stated fails on the last tree index: the tree [2^64 - 1] is
    opened, gets one leaf, is finalized and saved, all without error; on a
    new engine over that store [LoadWorkingTree] returns the invalid-index
    error (the successor index wraps to 0) and the engine holds the [Done]
    snapshot with [Index = 2^64 - 1], not a successor tree. *)
Lemma LoadWorkingTree_done_counterexample :
  let opened := InitializeWorkingTree (Fixture.engine Fixture.pair_sum) (2 ^ 64 - 1) 1 in
  let filled := InsertLeaf opened.1 (Fixture.leaf Byte.x01) in
  let finalized :=
    FinalizeWorkingTree (codec := Fixture.codec) Fixture.EmptyRootHash filled.1 [] in
  let saved := SaveWorkingTree (codec := Fixture.codec) finalized.1 100 in
  let loaded := LoadWorkingTree (codec := Fixture.codec) (Fixture.restart saved.1) 100 in
  let snapshot :=
    TreeInfo.mk (2 ^ 64 - 1) 1 1
      (<[1 := Fixture.pair_sum (Fixture.leaf Byte.x01) (Fixture.leaf Byte.x01)]>
         (<[0 := Fixture.leaf Byte.x01]> ∅)) true in
  opened.2 = None /\ filled.2 = None /\ finalized.2.2 = None /\ saved.2 = None /\
  workingTree saved.1 = Some snapshot /\
  loaded.2 = Some (ErrInvalidIndex 0 2) /\
  workingTree loaded.1 = Some snapshot /\
  workingTree loaded.1 <> Some (TreeInfo.mk (2 ^ 64 - 1 + 1) (1 + 1) 0 ∅ false).
Proof.
  cbn zeta.
  split; [vm_compute; reflexivity|]. split; [vm_compute; reflexivity|].
  split; [vm_compute; reflexivity|]. split; [vm_compute; reflexivity|].
  split; [vm_compute; reflexivity|]. split; [vm_compute; reflexivity|].
  split; [vm_compute; reflexivity|]. vm_compute. discriminate.
Qed.

(** C10: when the record read by [LoadWorkingTree] does not deserialize,
    the engine holds the value [json.Unmarshal] left in its target when the
    error is returned: a working tree held before, if it differs from that
    value, is gone. *)
Theorem LoadWorkingTree_decode_error {St : Type} {store : DB St} {codec : Codec}
    (m : Merkle St) (version : Z) (data : bytes) (partial : TreeInfo.t) (e : error) :
  Get (db m) (PrefixedWorkingTreeKey version) = (data, None) ->
  UnmarshalTreeInfo data = (partial, Some e) ->
  LoadWorkingTree m version = (with_workingTree m partial, Some e) /\
  workingTree (LoadWorkingTree m version).1 = Some partial /\
  (workingTree m <> Some partial ->
   workingTree (LoadWorkingTree m version).1 <> workingTree m).
Proof.
  intros Hget Hdec.
  assert (Hrun : LoadWorkingTree m version = (with_workingTree m partial, Some e))
    by (unfold LoadWorkingTree; now rewrite Hget, Hdec).
  rewrite Hrun. split; [reflexivity|]. split; [reflexivity|].
  intros Hne Heq. apply Hne. now rewrite <- Heq.
Qed.

Lemma LoadWorkingTree_decode_error_witness :
  LoadWorkingTree (codec := Fixture.codec) Fixture.cut_snapshot 100 =
    (with_workingTree Fixture.cut_snapshot (TreeInfo.mk 1 0 0 ∅ false),
     Some Fixture.codec_error) /\
  workingTree (LoadWorkingTree (codec := Fixture.codec) Fixture.cut_snapshot 100).1
    = Some (TreeInfo.mk 1 0 0 ∅ false) /\
  workingTree (LoadWorkingTree (codec := Fixture.codec) Fixture.cut_snapshot 100).1
    <> workingTree Fixture.cut_snapshot.
Proof.
  destruct (LoadWorkingTree_decode_error (codec := Fixture.codec) Fixture.cut_snapshot 100
              (Get (db Fixture.cut_snapshot) (PrefixedWorkingTreeKey 100)).1
              (TreeInfo.mk 1 0 0 ∅ false) Fixture.codec_error)
    as (Hrun & Hwt & Hlost).
  - vm_compute. reflexivity.
  - vm_compute. reflexivity.
  - split; [exact Hrun|]. split; [exact Hwt|]. apply Hlost. vm_compute. discriminate.
Defined.

(** ** GetProofs *)

Section GetProofs_facts.
Context {St : Type} {store : DB St} {codec : Codec}.

(** A run of the loop of [GetProofs] that ends without an error appended
    one stored node per level from [h] up to the height of the tree. *)
Lemma GetProofs_loop_spec fuel :
  forall (m : Merkle St) ti h idx acc proofs,
    GetProofs_loop fuel m ti h idx acc = (proofs, None) ->
    0 <= h -> FinalizedTreeInfo.TreeHeight ti <= 255 ->
    exists new,
      proofs = acc ++ new /\
      Z.of_nat (length new) = Z.max 0 (FinalizedTreeInfo.TreeHeight ti - h) /\
      forall j : nat,
        Z.of_nat j < FinalizedTreeInfo.TreeHeight ti - h ->
        exists node,
          new !! j = Some node /\
          getNode m (FinalizedTreeInfo.TreeIndex ti) (h + Z.of_nat j)
            (Z.lxor (idx / 2 ^ Z.of_nat j) 1) = (node, None).
Proof.
  induction fuel as [|fuel IH]; intros m ti h idx acc proofs Hrun Hh Hmax;
    [discriminate|].
  cbn [GetProofs_loop] in Hrun.
  destruct (h <? FinalizedTreeInfo.TreeHeight ti) eqn:Hlt.
  - apply Z.ltb_lt in Hlt.
    destruct (getNode m (FinalizedTreeInfo.TreeIndex ti) h (Z.lxor idx 1))
      as [sibling [e|]] eqn:Hnode; [discriminate|].
    assert (Hu8 : u8 (h + 1) = h + 1) by (apply u8_id; unfold is_u8; lia).
    rewrite Hu8 in Hrun.
    destruct (IH m ti (h + 1) (idx / 2) (acc ++ [sibling]) proofs Hrun ltac:(lia) Hmax)
      as (new & Hproofs & Hlen & Hnodes).
    exists (sibling :: new). split; [now rewrite Hproofs, <- app_assoc|].
    split; [cbn [length]; lia|].
    intros [|j] Hj.
    + exists sibling. split; [reflexivity|].
      change (2 ^ Z.of_nat 0) with 1. rewrite Z.div_1_r, Z.add_0_r. exact Hnode.
    + destruct (Hnodes j ltac:(lia)) as (node & Hlook & Hget).
      exists node. split; [exact Hlook|].
      rewrite Nat2Z.inj_succ, Z.pow_succ_r by lia.
      rewrite <- Z.div_div by (try apply Z.pow_pos_nonneg; lia).
      replace (h + Z.succ (Z.of_nat j)) with (h + 1 + Z.of_nat j) by lia.
      exact Hget.
  - apply Z.ltb_ge in Hlt. injection Hrun as <-.
    exists []. split; [now rewrite app_nil_r|]. split; [cbn; lia|].
    intros j Hj. lia.
Qed.
End GetProofs_facts.

(** C4: [GetProofs] returns the error [ErrUnfinalizedTree] when the seek
    over the finalized-tree prefix finds no key, and when the record found
    has [leafIndex - StartLeafIndex >= LeafCount]; it returns the error
    "leaf is not found in tree" when the record found has
    [leafIndex < StartLeafIndex]; the proofs returned with each of them are
    [nil]. *)
Theorem GetProofs_errors {St : Type} {store : DB St} {codec : Codec}
    (m : Merkle St) (leafIndex : Z) :
  (forall k v,
     SeekPrevInclusiveKey (db m) FinalizedTreeKey (PrefixedFinalizedTreeKey leafIndex)
       = (k, v, Some ErrNotFound) ->
     GetProofs m leafIndex = ([], 0, [], [], Some ErrUnfinalizedTree)) /\
  (forall k v ti,
     SeekPrevInclusiveKey (db m) FinalizedTreeKey (PrefixedFinalizedTreeKey leafIndex)
       = (k, v, None) ->
     UnmarshalFinalizedTreeInfo v = (ti, None) ->
     is_u64 leafIndex -> FinalizedTreeInfo.wf ti ->
     (leafIndex - FinalizedTreeInfo.StartLeafIndex ti >= FinalizedTreeInfo.LeafCount ti ->
      GetProofs m leafIndex = ([], 0, [], [], Some ErrUnfinalizedTree)) /\
     (leafIndex < FinalizedTreeInfo.StartLeafIndex ti ->
      GetProofs m leafIndex =
        ([], 0, [], [], Some (ErrLeafNotInTree leafIndex (FinalizedTreeInfo.TreeIndex ti))))).
Proof.
  split.
  - intros k v Hseek. unfold GetProofs. rewrite Hseek.
    destruct (decide (ErrNotFound = ErrNotFound)); [reflexivity | contradiction].
  - intros k v ti Hseek Hdec Hleaf (_ & _ & Hs & Hc). split; intros Hcmp.
    + unfold GetProofs. rewrite Hseek, Hdec.
      destruct (leafIndex <? FinalizedTreeInfo.StartLeafIndex ti) eqn:Hlt;
        [apply Z.ltb_lt in Hlt; unfold is_u64 in *; lia|].
      rewrite u64_id by (unfold is_u64 in *; lia).
      destruct (leafIndex - FinalizedTreeInfo.StartLeafIndex ti
                  >=? FinalizedTreeInfo.LeafCount ti) eqn:Hge; [reflexivity|].
      rewrite Z.geb_leb in Hge. apply Z.leb_gt in Hge. lia.
    + unfold GetProofs. rewrite Hseek, Hdec.
      destruct (leafIndex <? FinalizedTreeInfo.StartLeafIndex ti) eqn:Hlt; [reflexivity|].
      apply Z.ltb_ge in Hlt. lia.
Qed.

Lemma GetProofs_errors_witness :
  GetProofs (codec := Fixture.codec) (Fixture.engine Fixture.pair_sum) 1
    = ([], 0, [], [], Some ErrUnfinalizedTree) /\
  GetProofs (codec := Fixture.codec) Fixture.finalized3 4
    = ([], 0, [], [], Some ErrUnfinalizedTree) /\
  GetProofs (codec := Fixture.codec) Fixture.misfiled 2
    = ([], 0, [], [], Some (ErrLeafNotInTree 2 1)).
Proof.
  split; [|split].
  - apply (proj1 (GetProofs_errors (codec := Fixture.codec) (Fixture.engine Fixture.pair_sum) 1)
             [] []).
    vm_compute. reflexivity.
  - refine (proj1 (proj2 (GetProofs_errors (codec := Fixture.codec) Fixture.finalized3 4)
              (PrefixedFinalizedTreeKey 1)
              (Fixture.marshal_finalized
                 (FinalizedTreeInfo.mk 1 2 (Fixture.leaf Byte.x0d) 1 3 [])).1
              (FinalizedTreeInfo.mk 1 2 (Fixture.leaf Byte.x0d) 1 3 []) _ _ _ _) _).
    + vm_compute. reflexivity.
    + vm_compute. reflexivity.
    + vm_compute. split; [discriminate | reflexivity].
    + vm_compute. repeat split; discriminate.
    + vm_compute. discriminate.
  - refine (proj2 (proj2 (GetProofs_errors (codec := Fixture.codec) Fixture.misfiled 2)
              (PrefixedFinalizedTreeKey 1)
              (Fixture.marshal_finalized
                 (FinalizedTreeInfo.mk 1 2 (Fixture.leaf Byte.x0d) 5 3 [])).1
              (FinalizedTreeInfo.mk 1 2 (Fixture.leaf Byte.x0d) 5 3 []) _ _ _ _) _).
    + vm_compute. reflexivity.
    + vm_compute. reflexivity.
    + vm_compute. split; [discriminate | reflexivity].
    + vm_compute. repeat split; discriminate.
    + vm_compute. reflexivity.
Defined.

(** C5: when [GetProofs] returns without an error on the finalized tree it
    located, the proof list has as many elements as the height of that tree,
    and its [h]-th element, from the leaf level up, is the node stored at
    (tree index, [h], [localIndex XOR 1]) for
    [localIndex = (leafIndex - StartLeafIndex) / 2^h]; the tree index, the
    root and the extra data are those of the record. *)
Theorem GetProofs_spec {St : Type} {store : DB St} {codec : Codec}
    (m : Merkle St) (leafIndex : Z) (k v : bytes) (ti : FinalizedTreeInfo.t)
    (proofs : list bytes) (treeIndex : Z) (rootData extraData : bytes) :
  SeekPrevInclusiveKey (db m) FinalizedTreeKey (PrefixedFinalizedTreeKey leafIndex)
    = (k, v, None) ->
  UnmarshalFinalizedTreeInfo v = (ti, None) ->
  is_u64 leafIndex -> FinalizedTreeInfo.wf ti ->
  GetProofs m leafIndex = (proofs, treeIndex, rootData, extraData, None) ->
  Z.of_nat (length proofs) = FinalizedTreeInfo.TreeHeight ti /\
  treeIndex = FinalizedTreeInfo.TreeIndex ti /\
  rootData = FinalizedTreeInfo.Root ti /\
  extraData = FinalizedTreeInfo.ExtraData ti /\
  forall h,
    0 <= h < FinalizedTreeInfo.TreeHeight ti ->
    exists node,
      proofs !! Z.to_nat h = Some node /\
      Get (db m)
        (PrefixedNodeKey (FinalizedTreeInfo.TreeIndex ti) h
           (Z.lxor ((leafIndex - FinalizedTreeInfo.StartLeafIndex ti) / 2 ^ h) 1))
        = (node, None).
Proof.
  intros Hseek Hdec Hleaf (_ & Hh & Hs & Hc) Hrun.
  unfold GetProofs in Hrun. rewrite Hseek, Hdec in Hrun.
  destruct (leafIndex <? FinalizedTreeInfo.StartLeafIndex ti) eqn:Hlt; [discriminate|].
  apply Z.ltb_ge in Hlt.
  rewrite u64_id in Hrun by (unfold is_u64 in *; lia).
  destruct (leafIndex - FinalizedTreeInfo.StartLeafIndex ti
              >=? FinalizedTreeInfo.LeafCount ti); [discriminate|].
  destruct (GetProofs_loop 256 m ti 0 (leafIndex - FinalizedTreeInfo.StartLeafIndex ti) [])
    as [ps [e|]] eqn:Hloop; [discriminate|].
  injection Hrun as <- <- <- <-.
  destruct (GetProofs_loop_spec 256 m ti 0 _ [] ps Hloop ltac:(lia)
              ltac:(unfold is_u8 in Hh; lia)) as (new & -> & Hlen & Hnodes).
  cbn [app]. rewrite Z.sub_0_r in Hlen, Hnodes.
  split; [unfold is_u8 in Hh; lia|]. repeat (split; [reflexivity|]).
  intros h Hhr. destruct (Hnodes (Z.to_nat h) ltac:(lia)) as (node & Hlook & Hget).
  exists node. split; [exact Hlook|].
  rewrite Z2Nat.id, Z.add_0_l in Hget by lia. exact Hget.
Qed.

Lemma GetProofs_spec_witness :
  let ti := FinalizedTreeInfo.mk 1 2 (Fixture.leaf Byte.x0d) 1 3 [] in
  let proofs := [Fixture.leaf Byte.x01; Fixture.leaf Byte.x0a] in
  Z.of_nat (length proofs) = FinalizedTreeInfo.TreeHeight ti /\
  1 = FinalizedTreeInfo.TreeIndex ti /\
  Fixture.leaf Byte.x0d = FinalizedTreeInfo.Root ti /\
  [] = FinalizedTreeInfo.ExtraData ti /\
  forall h,
    0 <= h < FinalizedTreeInfo.TreeHeight ti ->
    exists node,
      proofs !! Z.to_nat h = Some node /\
      Get (db Fixture.finalized3)
        (PrefixedNodeKey (FinalizedTreeInfo.TreeIndex ti) h
           (Z.lxor ((2 - FinalizedTreeInfo.StartLeafIndex ti) / 2 ^ h) 1))
        = (node, None).
Proof.
  apply (GetProofs_spec (codec := Fixture.codec) Fixture.finalized3 2
           (PrefixedFinalizedTreeKey 1)
           (Fixture.marshal_finalized
              (FinalizedTreeInfo.mk 1 2 (Fixture.leaf Byte.x0d) 1 3 [])).1
           (FinalizedTreeInfo.mk 1 2 (Fixture.leaf Byte.x0d) 1 3 [])
           [Fixture.leaf Byte.x01; Fixture.leaf Byte.x0a] 1 (Fixture.leaf Byte.x0d) []).
  - vm_compute. reflexivity.
  - vm_compute. reflexivity.
  - vm_compute. split; [discriminate | reflexivity].
  - vm_compute. repeat split; discriminate.
  - vm_compute. reflexivity.
Defined.

(** ** DeleteFutureFinalizedTrees and DeleteFutureWorkingTrees *)

Lemma has_prefix_length (p : bytes) :
  forall k : bytes, has_prefix p k -> (length p <= length k)%nat.
Proof.
  induction p as [|x p IH]; intros [|y k] H; cbn [has_prefix length] in *.
  - lia.
  - lia.
  - contradiction.
  - destruct (decide (x = y)); [|contradiction]. specialize (IH k H). lia.
Qed.

Lemma elem_of_mem_scan (pfx : bytes) (kv : gmap bytes bytes) (e : bytes * bytes) :
  e ∈ mem_scan pfx kv <-> kv !! e.1 = Some e.2 /\ has_prefix pfx e.1.
Proof.
  unfold mem_scan. rewrite merge_sort_Permutation, list_elem_of_filter.
  destruct e as [k v]. rewrite elem_of_map_to_list. cbn. tauto.
Qed.

(** The callback on the in-memory store: a key of 8 bytes or more is
    deleted when its trailing integer reaches the cutoff, and the scan goes
    on. *)
Lemma delete_from_mem (k : Z) (key value : bytes) (s : MemDB) :
  (8 <= length key)%nat ->
  delete_from k key value s =
    (if decide (k <= trailing key)
     then mkMemDB (mem_prefix s) (delete key (mem_kv s)) else s, (false, None)).
Proof.
  intros Hlen. unfold delete_from.
  destruct (length key <? 8)%nat eqn:E; [apply Nat.ltb_lt in E; lia|].
  fold (trailing key). rewrite Z.geb_leb.
  destruct (decide (k <= trailing key)) as [Hle|Hgt].
  - apply Z.leb_le in Hle. rewrite Hle. reflexivity.
  - assert (Hf : (k <=? trailing key) = false) by (apply Z.leb_gt; lia).
    rewrite Hf. reflexivity.
Qed.

Lemma mem_iterate_delete_from (k : Z) (l : list (bytes * bytes)) :
  forall s : MemDB,
    (forall e, e ∈ l -> (8 <= length e.1)%nat) ->
    exists kv',
      mem_iterate l s (delete_from k) = (mkMemDB (mem_prefix s) kv', None) /\
      forall x, kv' !! x =
                if decide (x ∈ l.*1 /\ k <= trailing x) then None else mem_kv s !! x.
Proof.
  induction l as [|[k0 v0] l IH]; intros s Hlen.
  - exists (mem_kv s). split; [now destruct s|].
    intros x. destruct (decide _) as [[Hin _]|]; [|reflexivity].
    now apply elem_of_nil in Hin.
  - cbn [mem_iterate].
    rewrite delete_from_mem by (apply (Hlen (k0, v0)); left).
    set (s1 := if decide (k <= trailing k0)
               then mkMemDB (mem_prefix s) (delete k0 (mem_kv s)) else s).
    assert (Hp : mem_prefix s1 = mem_prefix s) by (subst s1; now destruct (decide _)).
    destruct (IH s1) as (kv' & Hrun & Hlook).
    { intros e He. apply Hlen. now right. }
    exists kv'. rewrite Hrun, Hp. split; [reflexivity|].
    assert (Hs1 : forall x, mem_kv s1 !! x =
                            if decide (x = k0 /\ k <= trailing k0) then None
                            else mem_kv s !! x).
    { intros x. subst s1.
      destruct (decide (k <= trailing k0)) as [Hle|Hgt]; cbn [mem_kv].
      - destruct (decide (x = k0 /\ k <= trailing k0)) as [[-> _]|Hn].
        + apply lookup_delete_eq.
        + apply lookup_delete_ne. intros <-. apply Hn. split; [reflexivity | exact Hle].
      - destruct (decide (x = k0 /\ k <= trailing k0)) as [[_ Hle]|_];
          [contradiction | reflexivity]. }
    intros x. rewrite Hlook, Hs1, fmap_cons. cbn [fst].
    destruct (decide (x ∈ k0 :: l.*1 /\ k <= trailing x)) as [[Hin Hle]|Hn];
      destruct (decide (x ∈ l.*1 /\ k <= trailing x)) as [[Hin' Hle']|Hn'];
      try reflexivity.
    + destruct (decide (x = k0 /\ k <= trailing k0)) as [_|Hn0]; [reflexivity|].
      exfalso. apply elem_of_cons in Hin as [->|Hin].
      * apply Hn0. split; [reflexivity | exact Hle].
      * apply Hn'. split; assumption.
    + exfalso. apply Hn. split; [now right | exact Hle'].
    + destruct (decide (x = k0 /\ k <= trailing k0)) as [[-> Hle]|_]; [|reflexivity].
      exfalso. apply Hn. split; [left | exact Hle].
Qed.

Lemma mem_iterate_keep (k : Z) (l : list (bytes * bytes)) :
  forall s : MemDB,
    (forall e, e ∈ l -> (8 <= length e.1)%nat /\ trailing e.1 < k) ->
    mem_iterate l s (delete_from k) = (s, None).
Proof.
  induction l as [|[k0 v0] l IH]; intros s Hl; [reflexivity|].
  cbn [mem_iterate]. destruct (Hl (k0, v0) ltac:(left)) as [Hlen Hlt]. cbn [fst] in *.
  rewrite delete_from_mem by exact Hlen.
  destruct (decide (k <= trailing k0)); [lia|].
  apply IH. intros e He. apply Hl. now right.
Qed.

(** One scan removes the future entries of the prefix; a second scan with
    the same cutoff finds none and leaves the store as it is. *)
Lemma mem_delete_future (pfx : bytes) (k : Z) (s : MemDB) :
  (8 <= length pfx)%nat ->
  let s1 := mkMemDB (mem_prefix s) (filter (fun e => ~ future pfx k e) (mem_kv s)) in
  mem_PrefixedIterate s pfx [] (delete_from k) = (s1, None) /\
  mem_PrefixedIterate s1 pfx [] (delete_from k) = (s1, None).
Proof.
  intros Hpfx s1. unfold mem_PrefixedIterate.
  assert (Hlen : forall kv e, e ∈ mem_scan pfx kv -> (8 <= length e.1)%nat).
  { intros kv e He. apply elem_of_mem_scan in He as [_ Hp].
    apply has_prefix_length in Hp. lia. }
  split.
  - destruct (mem_iterate_delete_from k (mem_scan pfx (mem_kv s)) s (Hlen _))
      as (kv' & Hrun & Hlook).
    rewrite Hrun. subst s1. do 2 f_equal. apply map_eq. intros x.
    rewrite Hlook. apply option_eq. intros v.
    rewrite map_lookup_filter_Some. unfold future. cbn [fst].
    destruct (decide _) as [[Hin Hle]|Hn].
    + split; [discriminate|]. intros [Hx Hnf]. exfalso. apply Hnf.
      apply list_elem_of_fmap in Hin as ([x' v'] & -> & He).
      apply elem_of_mem_scan in He as [_ Hp]. split; assumption.
    + split; [|tauto]. intros Hx. split; [exact Hx|].
      intros [Hp Hle]. apply Hn. split; [|exact Hle].
      apply list_elem_of_fmap. exists (x, v). split; [reflexivity|].
      apply elem_of_mem_scan. split; assumption.
  - apply mem_iterate_keep. intros e He. split; [exact (Hlen _ e He)|].
    apply elem_of_mem_scan in He as [Hx Hp]. subst s1. cbn [mem_kv] in Hx.
    apply map_lookup_filter_Some in Hx as [_ Hnf].
    unfold future in Hnf. cbn [fst] in Hnf.
    destruct (Z_lt_le_dec (trailing e.1) k); [assumption|]. exfalso. apply Hnf. tauto.
Qed.

(** C9: on the in-memory store, [DeleteFutureFinalizedTrees k] and
    [DeleteFutureWorkingTrees k] return no error and remove exactly the keys
    of their prefix whose last 8 bytes, read as a big-endian integer, are
    [>= k]; called again with the same [k] on the result, each returns no
    error and leaves the store as it is. *)
Theorem DeleteFuture_idempotent (m : Merkle MemDB) (k : Z) :
  (let m1 := with_db m (mkMemDB (mem_prefix (db m))
                          (filter (fun e => ~ future FinalizedTreeKey k e) (mem_kv (db m)))) in
   DeleteFutureFinalizedTrees m k = (m1, None) /\
   DeleteFutureFinalizedTrees m1 k = (m1, None)) /\
  (let m1 := with_db m (mkMemDB (mem_prefix (db m))
                          (filter (fun e => ~ future WorkingTreeKey k e) (mem_kv (db m)))) in
   DeleteFutureWorkingTrees m k = (m1, None) /\
   DeleteFutureWorkingTrees m1 k = (m1, None)).
Proof.
  split; cbn zeta.
  - destruct (mem_delete_future FinalizedTreeKey k (db m) ltac:(cbn; lia)) as [H1 H2].
    unfold DeleteFutureFinalizedTrees. cbn [PrefixedIterate MemDB_DB].
    split.
    + now rewrite H1.
    + cbn [with_db db]. cbn zeta in H2. now rewrite H2.
  - destruct (mem_delete_future WorkingTreeKey k (db m) ltac:(cbn; lia)) as [H1 H2].
    unfold DeleteFutureWorkingTrees. cbn [PrefixedIterate MemDB_DB].
    split.
    + now rewrite H1.
    + cbn [with_db db]. cbn zeta in H2. now rewrite H2.
Qed.

(** A rollback on the store of the three finalized leaves: with cutoff 2 the
    record under start leaf index 1 stays and leaf 2 is still served; with
    cutoff 1 the record goes and leaf 2 is not finalized any more. *)
Example rollback_three_leaves :
  (GetProofs (codec := Fixture.codec)
     (DeleteFutureFinalizedTrees Fixture.finalized3 2).1 2).2 = None /\
  GetProofs (codec := Fixture.codec)
    (DeleteFutureFinalizedTrees Fixture.finalized3 1).1 2
    = ([], 0, [], [], Some ErrUnfinalizedTree).
Proof. split; vm_compute; reflexivity. Qed.

(** * The tree behind the engine *)

(** ** The Merkle tree over a list of leaves *)

Lemma cnt_0 n : cnt n 0 = n.
Proof. unfold cnt. cbn. apply Z.div_1_r. Qed.

Lemma cnt_S n h : cnt n (S h) = cnt n h / 2.
Proof.
  unfold cnt. rewrite Nat2Z.inj_succ, Z.pow_succ_r by lia.
  rewrite (Z.mul_comm 2). rewrite Z.div_div; [reflexivity | | lia].
  apply Z.pow_nonzero; lia.
Qed.

Lemma cnt_nonneg n h : 0 <= n -> 0 <= cnt n h.
Proof. intros. unfold cnt. apply Z.div_pos; [assumption|]. apply Z.pow_pos_nonneg; lia. Qed.

Lemma cnt_le n h : 0 <= n -> cnt n h <= n.
Proof.
  intros Hn. induction h as [|h IH]; [rewrite cnt_0; lia|].
  rewrite cnt_S. pose proof (cnt_nonneg n h Hn).
  pose proof (Z.div_mod (cnt n h) 2). pose proof (Z.mod_pos_bound (cnt n h) 2). lia.
Qed.

Lemma cnt_mono a b h : 0 <= a <= b -> cnt a h <= cnt b h.
Proof. intros. unfold cnt. apply Z.div_le_mono; [apply Z.pow_pos_nonneg; lia | lia]. Qed.

Lemma cnt_eq_above a b k h : cnt a k = cnt b k -> (k <= h)%nat -> cnt a h = cnt b h.
Proof.
  intros Heq Hle. induction Hle as [|h Hle IH]; [exact Heq|].
  now rewrite !cnt_S, IH.
Qed.

Lemma cnt_succ_le n h : 0 <= n -> cnt n h <= cnt (n + 1) h <= cnt n h + 1.
Proof.
  intros Hn. induction h as [|h IH]; [rewrite !cnt_0; lia|].
  rewrite !cnt_S.
  pose proof (Z.div_mod (cnt n h) 2). pose proof (Z.mod_pos_bound (cnt n h) 2).
  pose proof (Z.div_mod (cnt (n + 1) h) 2). pose proof (Z.mod_pos_bound (cnt (n + 1) h) 2).
  lia.
Qed.

Lemma cnt_high n h : 0 <= n < 2 ^ Z.of_nat h -> cnt n h = 0.
Proof. intros. unfold cnt. now apply Z.div_small. Qed.

Lemma cnt_pow2 H h : (h <= H)%nat -> cnt (2 ^ Z.of_nat H) h = 2 ^ (Z.of_nat H - Z.of_nat h).
Proof.
  intros Hle. unfold cnt. rewrite Z.pow_sub_r by lia. reflexivity.
Qed.

(** A node below the count of its level depends only on the leaves that
    are there. *)
Lemma merkle_node_app fn ls extra h :
  forall i, 0 <= i < cnt (Z.of_nat (length ls)) h ->
            merkle_node fn (ls ++ extra) h i = merkle_node fn ls h i.
Proof.
  induction h as [|h IH]; intros i Hi.
  - rewrite cnt_0 in Hi. cbn. apply app_nth1. lia.
  - rewrite cnt_S in Hi. cbn [merkle_node].
    pose proof (Z.div_mod (cnt (Z.of_nat (length ls)) h) 2).
    pose proof (Z.mod_pos_bound (cnt (Z.of_nat (length ls)) h) 2).
    rewrite !IH by lia. reflexivity.
Qed.

Lemma lxor_1 x : 0 <= x -> Z.lxor x 1 = if Z.even x then x + 1 else x - 1.
Proof.
  destruct x as [|[p|p|]|]; intros Hx; try lia; try reflexivity.
Qed.

(** With a commutative pairing, a parent is the pairing of either child
    with its sibling. *)
Lemma merkle_node_parent fn ls h x :
  (forall a b, fn a b = fn b a) -> 0 <= x ->
  merkle_node fn ls (S h) (x / 2) =
    fn (merkle_node fn ls h x) (merkle_node fn ls h (Z.lxor x 1)).
Proof.
  intros Hcomm Hx. cbn [merkle_node]. rewrite lxor_1 by assumption.
  pose proof (Z.div_mod x 2). pose proof (Z.mod_pos_bound x 2).
  destruct (Z.even x) eqn:E.
  - apply Zeven_bool_iff in E. apply Zeven_ex_iff in E as [q ->].
    assert (Hq : 2 * q / 2 = q) by (rewrite (Z.mul_comm 2 q); apply Z.div_mul; lia).
    rewrite Hq. reflexivity.
  - assert (Hodd : Z.odd x = true) by (rewrite <- Z.negb_even, E; reflexivity).
    apply Zodd_bool_iff in Hodd. apply Zodd_ex_iff in Hodd as [q ->].
    assert (Hq : (2 * q + 1) / 2 = q).
    { rewrite (Z.mul_comm 2 q), Z.div_add_l by lia. rewrite Z.div_small by lia. lia. }
    rewrite Hq. replace (2 * q + 1 - 1) with (2 * q) by lia. apply Hcomm.
Qed.

Lemma length_be_bytes n : forall x, length (be_bytes n x) = n.
Proof.
  induction n as [|n IH]; intros x; [reflexivity|].
  cbn [be_bytes]. rewrite length_app, IH. cbn. lia.
Qed.

Lemma byte_of_inj r r' :
  0 <= r < 256 -> 0 <= r' < 256 ->
  default Byte.x00 (Byte.of_N (Z.to_N r)) = default Byte.x00 (Byte.of_N (Z.to_N r')) ->
  r = r'.
Proof.
  intros Hr Hr' Heq.
  destruct (Byte.of_N (Z.to_N r)) as [b|] eqn:E.
  2:{ apply Byte.of_N_None_iff in E. lia. }
  destruct (Byte.of_N (Z.to_N r')) as [b'|] eqn:E'.
  2:{ apply Byte.of_N_None_iff in E'. lia. }
  cbn in Heq. subst b'. apply Byte.to_of_N in E, E'. lia.
Qed.

Lemma be_bytes_inj n :
  forall x y, 0 <= x < 256 ^ Z.of_nat n -> 0 <= y < 256 ^ Z.of_nat n ->
              be_bytes n x = be_bytes n y -> x = y.
Proof.
  induction n as [|n IH]; intros x y Hx Hy Heq.
  - change (256 ^ Z.of_nat 0) with 1 in *. lia.
  - cbn [be_bytes] in Heq. apply app_inj_tail in Heq as [Hhi Hlo].
    rewrite Nat2Z.inj_succ, Z.pow_succ_r in Hx, Hy by lia.
    pose proof (Z.div_mod x 256 ltac:(lia)). pose proof (Z.mod_pos_bound x 256 ltac:(lia)).
    pose proof (Z.div_mod y 256 ltac:(lia)). pose proof (Z.mod_pos_bound y 256 ltac:(lia)).
    apply byte_of_inj in Hlo; [|lia|lia].
    apply IH in Hhi; [lia| |].
    + split; [apply Z.div_pos; lia | apply Z.div_lt_upper_bound; lia].
    + split; [apply Z.div_pos; lia | apply Z.div_lt_upper_bound; lia].
Qed.

(** Two nodes of one tree have the same key only if they are the same
    node. *)
Lemma PrefixedNodeKey_inj T h i h' i' :
  is_u8 h -> is_u8 h' -> is_u64 i -> is_u64 i' ->
  PrefixedNodeKey T h i = PrefixedNodeKey T h' i' -> h = h' /\ i = i'.
Proof.
  unfold is_u8, is_u64, PrefixedNodeKey, FromUint64Key. intros Hh Hh' Hi Hi' Heq.
  apply app_inv_head in Heq. apply app_inv_head in Heq.
  apply app_inj_1 in Heq as [H1 H2]; [|now rewrite !length_be_bytes].
  split.
  - apply (be_bytes_inj 1); [change (256 ^ Z.of_nat 1) with (2 ^ 8); lia ..| exact H1].
  - apply (be_bytes_inj 8); [change (256 ^ Z.of_nat 8) with (2 ^ 64); lia ..| exact H2].
Qed.

Lemma MemDB_lawful : lawful_store (St := MemDB).
Proof.
  intros s s' k v Hset. cbn in Hset. unfold mem_Set in Hset. injection Hset as <-.
  split.
  - cbn. unfold mem_Get. cbn. now rewrite lookup_insert_eq.
  - intros k' Hne. cbn. unfold mem_Get. cbn. now rewrite lookup_insert_ne.
Qed.

Section Merkle_loop.
Context {St : Type} {store : DB St}.
Variables (fn : NodeGeneratorFn) (T : Z) (ls : list bytes) (d : bytes) (n : Z).
Hypothesis Hn : n = Z.of_nat (length ls).
Hypothesis Hn64 : n < 2 ^ 64.

Lemma InsertLeaf_loop_merkle fuel :
  forall (m : Merkle St) t (k : nat) idx data m',
    workingTree m = Some t -> nodeGeneratorFn m = fn -> TreeInfo.Index t = T ->
    idx = cnt n k -> cnt (n + 1) k = idx + 1 ->
    data = merkle_node fn (ls ++ [d]) k idx ->
    Z.of_nat k + Z.of_nat fuel <= 255 ->
    (forall h, (k <= h)%nat -> 1 <= cnt n h ->
       TreeInfo.LastSiblings t !! Z.of_nat h = Some (merkle_node fn ls h (cnt n h - 1))) ->
    InsertLeaf_loop fuel m (Z.of_nat k) idx data = (m', None) ->
    exists L',
      workingTree m' = Some (set_LastSiblings t L') /\
      (forall h, (h < k)%nat -> L' !! Z.of_nat h = TreeInfo.LastSiblings t !! Z.of_nat h) /\
      (forall h, (k <= h)%nat -> 1 <= cnt (n + 1) h ->
         L' !! Z.of_nat h = Some (merkle_node fn (ls ++ [d]) h (cnt (n + 1) h - 1))) /\
      (lawful_store (St := St) ->
       (forall key : bytes,
          (forall h, (k <= h)%nat -> Z.of_nat h < Z.of_nat k + Z.of_nat fuel ->
             key <> PrefixedNodeKey T (Z.of_nat h) (cnt n h)) ->
          Get (db m') key = Get (db m) key) /\
       (forall h, (k <= h)%nat -> cnt (n + 1) h = cnt n h + 1 ->
          Get (db m') (PrefixedNodeKey T (Z.of_nat h) (cnt n h))
            = (merkle_node fn (ls ++ [d]) h (cnt n h), None))).
Proof.
  assert (Hn0 : 0 <= n) by lia.
  induction fuel as [|fuel IH];
    intros m t k idx data m' Hwt Hfn HT Hidx Hnext Hdata Hfuel HLS Hrun; [discriminate|].
  cbn [InsertLeaf_loop] in Hrun. rewrite (saveNode_tree m t _ idx data Hwt) in Hrun.
  rewrite HT in Hrun.
  destruct (Set_ (db m) (PrefixedNodeKey T (Z.of_nat k) idx) data) as [dd [e|]] eqn:Hset;
    cbn [fst snd] in Hrun; [discriminate|].
  cbn [with_db workingTree] in Hrun. rewrite Hwt in Hrun.
  pose proof (cnt_nonneg n k Hn0) as Hidx0. rewrite <- Hidx in Hidx0.
  pose proof (Z.div_mod idx 2 ltac:(lia)) as Hdm.
  pose proof (Z.mod_pos_bound idx 2 ltac:(lia)) as Hmb.
  destruct (idx mod 2 =? 0) eqn:Hpar.
  - (* even: the loop ends here *)
    apply Z.eqb_eq in Hpar. injection Hrun as <-.
    assert (Habove : forall h, (S k <= h)%nat -> cnt (n + 1) h = cnt n h).
    { intros h Hh. apply (cnt_eq_above _ _ (S k)); [|exact Hh].
      rewrite !cnt_S, Hnext, <- Hidx.
      pose proof (Z.div_mod (idx + 1) 2 ltac:(lia)).
      pose proof (Z.mod_pos_bound (idx + 1) 2 ltac:(lia)). lia. }
    exists (<[Z.of_nat k := data]> (TreeInfo.LastSiblings t)).
    split; [reflexivity|]. split; [|split].
    + intros h Hh. apply lookup_insert_ne. lia.
    + intros h Hh Hc. destruct (decide (h = k)) as [->|Hne].
      * rewrite lookup_insert_eq, Hnext, Hdata. do 2 f_equal. lia.
      * rewrite lookup_insert_ne by lia.
        rewrite Habove in * by lia.
        rewrite (HLS h Hh Hc). f_equal. symmetry.
        apply merkle_node_app. rewrite <- Hn. lia.
    + intros Hlaw. destruct (Hlaw _ _ _ _ Hset) as [Hget Hother].
      cbn [with_workingTree with_db db]. split.
      * intros key Hkey. apply Hother. rewrite Hidx. apply Hkey; lia.
      * intros h Hh Hc. destruct (decide (h = k)) as [->|Hne].
        -- rewrite <- Hidx, Hget, Hdata. reflexivity.
        -- rewrite Habove in Hc by lia. lia.
  - (* odd: pair with the last sibling and go up *)
    apply Z.eqb_neq in Hpar.
    assert (Hu8 : u8 (Z.of_nat k + 1) = Z.of_nat (S k))
      by (rewrite u8_id; [lia | unfold is_u8; lia]).
    rewrite Hu8 in Hrun. cbn [with_workingTree with_db nodeGeneratorFn] in Hrun.
    rewrite Hfn in Hrun.
    set (L1 := <[Z.of_nat k := data]> (TreeInfo.LastSiblings t)) in *.
    assert (Hsib : map_get (TreeInfo.LastSiblings t) (Z.of_nat k)
                   = merkle_node fn (ls ++ [d]) k (idx - 1)).
    { unfold map_get. rewrite (HLS k ltac:(lia)) by lia. cbn [default].
      rewrite <- Hidx. symmetry. apply merkle_node_app.
      rewrite <- Hn, <- Hidx. lia. }
    rewrite Hsib in Hrun.
    match type of Hrun with
    | InsertLeaf_loop _ ?m2 _ _ ?data2 = _ =>
      destruct (IH m2 (set_LastSiblings t L1) (S k) (idx / 2) data2 m'
                  eq_refl Hfn HT) as (L' & Hwt' & Hlow & Hhigh & Hstore)
    end.
    + rewrite cnt_S, <- Hidx. reflexivity.
    + rewrite cnt_S, Hnext.
      pose proof (Z.div_mod (idx + 1) 2 ltac:(lia)).
      pose proof (Z.mod_pos_bound (idx + 1) 2 ltac:(lia)). lia.
    + rewrite Hdata. cbn [merkle_node]. f_equal; f_equal; lia.
    + lia.
    + intros h Hh Hc. cbn [set_LastSiblings TreeInfo.LastSiblings]. subst L1.
      rewrite lookup_insert_ne by lia. apply HLS; [lia | exact Hc].
    + exact Hrun.
    + exists L'. split; [exact Hwt'|].
      cbn [set_LastSiblings TreeInfo.LastSiblings] in Hlow.
      split; [|split].
      * intros h Hh. rewrite Hlow by lia. subst L1. apply lookup_insert_ne. lia.
      * intros h Hh Hc. destruct (decide (h = k)) as [->|Hne].
        -- rewrite Hlow by lia. subst L1. rewrite lookup_insert_eq, Hnext, Hdata.
           do 2 f_equal. lia.
        -- apply Hhigh; [lia | exact Hc].
      * intros Hlaw. destruct (Hlaw _ _ _ _ Hset) as [Hget Hother].
        destruct (Hstore Hlaw) as [Hframe Hwritten].
        cbn [with_workingTree with_db db] in Hframe. split.
        -- intros key Hkey. rewrite Hframe.
           ++ apply Hother. rewrite Hidx. apply Hkey; lia.
           ++ intros h Hh Hlt. apply Hkey; lia.
        -- intros h Hh Hc. destruct (decide (h = k)) as [->|Hne].
           ++ rewrite Hframe.
              ** rewrite <- Hidx, Hget, Hdata. reflexivity.
              ** intros h Hh' Hlt Heq.
                 apply PrefixedNodeKey_inj in Heq as [Hk _]; [lia | | | |].
                 --- unfold is_u8. lia.
                 --- unfold is_u8. lia.
                 --- pose proof (cnt_le n k Hn0). pose proof (cnt_nonneg n k Hn0).
                     unfold is_u64. lia.
                 --- pose proof (cnt_le n h Hn0). pose proof (cnt_nonneg n h Hn0).
                     unfold is_u64. lia.
           ++ apply Hwritten; [lia | exact Hc].
Qed.
End Merkle_loop.

Lemma cnt_pos_level a h : 0 <= a <= 2 ^ 64 -> 1 <= cnt a h -> (h <= 64)%nat.
Proof.
  intros Ha Hc. destruct (le_lt_dec h 64) as [|Hgt]; [assumption|].
  rewrite cnt_high in Hc; [lia|].
  split; [lia|]. assert (2 ^ 65 <= 2 ^ Z.of_nat h) by (apply Z.pow_le_mono_r; lia). lia.
Qed.

Section InsertLeaf_merkle.
Context {St : Type} {store : DB St}.

Lemma InsertLeaf_merkle (m : Merkle St) T s done ls d m' :
  tree_at m T s done ls -> Z.of_nat (length ls) + 1 < 2 ^ 64 ->
  InsertLeaf m d = (m', None) ->
  tree_at m' T s done (ls ++ [d]) /\
  nodeGeneratorFn m' = nodeGeneratorFn m /\
  (lawful_store (St := St) ->
   same_but_nodes T (db m) (db m') /\
   (nodes_of (nodeGeneratorFn m) (db m) T ls ->
    nodes_of (nodeGeneratorFn m) (db m') T (ls ++ [d]))).
Proof.
  intros (t & Hwt & HT & Hs & Hdone & Hc & HL) Hmax Hrun.
  set (n := Z.of_nat (length ls)) in *.
  assert (Hlen : Z.of_nat (length (ls ++ [d])) = n + 1)
    by (rewrite length_app; cbn; lia).
  unfold InsertLeaf in Hrun. rewrite Hwt, Hc in Hrun.
  destruct (InsertLeaf_loop 65 m 0 n d) as [m1 [e|]] eqn:Hloop; [discriminate|].
  destruct (InsertLeaf_loop_merkle (nodeGeneratorFn m) T ls d n eq_refl ltac:(lia)
              65 m t 0%nat n d m1 Hwt eq_refl HT) as (L' & Hwt1 & _ & Hhigh & Hstore).
  - now rewrite cnt_0.
  - now rewrite cnt_0.
  - cbn [merkle_node]. subst n. rewrite Nat2Z.id. symmetry. apply nth_middle.
  - lia.
  - intros h _ Hh. apply HL. exact Hh.
  - exact Hloop.
  - rewrite Hwt1 in Hrun. injection Hrun as <-.
    assert (Hfn1 : nodeGeneratorFn m1 = nodeGeneratorFn m).
    { destruct (InsertLeaf_loop_tree _ _ _ _ _ _ _ _ Hwt Hloop) as (? & _ & Hfn & _).
      exact Hfn. }
    split; [|split].
    + eexists. split; [reflexivity|].
      cbn [set_LeafCount set_LastSiblings TreeInfo.Index TreeInfo.StartLeafIndex
           TreeInfo.Done TreeInfo.LeafCount TreeInfo.LastSiblings with_workingTree
           nodeGeneratorFn].
      repeat (split; [assumption|]). split.
      * rewrite Hlen, Hc. apply u64_id. unfold is_u64. lia.
      * rewrite Hfn1. intros h Hh. rewrite Hlen in Hh |- *. apply Hhigh; [lia | exact Hh].
    + exact Hfn1.
    + intros Hlaw. destruct (Hstore Hlaw) as [Hframe Hwritten].
      cbn [with_workingTree db]. split.
      * intros key Hkey. apply Hframe. intros h _ _. apply Hkey.
      * intros Hold h i Hi. rewrite Hlen in Hi.
        pose proof (cnt_succ_le n h ltac:(lia)) as Hsl.
        assert (Hh64 : (h <= 64)%nat) by (apply (cnt_pos_level (n + 1)); lia).
        destruct (Z_lt_le_dec i (cnt n h)) as [Hlt|Hge].
        -- rewrite Hframe.
           ++ rewrite (Hold h i) by (fold n; lia).
              rewrite merkle_node_app by (fold n; lia). reflexivity.
           ++ intros h' _ Hh' Heq.
              apply PrefixedNodeKey_inj in Heq as [Hk Hi'].
              ** apply Nat2Z.inj in Hk. subst h'. lia.
              ** unfold is_u8. lia.
              ** unfold is_u8. lia.
              ** pose proof (cnt_le n h ltac:(lia)). unfold is_u64. lia.
              ** pose proof (cnt_le n h' ltac:(lia)). pose proof (cnt_nonneg n h' ltac:(lia)).
                 unfold is_u64. lia.
        -- assert (i = cnt n h) as -> by lia.
           apply Hwritten; [lia | lia].
Qed.
End InsertLeaf_merkle.

Section Grown_facts.
Context {St : Type} {store : DB St}.

Lemma grown_merkle T s (m : Merkle St) ls :
  grown T s m ls -> Z.of_nat (length ls) < 2 ^ 64 ->
  tree_at m T s false ls /\
  (lawful_store (St := St) -> nodes_of (nodeGeneratorFn m) (db m) T ls).
Proof.
  induction 1 as [m m' Hinit | m ls d m' Hg IH Hins]; intros Hlen.
  - unfold InitializeWorkingTree in Hinit.
    destruct ((T <? 1) || (s <? 1)); [discriminate|]. injection Hinit as <-.
    split.
    + eexists. split; [reflexivity|]. cbn. repeat (split; [reflexivity|]).
      intros h Hh. cbn in Hh. unfold cnt in Hh. rewrite Z.div_0_l in Hh; [lia|].
      apply Z.pow_nonzero; lia.
    + intros _ h i Hi. cbn in Hi. unfold cnt in Hi. rewrite Z.div_0_l in Hi; [lia|].
      apply Z.pow_nonzero; lia.
  - rewrite length_app in Hlen. cbn [length] in Hlen.
    destruct (IH ltac:(lia)) as [Htree Hnodes].
    destruct (InsertLeaf_merkle m T s false ls d m' Htree ltac:(lia) Hins)
      as (Htree' & Hfn & Hstore).
    split; [exact Htree'|]. intros Hlaw. rewrite Hfn.
    apply (Hstore Hlaw). now apply Hnodes.
Qed.

(** The padding loop keeps the tree, over the leaves with the copies
    added. *)
Lemma fillLeaves_loop_merkle j :
  forall (m : Merkle St) T s done ls leaf m',
    tree_at m T s done ls -> Z.of_nat (length ls) + Z.of_nat j < 2 ^ 64 ->
    fillLeaves_loop j m leaf = (m', None) ->
    tree_at m' T s done (ls ++ repeat leaf j) /\
    nodeGeneratorFn m' = nodeGeneratorFn m /\
    (lawful_store (St := St) ->
     same_but_nodes T (db m) (db m') /\
     (nodes_of (nodeGeneratorFn m) (db m) T ls ->
      nodes_of (nodeGeneratorFn m) (db m') T (ls ++ repeat leaf j))).
Proof.
  induction j as [|j IH]; intros m T s done ls leaf m' Htree Hmax Hrun.
  - cbn in Hrun. injection Hrun as <-. cbn [repeat]. rewrite app_nil_r.
    split; [exact Htree|]. split; [reflexivity|].
    intros _. split; [intros key _; reflexivity | auto].
  - cbn [fillLeaves_loop] in Hrun.
    destruct (InsertLeaf m leaf) as [m1 [e|]] eqn:Hins; [discriminate|].
    destruct (InsertLeaf_merkle m T s done ls leaf m1 Htree ltac:(lia) Hins)
      as (Htree1 & Hfn1 & Hstore1).
    assert (Hlen1 : Z.of_nat (length (ls ++ [leaf])) = Z.of_nat (length ls) + 1)
      by (rewrite length_app; cbn; lia).
    destruct (IH m1 T s done (ls ++ [leaf]) leaf m' Htree1 ltac:(lia) Hrun)
      as (Htree' & Hfn' & Hstore').
    replace (ls ++ repeat leaf (S j)) with ((ls ++ [leaf]) ++ repeat leaf j)
      by (now rewrite <- app_assoc).
    split; [exact Htree'|]. split; [congruence|].
    intros Hlaw. destruct (Hstore1 Hlaw) as [Hf1 Hn1]. destruct (Hstore' Hlaw) as [Hf' Hn'].
    split.
    + intros key Hkey. rewrite (Hf' key Hkey). apply Hf1. exact Hkey.
    + intros Hold. rewrite <- Hfn1. apply Hn'. rewrite Hfn1. now apply Hn1.
Qed.
End Grown_facts.

Lemma nth_last_leaf (ls : list bytes) :
  ls <> [] -> nth (length ls - 1) ls [] = List.last ls [].
Proof.
  intros Hne. destruct (exists_last Hne) as (l & a & ->).
  rewrite length_app. cbn [length]. replace (length l + 1 - 1)%nat with (length l) by lia.
  rewrite nth_middle. symmetry. apply last_last.
Qed.

Lemma height_of_le_63 c : 1 <= c <= 2 ^ 63 -> 0 <= height_of c <= 63.
Proof.
  intros Hc. unfold height_of. destruct (c <=? 1) eqn:E; [lia|].
  apply Z.leb_gt in E. rewrite Len64_log2 by lia.
  pose proof (Z.log2_nonneg (c - 1)).
  assert (Z.log2 (c - 1) < 63) by (apply Z.log2_lt_pow2; lia). lia.
Qed.

Lemma length_padded (ls : list bytes) :
  1 <= Z.of_nat (length ls) ->
  Z.of_nat (length (padded ls)) = 2 ^ height_of (Z.of_nat (length ls)).
Proof.
  intros H1. unfold padded. cbn zeta. rewrite length_app, repeat_length.
  pose proof (height_of_pow2 _ H1). lia.
Qed.

Section Finalize_merkle.
Context {St : Type} {store : DB St} {codec : Codec}.
Variable EmptyRootHash : bytes.

Lemma tree_at_last_leaf (m : Merkle St) T s done ls t :
  tree_at m T s done ls -> workingTree m = Some t -> 1 <= Z.of_nat (length ls) ->
  map_get (TreeInfo.LastSiblings t) 0 = List.last ls [].
Proof.
  intros (t' & Hwt' & _ & _ & _ & _ & HL) Hwt H1.
  rewrite Hwt in Hwt'. injection Hwt' as <-.
  unfold map_get. specialize (HL 0%nat). rewrite cnt_0 in HL.
  change (Z.of_nat 0) with 0 in HL. rewrite (HL H1). cbn [default merkle_node].
  rewrite <- nth_last_leaf by (destruct ls; [cbn in H1; lia | discriminate]).
  unfold id. f_equal. lia.
Qed.

(** [fillLeaves] on a tree that holds [ls]: the count stays, the frontier
    and the stored nodes are those of the padded leaves. *)
Lemma fillLeaves_merkle (m : Merkle St) T s done ls m1 :
  tree_at m T s done ls -> 1 <= Z.of_nat (length ls) <= 2 ^ 63 ->
  fillLeaves m = (m1, None) ->
  (exists t1,
     workingTree m1 = Some t1 /\
     TreeInfo.Index t1 = T /\ TreeInfo.StartLeafIndex t1 = s /\ TreeInfo.Done t1 = done /\
     TreeInfo.LeafCount t1 = Z.of_nat (length ls) /\
     frontier_of (nodeGeneratorFn m) (TreeInfo.LastSiblings t1) (padded ls)) /\
  nodeGeneratorFn m1 = nodeGeneratorFn m /\
  (lawful_store (St := St) ->
   same_but_nodes T (db m) (db m1) /\
   (nodes_of (nodeGeneratorFn m) (db m) T ls ->
    nodes_of (nodeGeneratorFn m) (db m1) T (padded ls))).
Proof.
  intros Htree Hn Hrun. pose proof Htree as (t & Hwt & HT & Hs & Hdone & Hc & HL).
  set (n := Z.of_nat (length ls)) in *.
  assert (Hndef : n = Z.of_nat (length ls)) by reflexivity.
  assert (Hu : is_u64 n) by (unfold is_u64; lia).
  pose proof (height_of_le_63 n Hn) as HH.
  pose proof (height_of_pow2 n ltac:(lia)) as Hle.
  assert (Hpow : 2 ^ height_of n <= 2 ^ 63) by (apply Z.pow_le_mono_r; lia).
  unfold fillLeaves in Hrun. rewrite Hwt in Hrun.
  rewrite (Height_Some m t Hwt) in Hrun by (rewrite Hc; exact Hu).
  rewrite Hc in Hrun. rewrite (numRestLeaves_eq n Hu ltac:(lia)) in Hrun.
  rewrite (tree_at_last_leaf m T s done ls t Htree Hwt ltac:(lia)) in Hrun.
  unfold padded. cbn zeta. fold n.
  destruct (2 ^ height_of n - n =? 0) eqn:Hz.
  - apply Z.eqb_eq in Hz. injection Hrun as <-.
    replace (2 ^ height_of n - n) with 0 by lia. cbn [Z.to_nat repeat].
    rewrite app_nil_r. split.
    + exists t. repeat (split; [assumption|]). exact HL.
    + split; [reflexivity|]. intros _. split; [intros key _; reflexivity | auto].
  - destruct (fillLeaves_loop (Z.to_nat (2 ^ height_of n - n)) m (List.last ls []))
      as [mp [e|]] eqn:Hloop; [discriminate|].
    assert (Hsum : Z.of_nat (length ls) + Z.of_nat (Z.to_nat (2 ^ height_of n - n)) < 2 ^ 64)
      by lia.
    destruct (fillLeaves_loop_merkle _ m T s done ls _ mp Htree Hsum Hloop)
      as (Htp & Hfnp & Hstorep).
    destruct Htp as (tp & Hwtp & HTp & Hsp & Hdonep & Hcp & HLp).
    rewrite Hwtp in Hrun. injection Hrun as <-.
    rewrite length_app, repeat_length in Hcp.
    split.
    + eexists. split; [reflexivity|].
      cbn [set_LeafCount TreeInfo.Index TreeInfo.StartLeafIndex TreeInfo.Done
           TreeInfo.LeafCount TreeInfo.LastSiblings].
      repeat (split; [assumption|]). split.
      * rewrite Hcp. fold n. apply Z.eqb_neq in Hz.
        replace (Z.of_nat (length ls + Z.to_nat (2 ^ height_of n - n))
                 - (2 ^ height_of n - n)) with n by (fold n; lia).
        now apply u64_id.
      * rewrite <- Hfnp. exact HLp.
    + split; [exact Hfnp|]. exact Hstorep.
Qed.

(** [FinalizeWorkingTree] on a tree that holds [ls]: the root is the top
    node of the tree over the padded leaves, the record of the batch holds
    that root, and the store holds the nodes of that tree. *)
Lemma FinalizeWorkingTree_merkle (m : Merkle St) T s done ls extraData mf kvs root :
  tree_at m T s done ls -> 1 <= Z.of_nat (length ls) <= 2 ^ 63 ->
  FinalizeWorkingTree EmptyRootHash m extraData = (mf, (kvs, root, None)) ->
  let n := Z.of_nat (length ls) in
  let H := height_of n in
  root = merkle_node (nodeGeneratorFn m) (padded ls) (Z.to_nat H) 0 /\
  nodeGeneratorFn mf = nodeGeneratorFn m /\
  (exists data,
     kvs = [ {| Key := PrefixedKey (db mf) (PrefixedFinalizedTreeKey s); Value := data |} ] /\
     MarshalFinalizedTreeInfo (FinalizedTreeInfo.mk T H root s n extraData) = (data, None)) /\
  (lawful_store (St := St) ->
   same_but_nodes T (db m) (db mf) /\
   (nodes_of (nodeGeneratorFn m) (db m) T ls ->
    nodes_of (nodeGeneratorFn m) (db mf) T (padded ls))).
Proof.
  intros Htree Hn Hrun n H. pose proof Htree as (t & Hwt & HT & Hs & Hdone & Hc & HL).
  fold n in Hc.
  assert (Hu : is_u64 n) by (subst n; unfold is_u64; lia).
  pose proof (height_of_le_63 n Hn) as HH. fold H in HH.
  unfold FinalizeWorkingTree in Hrun. rewrite Hwt in Hrun.
  assert (Hnz : (TreeInfo.LeafCount t =? 0) = false) by (apply Z.eqb_neq; lia).
  rewrite Hnz in Hrun.
  set (m0 := with_workingTree m (set_Done t true)) in *.
  assert (Htree0 : tree_at m0 T s true ls).
  { exists (set_Done t true). split; [reflexivity|]. cbn. repeat (split; [assumption|]).
    split; [reflexivity|]. split; assumption. }
  destruct (fillLeaves m0) as [m1 [e|]] eqn:Hfill; [discriminate|].
  destruct (fillLeaves_merkle m0 T s true ls m1 Htree0 Hn Hfill)
    as ((t1 & Hwt1 & HT1 & Hs1 & Hdone1 & Hc1 & HL1) & Hfn1 & Hstore1).
  fold n in Hc1.
  rewrite (Height_Some m1 t1 Hwt1) in Hrun by (rewrite Hc1; exact Hu).
  rewrite Hwt1, Hc1, HT1, Hs1 in Hrun. fold H in Hrun.
  match type of Hrun with
  | context [MarshalFinalizedTreeInfo ?r] =>
    destruct (MarshalFinalizedTreeInfo r) as [data [e|]] eqn:Hm; [discriminate|]
  end.
  injection Hrun as <- <- <-.
  assert (Hroot : map_get (TreeInfo.LastSiblings t1) H
                  = merkle_node (nodeGeneratorFn m) (padded ls) (Z.to_nat H) 0).
  { unfold map_get. specialize (HL1 (Z.to_nat H)).
    rewrite (length_padded ls ltac:(lia)) in HL1. fold n in HL1. fold H in HL1.
    replace (2 ^ H) with (2 ^ Z.of_nat (Z.to_nat H)) in HL1 by (rewrite Z2Nat.id; lia).
    rewrite cnt_pow2 in HL1 by lia. rewrite Z.sub_diag in HL1.
    rewrite Z2Nat.id in HL1 by lia. rewrite HL1 by (cbn; lia). reflexivity. }
  split; [exact Hroot|]. split; [exact Hfn1|]. split.
  - eexists. split; [reflexivity|]. exact Hm.
  - exact Hstore1.
Qed.
End Finalize_merkle.

Lemma lxor_1_bound x c : 0 <= x < 2 * c -> 0 <= Z.lxor x 1 < 2 * c.
Proof.
  intros Hx. rewrite lxor_1 by lia. destruct (Z.even x) eqn:E.
  - apply Zeven_bool_iff in E. apply Zeven_ex_iff in E as [q ->]. lia.
  - assert (Hodd : Z.odd x = true) by (rewrite <- Z.negb_even, E; reflexivity).
    apply Zodd_bool_iff in Hodd. apply Zodd_ex_iff in Hodd as [q ->]. lia.
Qed.

Section GetProofs_merkle.
Context {St : Type} {store : DB St} {codec : Codec}.

(** The loop of [GetProofs] over a store that holds a full tree of height
    [H]: it returns one sibling per level, and pairing the node it started
    from with them, level after level, gives the top node. *)
Lemma GetProofs_loop_merkle fuel :
  forall (m : Merkle St) ti fn T P (H k : nat) idx acc,
    nodes_of fn (db m) T P -> Z.of_nat (length P) = 2 ^ Z.of_nat H ->
    (forall a b, fn a b = fn b a) ->
    FinalizedTreeInfo.TreeIndex ti = T ->
    FinalizedTreeInfo.TreeHeight ti = Z.of_nat H -> (H <= 255)%nat ->
    (k <= H)%nat -> (H - k < fuel)%nat ->
    0 <= idx < cnt (2 ^ Z.of_nat H) k ->
    exists sibs,
      GetProofs_loop fuel m ti (Z.of_nat k) idx acc = (acc ++ sibs, None) /\
      length sibs = (H - k)%nat /\
      fold_left fn sibs (merkle_node fn P k idx) = merkle_node fn P H 0.
Proof.
  induction fuel as [|fuel IH];
    intros m ti fn T P H k idx acc Hnodes Hlen Hcomm HT HH H255 Hk Hfuel Hidx; [lia|].
  cbn [GetProofs_loop]. rewrite HH, HT.
  rewrite cnt_pow2 in Hidx by lia.
  destruct (Z.of_nat k <? Z.of_nat H) eqn:Hlt.
  - apply Z.ltb_lt in Hlt.
    assert (Hpow : 2 ^ (Z.of_nat H - Z.of_nat k)
                   = 2 * 2 ^ (Z.of_nat H - Z.of_nat (S k))).
    { rewrite <- Z.pow_succ_r by lia. f_equal. lia. }
    rewrite Hpow in Hidx.
    pose proof (lxor_1_bound idx _ Hidx) as Hsib.
    unfold getNode. rewrite (Hnodes k (Z.lxor idx 1)).
    2:{ rewrite Hlen, cnt_pow2, Hpow by lia. exact Hsib. }
    assert (Hu8 : u8 (Z.of_nat k + 1) = Z.of_nat (S k))
      by (rewrite u8_id; [lia | unfold is_u8; lia]).
    rewrite Hu8.
    destruct (IH m ti fn T P H (S k) (idx / 2)
                (acc ++ [merkle_node fn P k (Z.lxor idx 1)])
                Hnodes Hlen Hcomm HT HH H255 ltac:(lia) ltac:(lia))
      as (sibs & Hrun & Hlens & Hfold).
    { rewrite cnt_pow2 by lia.
      split; [apply Z.div_pos; lia | apply Z.div_lt_upper_bound; lia]. }
    exists (merkle_node fn P k (Z.lxor idx 1) :: sibs).
    split; [rewrite Hrun, <- app_assoc; reflexivity|].
    split; [cbn [length]; lia|].
    cbn [fold_left]. rewrite <- merkle_node_parent by (assumption || lia). exact Hfold.
  - apply Z.ltb_ge in Hlt. assert (k = H) as -> by lia.
    rewrite Z.sub_diag in Hidx. change (2 ^ 0) with 1 in Hidx.
    assert (idx = 0) as -> by lia.
    exists []. rewrite app_nil_r. split; [reflexivity|].
    split; [cbn; lia | reflexivity].
Qed.
End GetProofs_merkle.

(** X1: the root that [FinalizeWorkingTree] returns for a tree grown from
    the leaves [ls] (at least one, at most 2^63) is the top node of the
    binary tree over [ls] padded with copies of its last leaf to [2^H]
    leaves, built with the engine's pairing function. *)
Theorem FinalizeWorkingTree_root {St : Type} {store : DB St} {codec : Codec}
    (EmptyRootHash : bytes) (T s : Z) (m mf : Merkle St) (ls : list bytes)
    (extraData : bytes) (kvs : list RawKV) (root : bytes) :
  grown T s m ls ->
  1 <= Z.of_nat (length ls) <= 2 ^ 63 ->
  FinalizeWorkingTree EmptyRootHash m extraData = (mf, (kvs, root, None)) ->
  root = merkle_node (nodeGeneratorFn m) (padded ls)
           (Z.to_nat (height_of (Z.of_nat (length ls)))) 0.
Proof.
  intros Hg Hn Hrun.
  destruct (grown_merkle T s m ls Hg ltac:(lia)) as [Htree _].
  apply (FinalizeWorkingTree_merkle EmptyRootHash m T s false ls extraData mf kvs root
           Htree Hn Hrun).
Qed.

Lemma grown_insert_all T s (ls : list bytes) :
  forall (m : Merkle MemDB) acc,
    grown T s m acc -> (Fixture.insert_all m ls).2 = None ->
    grown T s (Fixture.insert_all m ls).1 (acc ++ ls).
Proof.
  induction ls as [|l ls IH]; intros m acc Hg Hok.
  - cbn. now rewrite app_nil_r.
  - cbn [Fixture.insert_all] in *.
    destruct (InsertLeaf m l) as [m1 [e|]] eqn:Hins; [discriminate|].
    replace (acc ++ l :: ls) with ((acc ++ [l]) ++ ls) by (now rewrite <- app_assoc).
    apply IH; [|exact Hok]. now apply (grown_insert T s m acc l m1).
Qed.

Lemma grown_tree_with (ls : list bytes) :
  (Fixture.insert_all (InitializeWorkingTree (Fixture.engine Fixture.pair_sum) 1 1).1 ls).2
    = None ->
  grown 1 1 (Fixture.tree_with ls) ls.
Proof.
  intros Hok. apply (grown_insert_all 1 1 ls _ []); [|exact Hok].
  apply (grown_init 1 1 (Fixture.engine Fixture.pair_sum)). reflexivity.
Qed.

Lemma grown_three_leaves :
  grown 1 1 Fixture.three_leaves
    [Fixture.leaf Byte.x01; Fixture.leaf Byte.x02; Fixture.leaf Byte.x05].
Proof. apply grown_tree_with. vm_compute. reflexivity. Qed.

(** What [FinalizeWorkingTree] returns on the three leaves. *)
Lemma finalize_three_leaves_run :
  FinalizeWorkingTree (codec := Fixture.codec) Fixture.EmptyRootHash Fixture.three_leaves []
  = ((FinalizeWorkingTree (codec := Fixture.codec) Fixture.EmptyRootHash
        Fixture.three_leaves []).1,
     ([ {| Key := list_byte_of_string "test/finalized_tree/" ++ FromUint64Key 1;
           Value := (Fixture.marshal_finalized
                       (FinalizedTreeInfo.mk 1 2 (Fixture.leaf Byte.x0d) 1 3 [])).1 |} ],
      Fixture.leaf Byte.x0d, None)).
Proof.
  pose proof finalize_three_leaves as H2.
  destruct (FinalizeWorkingTree Fixture.EmptyRootHash Fixture.three_leaves []) as [a b].
  cbn [fst snd] in *. now rewrite H2.
Qed.

Lemma FinalizeWorkingTree_root_witness :
  Fixture.leaf Byte.x0d =
  merkle_node Fixture.pair_sum
    (padded [Fixture.leaf Byte.x01; Fixture.leaf Byte.x02; Fixture.leaf Byte.x05])
    (Z.to_nat (height_of 3)) 0.
Proof.
  eapply (FinalizeWorkingTree_root (codec := Fixture.codec) Fixture.EmptyRootHash 1 1
            Fixture.three_leaves).
  - exact grown_three_leaves.
  - cbn. lia.
  - exact finalize_three_leaves_run.
Defined.

(** On a tree that holds [ls], the root that [FinalizeWorkingTree] returns
    is the entry of [LastSiblings] at the height. *)
Lemma FinalizeWorkingTree_top_entry {St : Type} {store : DB St} {codec : Codec}
    (EmptyRootHash : bytes) (m : Merkle St) (T s : Z) (done : bool) (ls : list bytes)
    (extraData : bytes) (mf : Merkle St) (kvs : list RawKV) (root : bytes) :
  tree_at m T s done ls -> 1 <= Z.of_nat (length ls) <= 2 ^ 63 ->
  FinalizeWorkingTree EmptyRootHash m extraData = (mf, (kvs, root, None)) ->
  exists tf,
    workingTree mf = Some tf /\
    TreeInfo.LastSiblings tf !! height_of (Z.of_nat (length ls)) = Some root.
Proof.
  intros Htree Hn Hrun. pose proof Htree as (t & Hwt & HT & Hs & Hdone & Hc & HL).
  set (n := Z.of_nat (length ls)) in *. set (H := height_of n).
  assert (Hu : is_u64 n) by (subst n; unfold is_u64; lia).
  pose proof (height_of_le_63 n Hn) as HH. fold H in HH.
  unfold FinalizeWorkingTree in Hrun. rewrite Hwt in Hrun.
  assert (Hnz : (TreeInfo.LeafCount t =? 0) = false) by (apply Z.eqb_neq; lia).
  rewrite Hnz in Hrun.
  set (m0 := with_workingTree m (set_Done t true)) in *.
  assert (Htree0 : tree_at m0 T s true ls).
  { exists (set_Done t true). split; [reflexivity|]. cbn. repeat (split; [assumption|]).
    split; [reflexivity|]. split; assumption. }
  destruct (fillLeaves m0) as [m1 [e|]] eqn:Hfill; [discriminate|].
  destruct (fillLeaves_merkle m0 T s true ls m1 Htree0 Hn Hfill)
    as ((t1 & Hwt1 & HT1 & Hs1 & Hdone1 & Hc1 & HL1) & _ & _).
  fold n in Hc1.
  rewrite (Height_Some m1 t1 Hwt1) in Hrun by (rewrite Hc1; exact Hu).
  rewrite Hwt1, Hc1, HT1, Hs1 in Hrun. fold H in Hrun.
  match type of Hrun with
  | context [MarshalFinalizedTreeInfo ?r] =>
    destruct (MarshalFinalizedTreeInfo r) as [data [e|]] eqn:Hm; [discriminate|]
  end.
  injection Hrun as <- _ <-.
  exists t1. split; [exact Hwt1|].
  specialize (HL1 (Z.to_nat H)).
  rewrite (length_padded ls ltac:(lia)) in HL1. fold n in HL1. fold H in HL1.
  replace (2 ^ H) with (2 ^ Z.of_nat (Z.to_nat H)) in HL1 by (rewrite Z2Nat.id; lia).
  rewrite cnt_pow2 in HL1 by lia. rewrite Z.sub_diag in HL1.
  rewrite Z2Nat.id in HL1 by lia.
  unfold map_get. rewrite HL1 by (cbn; lia). reflexivity.
Qed.

(** C1: on a working tree with [LeafCount = c >= 1], with a store that
    accepts every write and a record that serializes, [FinalizeWorkingTree]
    pads the tree ([2^H - c] copies of the last leaf bring the count to
    [2^H]), takes the root from [LastSiblings[H]] for [H] the height, and
    returns no error, that root, and a batch of exactly one pair: the
    prefixed finalized-tree key to the serialized record.  The record holds
    the count [c] from before the padding, not [2^H]; so does the working
    tree afterwards.  The padding is what the root is made of: when the
    frontier of the tree is that of the leaves [ls] (as it is after
    [InsertLeaf] put them in, [c <= 2^63]), the root is a defined entry of
    [LastSiblings] and it is the top node of the binary tree over [ls]
    followed by [2^H - c] copies of the last leaf. *)
Theorem FinalizeWorkingTree_spec {St : Type} {store : DB St} {codec : Codec}
    (EmptyRootHash : bytes) (m : Merkle St) (t : TreeInfo.t) (extraData : bytes) :
  (forall (s : St) k v, (Set_ s k v).2 = None) ->
  (forall f, (MarshalFinalizedTreeInfo f).2 = None) ->
  workingTree m = Some t ->
  is_u64 (TreeInfo.LeafCount t) -> 1 <= TreeInfo.LeafCount t ->
  exists m' t' mp tp,
    let c := TreeInfo.LeafCount t in
    let H := height_of c in
    let root := map_get (TreeInfo.LastSiblings t') H in
    let record :=
      FinalizedTreeInfo.mk (TreeInfo.Index t) H root (TreeInfo.StartLeafIndex t) c extraData in
    FinalizeWorkingTree EmptyRootHash m extraData =
      (m', ([ {| Key := PrefixedKey (db m') (PrefixedFinalizedTreeKey (TreeInfo.StartLeafIndex t));
                 Value := (MarshalFinalizedTreeInfo record).1 |} ], root, None)) /\
    workingTree m' = Some t' /\ Height m' = (H, None) /\
    TreeInfo.LeafCount t' = c /\ TreeInfo.Done t' = true /\
    FinalizedTreeInfo.LeafCount record = c /\
    (* the padding *)
    fillLeaves_loop (Z.to_nat (2 ^ H - c)) (with_workingTree m (set_Done t true))
      (map_get (TreeInfo.LastSiblings t) 0) = (mp, None) /\
    workingTree mp = Some tp /\
    TreeInfo.LeafCount tp = u64 (2 ^ H) /\
    TreeInfo.LastSiblings tp = TreeInfo.LastSiblings t' /\
    (* the root of the padded tree *)
    (forall ls : list bytes,
       c = Z.of_nat (length ls) -> c <= 2 ^ 63 ->
       frontier_of (nodeGeneratorFn m) (TreeInfo.LastSiblings t) ls ->
       TreeInfo.LastSiblings t' !! H = Some root /\
       root = merkle_node (nodeGeneratorFn m) (padded ls) (Z.to_nat H) 0).
Proof.
  intros Set_ok Marshal_ok Hwt Hc H1.
  destruct (FinalizeWorkingTree_ok EmptyRootHash Set_ok Marshal_ok m t extraData Hwt Hc H1)
    as (m' & L' & Hrun & Hwt' & _ & mp & Hpad & Hwtp).
  exists m', (TreeInfo.mk (TreeInfo.Index t) (TreeInfo.StartLeafIndex t)
                (TreeInfo.LeafCount t) L' true), mp,
         (TreeInfo.mk (TreeInfo.Index t) (TreeInfo.StartLeafIndex t)
                (u64 (2 ^ height_of (TreeInfo.LeafCount t))) L' true).
  cbn zeta. cbn [TreeInfo.LeafCount TreeInfo.LastSiblings TreeInfo.Done
                 FinalizedTreeInfo.LeafCount].
  split; [exact Hrun|]. split; [exact Hwt'|].
  split; [apply (Height_Some m' _ Hwt'); exact Hc|].
  repeat (split; [reflexivity|]).
  split; [exact Hpad|]. split; [exact Hwtp|]. split; [reflexivity|]. split; [reflexivity|].
  intros ls Hlen H63 HL.
  assert (Htree : tree_at m (TreeInfo.Index t) (TreeInfo.StartLeafIndex t)
                    (TreeInfo.Done t) ls).
  { exists t. repeat (split; [reflexivity || assumption|]). exact HL. }
  cbn zeta in Hrun. rewrite Hlen in Hrun, H1, H63 |- *.
  destruct (FinalizeWorkingTree_top_entry EmptyRootHash m _ _ _ ls extraData m' _ _
              Htree ltac:(lia) Hrun) as (tf & Hwtf & Hentry).
  rewrite Hwt' in Hwtf. injection Hwtf as <-. cbn [TreeInfo.LastSiblings] in Hentry.
  split; [exact Hentry|].
  exact (proj1 (FinalizeWorkingTree_merkle EmptyRootHash m _ _ _ ls extraData m' _ _
                  Htree ltac:(lia) Hrun)).
Qed.

Lemma FinalizeWorkingTree_spec_witness :
  exists m' t' mp tp,
    let t := Fixture.tree_of Fixture.three_leaves in
    let c := TreeInfo.LeafCount t in
    let H := height_of c in
    let root := map_get (TreeInfo.LastSiblings t') H in
    let record :=
      FinalizedTreeInfo.mk (TreeInfo.Index t) H root (TreeInfo.StartLeafIndex t) c [] in
    FinalizeWorkingTree (codec := Fixture.codec) Fixture.EmptyRootHash Fixture.three_leaves [] =
      (m', ([ {| Key := PrefixedKey (db m') (PrefixedFinalizedTreeKey (TreeInfo.StartLeafIndex t));
                 Value := (MarshalFinalizedTreeInfo (Codec := Fixture.codec) record).1 |} ],
            root, None)) /\
    workingTree m' = Some t' /\ Height m' = (H, None) /\
    TreeInfo.LeafCount t' = c /\ TreeInfo.Done t' = true /\
    FinalizedTreeInfo.LeafCount record = c /\
    fillLeaves_loop (Z.to_nat (2 ^ H - c)) (with_workingTree Fixture.three_leaves (set_Done t true))
      (map_get (TreeInfo.LastSiblings t) 0) = (mp, None) /\
    workingTree mp = Some tp /\
    TreeInfo.LeafCount tp = u64 (2 ^ H) /\
    TreeInfo.LastSiblings tp = TreeInfo.LastSiblings t' /\
    TreeInfo.LastSiblings t' !! H = Some root /\
    root = merkle_node Fixture.pair_sum
             (padded [Fixture.leaf Byte.x01; Fixture.leaf Byte.x02; Fixture.leaf Byte.x05])
             (Z.to_nat H) 0.
Proof.
  assert (Hwt : workingTree Fixture.three_leaves = Some (Fixture.tree_of Fixture.three_leaves))
    by (vm_compute; reflexivity).
  destruct (FinalizeWorkingTree_spec (codec := Fixture.codec) Fixture.EmptyRootHash
              Fixture.three_leaves (Fixture.tree_of Fixture.three_leaves) [])
    as (m' & t' & mp & tp & H1 & H2 & H3 & H4 & H5 & H6 & H7 & H8 & H9 & H10 & Hroot).
  - intros s k v. reflexivity.
  - intros f. reflexivity.
  - exact Hwt.
  - vm_compute. split; [discriminate | reflexivity].
  - vm_compute. discriminate.
  - exists m', t', mp, tp. cbn zeta in *.
    repeat (split; [assumption|]).
    apply (Hroot [Fixture.leaf Byte.x01; Fixture.leaf Byte.x02; Fixture.leaf Byte.x05]).
    + vm_compute. reflexivity.
    + vm_compute. discriminate.
    + destruct (grown_merkle 1 1 Fixture.three_leaves _ grown_three_leaves ltac:(cbn; lia))
        as [(t0 & Hwt0 & _ & _ & _ & _ & HL) _].
      rewrite Hwt in Hwt0. injection Hwt0 as <-. exact HL.
Defined.

(** X2: on a lawful store, after the leaves [ls] went into tree [T] through
    [InsertLeaf], [getNode] returns the [i]-th leaf at (T, 0, i), and every
    node stored above level 0 is the pairing of the two nodes stored below
    it: for every pair of children (2j, 2j+1) present at level [h], the node
    at (T, h+1, j) is [fn] of them. *)
Theorem stored_nodes_form_tree {St : Type} {store : DB St}
    (T s : Z) (m : Merkle St) (ls : list bytes) :
  lawful_store (St := St) ->
  grown T s m ls ->
  Z.of_nat (length ls) < 2 ^ 64 ->
  (forall i : nat,
     (i < length ls)%nat -> getNode m T 0 (Z.of_nat i) = (nth i ls [], None)) /\
  (forall (h : nat) (j : Z),
     0 <= j -> 2 * j + 1 < Z.of_nat (length ls) / 2 ^ Z.of_nat h ->
     exists a b,
       getNode m T (Z.of_nat h) (2 * j) = (a, None) /\
       getNode m T (Z.of_nat h) (2 * j + 1) = (b, None) /\
       getNode m T (Z.of_nat h + 1) j = (nodeGeneratorFn m a b, None)).
Proof.
  intros Hlaw Hg Hlen.
  destruct (grown_merkle T s m ls Hg Hlen) as [_ Hnodes]. specialize (Hnodes Hlaw).
  unfold getNode. split.
  - intros i Hi. pose proof (Hnodes 0%nat (Z.of_nat i)) as H0.
    rewrite cnt_0 in H0. change (Z.of_nat 0) with 0 in H0. rewrite H0 by lia.
    cbn [merkle_node]. now rewrite Nat2Z.id.
  - intros h j Hj Hlt. fold (cnt (Z.of_nat (length ls)) h) in Hlt.
    exists (merkle_node (nodeGeneratorFn m) ls h (2 * j)),
           (merkle_node (nodeGeneratorFn m) ls h (2 * j + 1)).
    split; [apply Hnodes; lia|]. split; [apply Hnodes; lia|].
    replace (Z.of_nat h + 1) with (Z.of_nat (S h)) by lia.
    rewrite (Hnodes (S h) j); [reflexivity|].
    rewrite cnt_S.
    pose proof (Z.div_mod (cnt (Z.of_nat (length ls)) h) 2 ltac:(lia)).
    pose proof (Z.mod_pos_bound (cnt (Z.of_nat (length ls)) h) 2 ltac:(lia)). lia.
Qed.

Lemma stored_nodes_form_tree_witness :
  (forall i : nat,
     (i < 3)%nat ->
     getNode Fixture.three_leaves 1 0 (Z.of_nat i)
       = (nth i [Fixture.leaf Byte.x01; Fixture.leaf Byte.x02; Fixture.leaf Byte.x05] [],
          None)) /\
  (forall (h : nat) (j : Z),
     0 <= j -> 2 * j + 1 < 3 / 2 ^ Z.of_nat h ->
     exists a b,
       getNode Fixture.three_leaves 1 (Z.of_nat h) (2 * j) = (a, None) /\
       getNode Fixture.three_leaves 1 (Z.of_nat h) (2 * j + 1) = (b, None) /\
       getNode Fixture.three_leaves 1 (Z.of_nat h + 1) j
         = (nodeGeneratorFn Fixture.three_leaves a b, None)).
Proof.
  apply (stored_nodes_form_tree 1 1 Fixture.three_leaves
           [Fixture.leaf Byte.x01; Fixture.leaf Byte.x02; Fixture.leaf Byte.x05]).
  - exact MemDB_lawful.
  - exact grown_three_leaves.
  - reflexivity.
Defined.

(** X3: the leaf count, the indexes and the height that the accessors return
    after the leaves [ls] went in. *)
Theorem grown_accessors {St : Type} {store : DB St}
    (T s : Z) (m : Merkle St) (ls : list bytes) :
  grown T s m ls ->
  Z.of_nat (length ls) < 2 ^ 64 ->
  GetWorkingTreeIndex m = (T, None) /\
  GetStartLeafIndex m = (s, None) /\
  GetWorkingTreeLeafCount m = (Z.of_nat (length ls), None) /\
  Height m = (height_of (Z.of_nat (length ls)), None) /\
  1 <= T /\ 1 <= s.
Proof.
  intros Hg Hlen.
  destruct (grown_merkle T s m ls Hg Hlen) as [(t & Hwt & HT & Hs & _ & Hc & _) _].
  unfold GetWorkingTreeIndex, GetStartLeafIndex, GetWorkingTreeLeafCount.
  rewrite Hwt, HT, Hs, Hc. repeat (split; [reflexivity|]).
  split.
  - rewrite (Height_Some m t Hwt), Hc; [reflexivity|]. rewrite Hc. unfold is_u64. lia.
  - clear -Hg. induction Hg as [m m' Hinit|]; [|assumption].
    unfold InitializeWorkingTree in Hinit.
    destruct (T <? 1) eqn:E1; [discriminate|]. destruct (s <? 1) eqn:E2; [discriminate|].
    apply Z.ltb_ge in E1, E2. lia.
Qed.

Lemma grown_accessors_witness :
  GetWorkingTreeIndex Fixture.three_leaves = (1, None) /\
  GetStartLeafIndex Fixture.three_leaves = (1, None) /\
  GetWorkingTreeLeafCount Fixture.three_leaves = (3, None) /\
  Height Fixture.three_leaves = (height_of 3, None) /\
  1 <= 1 /\ 1 <= 1.
Proof.
  apply (grown_accessors 1 1 Fixture.three_leaves
           [Fixture.leaf Byte.x01; Fixture.leaf Byte.x02; Fixture.leaf Byte.x05]).
  - exact grown_three_leaves.
  - reflexivity.
Defined.

(** X4: proofs verify.  A tree is grown from the leaves [ls] (at least one,
    at most 2^63) on a lawful store with a commutative pairing function and
    finalized.  On any engine whose store still holds the nodes of that tree
    and in which the seek of [GetProofs] finds the record of that
    finalization, [GetProofs] of a leaf index of the tree returns without
    error, with as many siblings as the height, the tree index, the root and
    the extra data of the finalization; and pairing the leaf with the
    siblings, one after the other, gives the root. *)
Theorem GetProofs_verifies {St : Type} {store : DB St} {codec : Codec}
    (EmptyRootHash : bytes) (T s : Z) (m mf m2 : Merkle St) (ls : list bytes)
    (extraData : bytes) (kvs : list RawKV) (root : bytes)
    (leafIndex : Z) (k v : bytes) :
  lawful_store (St := St) ->
  (forall a b, nodeGeneratorFn m a b = nodeGeneratorFn m b a) ->
  grown T s m ls ->
  1 <= Z.of_nat (length ls) <= 2 ^ 63 ->
  FinalizeWorkingTree EmptyRootHash m extraData = (mf, (kvs, root, None)) ->
  (forall h i, Get (db m2) (PrefixedNodeKey T h i) = Get (db mf) (PrefixedNodeKey T h i)) ->
  SeekPrevInclusiveKey (db m2) FinalizedTreeKey (PrefixedFinalizedTreeKey leafIndex)
    = (k, v, None) ->
  UnmarshalFinalizedTreeInfo v
    = (FinalizedTreeInfo.mk T (height_of (Z.of_nat (length ls))) root s
         (Z.of_nat (length ls)) extraData, None) ->
  s <= leafIndex < s + Z.of_nat (length ls) ->
  exists proofs,
    GetProofs m2 leafIndex = (proofs, T, root, extraData, None) /\
    Z.of_nat (length proofs) = height_of (Z.of_nat (length ls)) /\
    fold_left (nodeGeneratorFn m) proofs (nth (Z.to_nat (leafIndex - s)) ls []) = root.
Proof.
  intros Hlaw Hcomm Hg Hn Hfin Hsame Hseek Hdec Hleaf.
  set (n := Z.of_nat (length ls)) in *.
  assert (Hndef : n = Z.of_nat (length ls)) by reflexivity.
  destruct (grown_merkle T s m ls Hg ltac:(lia)) as [Htree Hnodes].
  specialize (Hnodes Hlaw).
  destruct (FinalizeWorkingTree_merkle EmptyRootHash m T s false ls extraData mf kvs root
              Htree Hn Hfin) as (Hroot & _ & _ & Hstore).
  destruct (Hstore Hlaw) as [_ Hpad]. specialize (Hpad Hnodes).
  fold n in Hroot.
  pose proof (height_of_le_63 n Hn) as HH.
  pose proof (height_of_pow2 n ltac:(lia)) as Hle.
  set (H := Z.to_nat (height_of n)) in *.
  assert (HHdef : Z.of_nat H = height_of n) by (subst H; rewrite Z2Nat.id; lia).
  assert (Hnodes2 : nodes_of (nodeGeneratorFn m) (db m2) T (padded ls)).
  { intros h i Hi. rewrite Hsame. now apply Hpad. }
  assert (Hlenp : Z.of_nat (length (padded ls)) = 2 ^ Z.of_nat H).
  { rewrite length_padded by lia. fold n. now rewrite HHdef. }
  unfold GetProofs. rewrite Hseek, Hdec.
  cbn [FinalizedTreeInfo.StartLeafIndex FinalizedTreeInfo.LeafCount
       FinalizedTreeInfo.TreeIndex FinalizedTreeInfo.Root FinalizedTreeInfo.ExtraData].
  assert (Hlt : (leafIndex <? s) = false) by (apply Z.ltb_ge; lia).
  rewrite Hlt. rewrite u64_id by (unfold is_u64; lia).
  assert (Hge : (leafIndex - s >=? n) = false)
    by (rewrite Z.geb_leb; apply Z.leb_gt; lia).
  rewrite Hge.
  destruct (GetProofs_loop_merkle 256 m2
              (FinalizedTreeInfo.mk T (height_of n) root s n extraData)
              (nodeGeneratorFn m) T (padded ls) H 0%nat (leafIndex - s) []
              Hnodes2 Hlenp Hcomm eq_refl (eq_sym HHdef) ltac:(lia) ltac:(lia) ltac:(lia))
    as (sibs & Hrun & Hlens & Hfold).
  { rewrite cnt_0, HHdef. lia. }
  change (Z.of_nat 0) with 0 in Hrun. rewrite Hrun. cbn [app].
  exists sibs. split; [reflexivity|]. split; [lia|].
  rewrite <- Hroot in Hfold. rewrite <- Hfold. f_equal.
  cbn [merkle_node]. unfold padded. cbn zeta. symmetry. apply app_nth1. lia.
Qed.

Lemma pair_sum_comm a : forall b, Fixture.pair_sum a b = Fixture.pair_sum b a.
Proof.
  unfold Fixture.pair_sum. induction a as [|x a IH]; intros [|y b]; try reflexivity.
  cbn [zip_with]. rewrite IH, (Z.add_comm (Fixture.Z_of_byte x)). reflexivity.
Qed.

Lemma node_key_head T h i : exists rest, PrefixedNodeKey T h i = Byte.x6e :: rest.
Proof. eexists. reflexivity. Qed.

(** Writing the batch of the finalization leaves the nodes alone. *)
Lemma finalized3_nodes h i :
  Get (db Fixture.finalized3) (PrefixedNodeKey 1 h i)
  = Get (db (FinalizeWorkingTree (codec := Fixture.codec) Fixture.EmptyRootHash
               Fixture.three_leaves []).1) (PrefixedNodeKey 1 h i).
Proof.
  unfold Fixture.finalized3. rewrite finalize_three_leaves_run.
  set (mf := (FinalizeWorkingTree Fixture.EmptyRootHash Fixture.three_leaves []).1).
  assert (Hp : mem_prefix (db mf) = list_byte_of_string "test/")
    by (vm_compute; reflexivity).
  unfold Fixture.commit. cbn [with_db db fold_left Key Value Get MemDB_DB].
  unfold mem_Get. cbn [mem_kv]. rewrite Hp.
  destruct (node_key_head 1 h i) as [rest ->].
  rewrite lookup_insert_ne; [reflexivity|]. vm_compute. discriminate.
Qed.

Lemma GetProofs_verifies_witness :
  exists proofs,
    GetProofs (codec := Fixture.codec) Fixture.finalized3 2
      = (proofs, 1, Fixture.leaf Byte.x0d, [], None) /\
    Z.of_nat (length proofs) = height_of 3 /\
    fold_left Fixture.pair_sum proofs (Fixture.leaf Byte.x02) = Fixture.leaf Byte.x0d.
Proof.
  eapply (GetProofs_verifies (codec := Fixture.codec) Fixture.EmptyRootHash 1 1
            Fixture.three_leaves _ Fixture.finalized3
            [Fixture.leaf Byte.x01; Fixture.leaf Byte.x02; Fixture.leaf Byte.x05]
            [] _ (Fixture.leaf Byte.x0d) 2).
  - exact MemDB_lawful.
  - exact pair_sum_comm.
  - exact grown_three_leaves.
  - cbn. lia.
  - exact finalize_three_leaves_run.
  - exact finalized3_nodes.
  - vm_compute. reflexivity.
  - vm_compute. reflexivity.
  - cbn. lia.
Defined.

Section Frames.
Context {St : Type} {store : DB St}.

Lemma same_but_nodes_refl T (s : St) : same_but_nodes T s s.
Proof. intros key _. reflexivity. Qed.

Lemma same_but_nodes_trans T (s1 s2 s3 : St) :
  same_but_nodes T s1 s2 -> same_but_nodes T s2 s3 -> same_but_nodes T s1 s3.
Proof. intros H12 H23 key Hkey. rewrite (H23 key Hkey). now apply H12. Qed.

Lemma InsertLeaf_loop_frame fuel :
  forall (m : Merkle St) t h idx data m',
    lawful_store (St := St) -> workingTree m = Some t ->
    InsertLeaf_loop fuel m h idx data = (m', None) ->
    same_but_nodes (TreeInfo.Index t) (db m) (db m').
Proof.
  induction fuel as [|fuel IH]; intros m t h idx data m' Hlaw Hwt Hrun; [discriminate|].
  cbn [InsertLeaf_loop] in Hrun. rewrite (saveNode_tree m t h idx data Hwt) in Hrun.
  destruct (Set_ (db m) (PrefixedNodeKey (TreeInfo.Index t) h idx) data) as [dd [e|]] eqn:Hset;
    cbn [fst snd] in Hrun; [discriminate|].
  destruct (Hlaw _ _ _ _ Hset) as [_ Hother].
  assert (Hstep : same_but_nodes (TreeInfo.Index t) (db m) dd).
  { intros key Hkey. apply Hother. apply Hkey. }
  cbn [with_db workingTree] in Hrun. rewrite Hwt in Hrun.
  destruct (idx mod 2 =? 0).
  - injection Hrun as <-. exact Hstep.
  - apply (same_but_nodes_trans _ _ dd); [exact Hstep|].
    match type of Hrun with
    | InsertLeaf_loop _ ?m2 _ _ _ = _ =>
      exact (IH m2 (set_LastSiblings t (<[h:=data]> (TreeInfo.LastSiblings t)))
               _ _ _ _ Hlaw eq_refl Hrun)
    end.
Qed.

Lemma InsertLeaf_frame_tree (m : Merkle St) t data m' :
  lawful_store (St := St) -> workingTree m = Some t ->
  InsertLeaf m data = (m', None) ->
  same_but_nodes (TreeInfo.Index t) (db m) (db m') /\
  exists t', workingTree m' = Some t' /\ TreeInfo.Index t' = TreeInfo.Index t.
Proof.
  intros Hlaw Hwt Hrun.
  destruct (InsertLeaf_tree m t data m' None Hwt Hrun) as (L' & Hwt' & _).
  split; [|eexists; split; [exact Hwt' | reflexivity]].
  unfold InsertLeaf in Hrun. rewrite Hwt in Hrun.
  destruct (InsertLeaf_loop 65 m 0 (TreeInfo.LeafCount t) data) as [m1 [e|]] eqn:Hloop;
    [discriminate|].
  pose proof (InsertLeaf_loop_frame _ _ _ _ _ _ _ Hlaw Hwt Hloop) as Hf.
  destruct (workingTree m1); injection Hrun as <-; exact Hf.
Qed.

Lemma fillLeaves_loop_frame j :
  forall (m : Merkle St) t leaf m',
    lawful_store (St := St) -> workingTree m = Some t ->
    fillLeaves_loop j m leaf = (m', None) ->
    same_but_nodes (TreeInfo.Index t) (db m) (db m').
Proof.
  induction j as [|j IH]; intros m t leaf m' Hlaw Hwt Hrun.
  - injection Hrun as <-. apply same_but_nodes_refl.
  - cbn [fillLeaves_loop] in Hrun.
    destruct (InsertLeaf m leaf) as [m1 [e|]] eqn:Hins; [discriminate|].
    destruct (InsertLeaf_frame_tree m t leaf m1 Hlaw Hwt Hins) as (Hf & t1 & Hwt1 & HT1).
    apply (same_but_nodes_trans _ _ (db m1)); [exact Hf|].
    rewrite <- HT1. apply (IH m1 t1 leaf m' Hlaw Hwt1 Hrun).
Qed.

Lemma fillLeaves_frame (m : Merkle St) t m' :
  lawful_store (St := St) -> workingTree m = Some t ->
  fillLeaves m = (m', None) ->
  same_but_nodes (TreeInfo.Index t) (db m) (db m').
Proof.
  intros Hlaw Hwt Hrun. unfold fillLeaves in Hrun. rewrite Hwt in Hrun.
  destruct (Height m) as [h [e|]]; [discriminate|].
  match type of Hrun with
  | (if ?c then _ else _) = _ => destruct c
  end.
  - injection Hrun as <-. apply same_but_nodes_refl.
  - match type of Hrun with
    | context [fillLeaves_loop ?j ?m0 ?leaf] =>
      destruct (fillLeaves_loop j m0 leaf) as [mp [e|]] eqn:Hloop; [discriminate|]
    end.
    pose proof (fillLeaves_loop_frame _ _ _ _ _ Hlaw Hwt Hloop) as Hf.
    destruct (workingTree mp); injection Hrun as <-; exact Hf.
Qed.
End Frames.

Lemma finalized_key_not_node x T h i : PrefixedFinalizedTreeKey x <> PrefixedNodeKey T h i.
Proof. destruct (node_key_head T h i) as [rest ->]. discriminate. Qed.

Lemma working_key_not_node x T h i : PrefixedWorkingTreeKey x <> PrefixedNodeKey T h i.
Proof. destruct (node_key_head T h i) as [rest ->]. discriminate. Qed.

(** X5: on a lawful store, an [InsertLeaf] that returns no error changes the
    store only under node keys of the working tree: every key that is no
    node key of that tree reads as before, among them every finalized-tree
    record, every working-tree snapshot and every node of another tree. *)
Theorem InsertLeaf_frame {St : Type} {store : DB St}
    (m m' : Merkle St) (t : TreeInfo.t) (data : bytes) :
  lawful_store (St := St) ->
  workingTree m = Some t ->
  InsertLeaf m data = (m', None) ->
  (forall key : bytes,
     (forall h i, key <> PrefixedNodeKey (TreeInfo.Index t) h i) ->
     Get (db m') key = Get (db m) key) /\
  (forall x, Get (db m') (PrefixedFinalizedTreeKey x) = Get (db m) (PrefixedFinalizedTreeKey x)) /\
  (forall v, Get (db m') (PrefixedWorkingTreeKey v) = Get (db m) (PrefixedWorkingTreeKey v)).
Proof.
  intros Hlaw Hwt Hrun.
  destruct (InsertLeaf_frame_tree m t data m' Hlaw Hwt Hrun) as [Hf _].
  split; [exact Hf|]. split.
  - intros x. apply Hf. intros h i. apply finalized_key_not_node.
  - intros v. apply Hf. intros h i. apply working_key_not_node.
Qed.

(** X6: on a lawful store, a [FinalizeWorkingTree] that returns no error
    changes the store only under node keys of the working tree (the
    padding): it does not write the finalized-tree record that it returns
    in the batch, nor any working-tree snapshot. *)
Theorem FinalizeWorkingTree_frame {St : Type} {store : DB St} {codec : Codec}
    (EmptyRootHash : bytes) (m mf : Merkle St) (t : TreeInfo.t)
    (extraData : bytes) (kvs : list RawKV) (root : bytes) :
  lawful_store (St := St) ->
  workingTree m = Some t ->
  FinalizeWorkingTree EmptyRootHash m extraData = (mf, (kvs, root, None)) ->
  (forall key : bytes,
     (forall h i, key <> PrefixedNodeKey (TreeInfo.Index t) h i) ->
     Get (db mf) key = Get (db m) key) /\
  (forall x, Get (db mf) (PrefixedFinalizedTreeKey x) = Get (db m) (PrefixedFinalizedTreeKey x)) /\
  (forall v, Get (db mf) (PrefixedWorkingTreeKey v) = Get (db m) (PrefixedWorkingTreeKey v)).
Proof.
  intros Hlaw Hwt Hrun.
  assert (Hf : same_but_nodes (TreeInfo.Index t) (db m) (db mf)).
  { unfold FinalizeWorkingTree in Hrun. rewrite Hwt in Hrun.
    destruct (TreeInfo.LeafCount t =? 0).
    - injection Hrun as <- _ _. apply same_but_nodes_refl.
    - destruct (fillLeaves (with_workingTree m (set_Done t true))) as [m1 [e|]] eqn:Hfill;
        [discriminate|].
      pose proof (fillLeaves_frame (with_workingTree m (set_Done t true)) (set_Done t true)
                    m1 Hlaw eq_refl Hfill) as Hf.
      cbn [set_Done TreeInfo.Index with_workingTree db] in Hf.
      destruct (Height m1) as [h [e|]]; [discriminate|].
      destruct (workingTree m1) as [t1|]; [|discriminate].
      match type of Hrun with
      | context [MarshalFinalizedTreeInfo ?r] =>
        destruct (MarshalFinalizedTreeInfo r) as [data [e|]]; [discriminate|]
      end.
      injection Hrun as <- _ _. exact Hf. }
  split; [exact Hf|]. split.
  - intros x. apply Hf. intros h i. apply finalized_key_not_node.
  - intros v. apply Hf. intros h i. apply working_key_not_node.
Qed.

Lemma run_without_error {A : Type} (r : A * option error) : r.2 = None -> r = (r.1, None).
Proof. destruct r as [a e]. cbn. now intros ->. Qed.

Lemma InsertLeaf_frame_witness :
  let m := Fixture.one_leaf in
  let m' := (InsertLeaf m (Fixture.leaf Byte.x02)).1 in
  (forall key : bytes,
     (forall h i, key <> PrefixedNodeKey (TreeInfo.Index (Fixture.tree_of m)) h i) ->
     Get (db m') key = Get (db m) key) /\
  (forall x, Get (db m') (PrefixedFinalizedTreeKey x) = Get (db m) (PrefixedFinalizedTreeKey x)) /\
  (forall v, Get (db m') (PrefixedWorkingTreeKey v) = Get (db m) (PrefixedWorkingTreeKey v)).
Proof.
  apply (InsertLeaf_frame Fixture.one_leaf (InsertLeaf Fixture.one_leaf (Fixture.leaf Byte.x02)).1
           (Fixture.tree_of Fixture.one_leaf) (Fixture.leaf Byte.x02)).
  - exact MemDB_lawful.
  - reflexivity.
  - apply run_without_error. vm_compute. reflexivity.
Defined.

Lemma FinalizeWorkingTree_frame_witness :
  let m := Fixture.three_leaves in
  let mf := (FinalizeWorkingTree (codec := Fixture.codec) Fixture.EmptyRootHash m []).1 in
  (forall key : bytes,
     (forall h i, key <> PrefixedNodeKey (TreeInfo.Index (Fixture.tree_of m)) h i) ->
     Get (db mf) key = Get (db m) key) /\
  (forall x, Get (db mf) (PrefixedFinalizedTreeKey x) = Get (db m) (PrefixedFinalizedTreeKey x)) /\
  (forall v, Get (db mf) (PrefixedWorkingTreeKey v) = Get (db m) (PrefixedWorkingTreeKey v)).
Proof.
  eapply (FinalizeWorkingTree_frame (codec := Fixture.codec) Fixture.EmptyRootHash
            Fixture.three_leaves _ (Fixture.tree_of Fixture.three_leaves) []).
  - exact MemDB_lawful.
  - vm_compute. reflexivity.
  - exact finalize_three_leaves_run.
Defined.

Section Failure.
Context {St : Type} {store : DB St}.

(** With enough turns for its index, the loop of [InsertLeaf] has no error
    of its own: an error it returns is one a [Set] of the store returned. *)
Lemma InsertLeaf_loop_step fuel (m : Merkle St) t h idx data :
  workingTree m = Some t ->
  InsertLeaf_loop (S fuel) m h idx data =
    match Set_ (db m) (PrefixedNodeKey (TreeInfo.Index t) h idx) data with
    | (dd, Some e) => (with_db m dd, Some e)
    | (dd, None) =>
      let m2 := with_workingTree (with_db m dd)
                  (set_LastSiblings t (<[h := data]> (TreeInfo.LastSiblings t))) in
      if idx mod 2 =? 0 then (m2, None)
      else InsertLeaf_loop fuel m2 (u8 (h + 1)) (idx / 2)
             (nodeGeneratorFn m (map_get (TreeInfo.LastSiblings t) h) data)
    end.
Proof.
  intros Hwt. change (InsertLeaf_loop (S fuel) m h idx data) with
    (let '(m1, err) := saveNode m h idx data in
     match err with
     | Some e => (m1, Some e)
     | None =>
       match workingTree m1 with
       | None => (m1, Some nil_deref)
       | Some t =>
         let sibling := map_get (TreeInfo.LastSiblings t) h in
         let m2 := with_workingTree m1
                     (set_LastSiblings t (<[h := data]> (TreeInfo.LastSiblings t))) in
         if idx mod 2 =? 0 then (m2, None)
         else InsertLeaf_loop fuel m2 (u8 (h + 1)) (idx / 2) (nodeGeneratorFn m2 sibling data)
       end
     end).
  rewrite (saveNode_tree m t h idx data Hwt).
  destruct (Set_ (db m) (PrefixedNodeKey (TreeInfo.Index t) h idx) data) as [dd [e|]];
    cbn [fst snd]; [reflexivity|].
  cbn [with_db workingTree]. rewrite Hwt. reflexivity.
Qed.

Lemma InsertLeaf_loop_error fuel :
  forall (m : Merkle St) t h idx data m' e,
    workingTree m = Some t -> 0 <= idx < 2 ^ Z.of_nat fuel ->
    InsertLeaf_loop (S fuel) m h idx data = (m', Some e) ->
    exists (s : St) (k v : bytes), (Set_ s k v).2 = Some e.
Proof.
  induction fuel as [|fuel IH]; intros m t h idx data m' e Hwt Hidx Hrun;
    rewrite (InsertLeaf_loop_step _ m t h idx data Hwt) in Hrun;
    destruct (Set_ (db m) (PrefixedNodeKey (TreeInfo.Index t) h idx) data)
      as [dd [e'|]] eqn:Hset; cbn zeta in Hrun.
  - injection Hrun as _ <-. exists (db m), (PrefixedNodeKey (TreeInfo.Index t) h idx), data.
    now rewrite Hset.
  - assert (idx = 0) as -> by (change (2 ^ Z.of_nat 0) with 1 in Hidx; lia).
    change (0 mod 2 =? 0) with true in Hrun. discriminate.
  - injection Hrun as _ <-. exists (db m), (PrefixedNodeKey (TreeInfo.Index t) h idx), data.
    now rewrite Hset.
  - destruct (idx mod 2 =? 0); [discriminate|].
    match type of Hrun with
    | InsertLeaf_loop _ ?m2 _ _ _ = _ =>
      apply (IH m2 (set_LastSiblings t (<[h := data]> (TreeInfo.LastSiblings t)))
               _ _ _ _ _ eq_refl) in Hrun; [exact Hrun|]
    end.
    rewrite Nat2Z.inj_succ, Z.pow_succ_r in Hidx by lia.
    split; [apply Z.div_pos; lia | apply Z.div_lt_upper_bound; lia].
Qed.
End Failure.

(** X7: the ways [InsertLeaf] fails.  It returns an error only when there is
    no working tree (the error "working tree is not initialized", the engine
    unchanged) or when a [Set] of the store returned that error; in the
    second case the leaf is not counted: [LeafCount], the indexes and [Done]
    are as before (entries of [LastSiblings] may have been overwritten). *)
Theorem InsertLeaf_failure {St : Type} {store : DB St}
    (m m' : Merkle St) (data : bytes) (e : error) :
  (forall t, workingTree m = Some t -> is_u64 (TreeInfo.LeafCount t)) ->
  InsertLeaf m data = (m', Some e) ->
  (workingTree m = None /\ m' = m /\ e = ErrWorkingTreeNotInitialized) \/
  (exists t t',
     workingTree m = Some t /\ workingTree m' = Some t' /\
     TreeInfo.LeafCount t' = TreeInfo.LeafCount t /\
     TreeInfo.Index t' = TreeInfo.Index t /\
     TreeInfo.StartLeafIndex t' = TreeInfo.StartLeafIndex t /\
     TreeInfo.Done t' = TreeInfo.Done t /\
     exists (s : St) (k v : bytes), (Set_ s k v).2 = Some e).
Proof.
  intros Hu Hrun. destruct (workingTree m) as [t|] eqn:Hwt.
  - right. destruct (InsertLeaf_tree m t data m' (Some e) Hwt Hrun) as (L' & Hwt' & _).
    exists t, (set_LastSiblings t L'). split; [reflexivity|]. split; [exact Hwt'|].
    repeat (split; [reflexivity|]).
    unfold InsertLeaf in Hrun. rewrite Hwt in Hrun.
    destruct (InsertLeaf_loop 65 m 0 (TreeInfo.LeafCount t) data) as [m1 [e1|]] eqn:Hloop.
    + injection Hrun as _ <-.
      apply (InsertLeaf_loop_error 64 m t 0 _ data m1 e1 Hwt (Hu t eq_refl) Hloop).
    + destruct (InsertLeaf_loop_tree _ _ _ _ _ _ _ _ Hwt Hloop) as (L1 & Hwt1 & _).
      rewrite Hwt1 in Hrun. discriminate.
  - left. unfold InsertLeaf in Hrun. rewrite Hwt in Hrun. injection Hrun as <- <-. auto.
Qed.

Lemma InsertLeaf_failure_witness :
  (workingTree ReadOnly.engine = None /\
   (InsertLeaf ReadOnly.engine (Fixture.leaf Byte.x01)).1 = ReadOnly.engine /\
   ReadOnly.refused = ErrWorkingTreeNotInitialized) \/
  (exists t t',
     workingTree ReadOnly.engine = Some t /\
     workingTree (InsertLeaf ReadOnly.engine (Fixture.leaf Byte.x01)).1 = Some t' /\
     TreeInfo.LeafCount t' = TreeInfo.LeafCount t /\
     TreeInfo.Index t' = TreeInfo.Index t /\
     TreeInfo.StartLeafIndex t' = TreeInfo.StartLeafIndex t /\
     TreeInfo.Done t' = TreeInfo.Done t /\
     exists (s : ReadOnly.t) (k v : bytes), (Set_ s k v).2 = Some ReadOnly.refused).
Proof.
  apply (InsertLeaf_failure ReadOnly.engine
           (InsertLeaf ReadOnly.engine (Fixture.leaf Byte.x01)).1
           (Fixture.leaf Byte.x01) ReadOnly.refused).
  - intros t Ht. vm_compute in Ht. injection Ht as <-. vm_compute.
    split; [discriminate | reflexivity].
  - vm_compute. reflexivity.
Defined.

(** ** node/db.go: the pending transactions *)

Section PendingTxs_facts.
Context {St : Type} {store : DB St}.
Variable Marshal : PendingTxInfo.t -> bytes * option error.
Variable PrefixedPendingTx : Z -> bytes.

Lemma PendingTxsToRawKV_loop_spec (d : St) (delete : bool) (txInfos : list PendingTxInfo.t) :
  forall kvs : list RawKV,
    PendingTxsToRawKV_loop Marshal PrefixedPendingTx d txInfos delete kvs =
      match List.find (marshal_fails Marshal delete) txInfos with
      | Some txInfo => ([], (Marshal txInfo).2)
      | None =>
        (kvs ++ map (pending_entry Marshal PrefixedPendingTx d delete) txInfos, None)
      end.
Proof.
  induction txInfos as [|tx rest IH]; intros kvs.
  - cbn. now rewrite app_nil_r.
  - cbn [PendingTxsToRawKV_loop List.find map]. unfold marshal_fails at 1.
    assert (Hentry : forall data,
      (if negb delete && PendingTxInfo.Save tx then (Marshal tx).1 else []) = data ->
      (kvs ++ [ {| Key := PrefixedKey d (PrefixedPendingTx (PendingTxInfo.Sequence tx));
                   Value := data |} ]) ++
        map (pending_entry Marshal PrefixedPendingTx d delete) rest =
      kvs ++ pending_entry Marshal PrefixedPendingTx d delete tx ::
               map (pending_entry Marshal PrefixedPendingTx d delete) rest).
    { intros data <-. now rewrite <- app_assoc. }
    destruct (negb delete && PendingTxInfo.Save tx) eqn:Hsave; cbn [andb].
    + destruct (Marshal tx) as [data [e|]] eqn:HM; cbn [fst snd].
      * now rewrite HM.
      * rewrite IH. destruct (List.find _ rest); [reflexivity|].
        rewrite (Hentry data); [reflexivity|]. reflexivity.
    + rewrite IH. destruct (List.find _ rest); [reflexivity|].
      rewrite (Hentry []); reflexivity.
Qed.
End PendingTxs_facts.

(** X8: [PendingTxsToRawKV] returns one pair per transaction, in order, under
    the prefixed pending-tx key of its sequence, with the serialized
    transaction as value when the transaction is saved and [delete] is
    false, and an empty value otherwise; it stops at the first saved
    transaction that does not serialize and returns that error with no
    pairs.  With [delete = true] it never calls [Marshal] and never
    fails. *)
Theorem PendingTxsToRawKV_spec {St : Type} {store : DB St}
    (Marshal : PendingTxInfo.t -> bytes * option error) (PrefixedPendingTx : Z -> bytes)
    (d : St) (txInfos : list PendingTxInfo.t) (delete : bool) :
  PendingTxsToRawKV Marshal PrefixedPendingTx d txInfos delete =
    match List.find (marshal_fails Marshal delete) txInfos with
    | Some txInfo => ([], (Marshal txInfo).2)
    | None => (map (pending_entry Marshal PrefixedPendingTx d delete) txInfos, None)
    end /\
  PendingTxsToRawKV Marshal PrefixedPendingTx d txInfos true =
    (map (fun txInfo =>
            {| Key := PrefixedKey d (PrefixedPendingTx (PendingTxInfo.Sequence txInfo));
               Value := [] |}) txInfos, None).
Proof.
  unfold PendingTxsToRawKV. rewrite !PendingTxsToRawKV_loop_spec. split; [reflexivity|].
  assert (Hnone : List.find (marshal_fails Marshal true) txInfos = None).
  { induction txInfos as [|tx rest IH]; [reflexivity|]. cbn. exact IH. }
  rewrite Hnone. reflexivity.
Qed.

(** X9: saving and loading.  On a lawful store, when [SaveWorkingTree]
    returns no error for a working tree that is not [Done] and that the codec
    decodes back from what it encoded, the engine keeps its working tree,
    and [LoadWorkingTree] of the same version on a new engine over the store
    that the save left, with the same pairing function, gives back exactly
    the engine that the save left. *)
Theorem SaveWorkingTree_LoadWorkingTree {St : Type} {store : DB St} {codec : Codec}
    (m m1 : Merkle St) (t : TreeInfo.t) (version : Z) (held : option TreeInfo.t) :
  lawful_store (St := St) ->
  workingTree m = Some t -> TreeInfo.Done t = false ->
  (forall data, MarshalTreeInfo t = (data, None) -> UnmarshalTreeInfo data = (t, None)) ->
  SaveWorkingTree m version = (m1, None) ->
  workingTree m1 = Some t /\
  LoadWorkingTree (mkMerkle (db m1) held (nodeGeneratorFn m)) version = (m1, None).
Proof.
  intros Hlaw Hwt Hdone Hcodec Hsave.
  unfold SaveWorkingTree in Hsave. rewrite Hwt in Hsave.
  destruct (MarshalTreeInfo t) as [data [e|]] eqn:Hm; [discriminate|].
  destruct (Set_ (db m) (PrefixedWorkingTreeKey version) data) as [dd [e|]] eqn:Hset;
    [discriminate|].
  injection Hsave as <-. destruct (Hlaw _ _ _ _ Hset) as [Hget _].
  split; [exact Hwt|].
  unfold LoadWorkingTree. cbn [with_db db]. rewrite Hget, (Hcodec data eq_refl), Hdone.
  unfold with_workingTree, with_db. cbn. now rewrite Hwt.
Qed.

Lemma SaveWorkingTree_LoadWorkingTree_witness :
  let m1 := (SaveWorkingTree (codec := Fixture.codec) Fixture.three_leaves 100).1 in
  workingTree m1 = Some (Fixture.tree_of Fixture.three_leaves) /\
  LoadWorkingTree (codec := Fixture.codec)
    (mkMerkle (db m1) None (nodeGeneratorFn Fixture.three_leaves)) 100 = (m1, None).
Proof.
  apply (SaveWorkingTree_LoadWorkingTree (codec := Fixture.codec) Fixture.three_leaves
           (SaveWorkingTree (codec := Fixture.codec) Fixture.three_leaves 100).1
           (Fixture.tree_of Fixture.three_leaves) 100 None).
  - exact MemDB_lawful.
  - vm_compute. reflexivity.
  - vm_compute. reflexivity.
  - intros data Hd. cbn [MarshalTreeInfo Fixture.codec] in Hd.
    unfold Fixture.marshal_tree in Hd. injection Hd as <-.
    vm_compute. reflexivity.
  - apply run_without_error. vm_compute. reflexivity.
Defined.

(** ** Rolling back *)

Lemma ToUint64Key_snoc (l : bytes) (c : byte) :
  ToUint64Key (l ++ [c]) = ToUint64Key l * 256 + Z.of_N (Byte.to_N c).
Proof. unfold ToUint64Key. now rewrite fold_left_app. Qed.

(** Reading back the big-endian bytes of an integer gives the integer. *)
Lemma ToUint64Key_be_bytes (n : nat) :
  forall x : Z, 0 <= x < 256 ^ Z.of_nat n -> ToUint64Key (be_bytes n x) = x.
Proof.
  induction n as [|n IH]; intros x Hx.
  - change (256 ^ Z.of_nat 0) with 1 in Hx. cbn. lia.
  - cbn [be_bytes]. rewrite ToUint64Key_snoc.
    rewrite Nat2Z.inj_succ, Z.pow_succ_r in Hx by lia.
    pose proof (Z.div_mod x 256 ltac:(lia)) as Hdm.
    pose proof (Z.mod_pos_bound x 256 ltac:(lia)) as Hmod.
    rewrite IH.
    2:{ split; [apply Z.div_pos; lia | apply Z.div_lt_upper_bound; lia]. }
    destruct (Byte.of_N (Z.to_N (x mod 256))) as [b|] eqn:E.
    2:{ apply Byte.of_N_None_iff in E. lia. }
    apply Byte.to_of_N in E. cbn [default]. unfold id. rewrite E. lia.
Qed.

Lemma has_prefix_app (p x : bytes) : has_prefix p (p ++ x).
Proof.
  induction p as [|c p IH]; cbn; [exact I|].
  destruct (decide (c = c)); [exact IH | congruence].
Qed.

Lemma trailing_prefixed (pfx : bytes) (v : Z) :
  is_u64 v -> trailing (pfx ++ FromUint64Key v) = v.
Proof.
  intros Hv. unfold trailing, FromUint64Key.
  rewrite length_app, length_be_bytes.
  replace (length pfx + 8 - 8)%nat with (length pfx) by lia.
  rewrite drop_app_length. apply ToUint64Key_be_bytes.
  unfold is_u64 in Hv. change (256 ^ Z.of_nat 8) with (2 ^ 64). exact Hv.
Qed.

Lemma lookup_filter_future (pfx : bytes) (k : Z) (kv : gmap bytes bytes) (key : bytes) :
  filter (fun e : bytes * bytes => ~ future pfx k e) kv !! key =
    if decide (has_prefix pfx key /\ k <= trailing key) then None else kv !! key.
Proof.
  apply option_eq. intros v. rewrite map_lookup_filter_Some. unfold future. cbn [fst].
  destruct (decide (has_prefix pfx key /\ k <= trailing key)) as [Hf|Hn].
  - split; [tauto | discriminate].
  - tauto.
Qed.

(** What a [DeleteFuture...] scan over [pfx] with cutoff [k] leaves in the
    in-memory store. *)
Lemma mem_delete_future_lookup (pfx : bytes) (k : Z) (s : MemDB) :
  (8 <= length pfx)%nat ->
  exists s1 : MemDB,
    mem_PrefixedIterate s pfx [] (delete_from k) = (s1, None) /\
    (forall v : Z, is_u64 v -> k <= v ->
       mem_Get s1 (pfx ++ FromUint64Key v) = ([], Some ErrNotFound)) /\
    (forall v : Z, is_u64 v -> v < k ->
       mem_Get s1 (pfx ++ FromUint64Key v) = mem_Get s (pfx ++ FromUint64Key v)) /\
    (forall key : bytes, ~ has_prefix pfx key -> mem_Get s1 key = mem_Get s key).
Proof.
  intros Hpfx. destruct (mem_delete_future pfx k s Hpfx) as [Hrun _]. cbn zeta in Hrun.
  eexists. split; [exact Hrun|].
  unfold mem_Get. cbn [mem_kv]. split; [|split].
  - intros v Hv Hle. rewrite lookup_filter_future, trailing_prefixed by exact Hv.
    destruct (decide _) as [_|Hn]; [reflexivity|].
    exfalso. apply Hn. split; [apply has_prefix_app | exact Hle].
  - intros v Hv Hlt. rewrite lookup_filter_future, trailing_prefixed by exact Hv.
    destruct (decide _) as [[_ Hle]|_]; [lia | reflexivity].
  - intros key Hno. rewrite lookup_filter_future.
    destruct (decide _) as [[Hp _]|_]; [contradiction | reflexivity].
Qed.

(** X10: rolling the snapshots back.  On the in-memory store,
    [DeleteFutureWorkingTrees k] returns no error and leaves the working
    tree of the engine alone; afterwards [LoadWorkingTree v] finds nothing
    for a version [v >= k], the snapshot of a version [v < k] is the one
    that was there, and no key outside the working-tree prefix changed. *)
Theorem DeleteFutureWorkingTrees_rollback {codec : Codec} (m : Merkle MemDB) (k v : Z) :
  is_u64 v ->
  exists m1 : Merkle MemDB,
    DeleteFutureWorkingTrees m k = (m1, None) /\
    workingTree m1 = workingTree m /\
    (k <= v -> LoadWorkingTree m1 v = (m1, Some ErrNotFound)) /\
    (v < k ->
       Get (db m1) (PrefixedWorkingTreeKey v) = Get (db m) (PrefixedWorkingTreeKey v)) /\
    (forall key : bytes,
       ~ has_prefix WorkingTreeKey key -> Get (db m1) key = Get (db m) key).
Proof.
  intros Hv.
  destruct (mem_delete_future_lookup WorkingTreeKey k (db m) ltac:(cbn; lia))
    as (s1 & Hrun & Hgone & Hkept & Hother).
  exists (with_db m s1). unfold DeleteFutureWorkingTrees.
  cbn [PrefixedIterate MemDB_DB]. rewrite Hrun.
  split; [reflexivity|]. split; [reflexivity|]. split; [|split].
  - intros Hle. unfold LoadWorkingTree. cbn [with_db db Get MemDB_DB].
    unfold PrefixedWorkingTreeKey. now rewrite (Hgone v Hv Hle).
  - intros Hlt. cbn [with_db db Get MemDB_DB]. exact (Hkept v Hv Hlt).
  - intros key Hno. cbn [with_db db Get MemDB_DB]. exact (Hother key Hno).
Qed.

Lemma DeleteFutureWorkingTrees_rollback_witness :
  exists m1 : Merkle MemDB,
    DeleteFutureWorkingTrees Fixture.saved_done 100 = (m1, None) /\
    workingTree m1 = workingTree Fixture.saved_done /\
    (100 <= 100 ->
       LoadWorkingTree (codec := Fixture.codec) m1 100 = (m1, Some ErrNotFound)) /\
    (100 < 100 ->
       Get (db m1) (PrefixedWorkingTreeKey 100) =
       Get (db Fixture.saved_done) (PrefixedWorkingTreeKey 100)) /\
    (forall key : bytes,
       ~ has_prefix WorkingTreeKey key ->
       Get (db m1) key = Get (db Fixture.saved_done) key).
Proof.
  apply (DeleteFutureWorkingTrees_rollback (codec := Fixture.codec) Fixture.saved_done 100 100).
  unfold is_u64. lia.
Defined.

(** X11: rolling the finalized trees back.  On the in-memory store,
    [DeleteFutureFinalizedTrees k] returns no error and leaves the working
    tree of the engine alone; afterwards there is no record under a start
    leaf index [s >= k], the record under a start leaf index [s < k] is the
    one that was there, and no key outside the finalized-tree prefix
    changed: the nodes and the snapshots stay. *)
Theorem DeleteFutureFinalizedTrees_rollback (m : Merkle MemDB) (k s : Z) :
  is_u64 s ->
  exists m1 : Merkle MemDB,
    DeleteFutureFinalizedTrees m k = (m1, None) /\
    workingTree m1 = workingTree m /\
    (k <= s -> Get (db m1) (PrefixedFinalizedTreeKey s) = ([], Some ErrNotFound)) /\
    (s < k ->
       Get (db m1) (PrefixedFinalizedTreeKey s) = Get (db m) (PrefixedFinalizedTreeKey s)) /\
    (forall key : bytes,
       ~ has_prefix FinalizedTreeKey key -> Get (db m1) key = Get (db m) key).
Proof.
  intros Hs.
  destruct (mem_delete_future_lookup FinalizedTreeKey k (db m) ltac:(cbn; lia))
    as (s1 & Hrun & Hgone & Hkept & Hother).
  exists (with_db m s1). unfold DeleteFutureFinalizedTrees.
  cbn [PrefixedIterate MemDB_DB]. rewrite Hrun.
  split; [reflexivity|]. split; [reflexivity|]. split; [|split].
  - intros Hle. cbn [with_db db Get MemDB_DB]. exact (Hgone s Hs Hle).
  - intros Hlt. cbn [with_db db Get MemDB_DB]. exact (Hkept s Hs Hlt).
  - intros key Hno. cbn [with_db db Get MemDB_DB]. exact (Hother key Hno).
Qed.

Lemma DeleteFutureFinalizedTrees_rollback_witness :
  exists m1 : Merkle MemDB,
    DeleteFutureFinalizedTrees Fixture.finalized3 1 = (m1, None) /\
    workingTree m1 = workingTree Fixture.finalized3 /\
    (1 <= 1 -> Get (db m1) (PrefixedFinalizedTreeKey 1) = ([], Some ErrNotFound)) /\
    (1 < 1 ->
       Get (db m1) (PrefixedFinalizedTreeKey 1) =
       Get (db Fixture.finalized3) (PrefixedFinalizedTreeKey 1)) /\
    (forall key : bytes,
       ~ has_prefix FinalizedTreeKey key ->
       Get (db m1) key = Get (db Fixture.finalized3) key).
Proof.
  apply (DeleteFutureFinalizedTrees_rollback Fixture.finalized3 1 1).
  unfold is_u64. lia.
Defined.
